(** * Workflow engine: a shallow embedding of [services/workflowEngine.ts]

    The engine walks a user-drawn graph of nodes depth-first from the
    webhook (trigger) node.  Every node resolves its templated fields
    against a global variable store, dispatches on its type, stores its
    output and then descends into the targets of its outgoing edges.

    JavaScript values are an inductive type.  Objects are association
    lists kept in own-property order; an object that the code assigns
    to by key or calls [hasOwnProperty] on carries its prototype as
    well, since both go through it.  The engine is a state-and-exception
    monad over the fields the class mutates ([nodes], [variables],
    [logs]), and the recursion of [executeNode] is bounded by a fuel
    argument: running out of fuel stands for the unbounded recursion of
    a cyclic graph.

    Strings are Rocq strings: their characters are the code units
    below 256, and whitespace is what [trim()] and [\s] take for
    whitespace among them.  Numbers are integers (the engine does no
    arithmetic).  The observer callbacks [setNodes] and [setLogs] only
    receive copies of [nodes] and [logs]; they are taken not to raise
    and are left out. *)

From Stdlib Require Import String Ascii List ZArith Lia Bool Arith PeanoNat.
Import ListNotations.
Open Scope string_scope.
Set Warnings "-register-all,-abstract-large-number".

(* ================================================================== *)
(** ** JavaScript values *)

Module Js.

Inductive JsVal : Type :=
| JUndefined
| JNull
| JBool (b : bool)
| JNum (n : Z)
| JStr (s : string)
| JArr (items : list JsVal)
| JObj (props : list (string * JsVal)).

(** [typeof v === 'object'] holds of objects, arrays and [null]. *)
Definition typeofObject (v : JsVal) : bool :=
  match v with
  | JNull | JArr _ | JObj _ => true
  | _ => false
  end.

(** [typeof v === 'object' && v !== null]. *)
Definition isObject (v : JsVal) : bool :=
  match v with
  | JArr _ | JObj _ => true
  | _ => false
  end.

(** *** Characters and strings *)

(** The whitespace of [trim()] and of [\s] below 256: tab, line feed,
    vertical tab, form feed, carriage return, space and the no-break
    space U+00A0. *)
Definition isSpace (c : ascii) : bool :=
  let n := nat_of_ascii c in
  ((9 <=? n)%nat && (n <=? 13)%nat) || (n =? 32)%nat || (n =? 160)%nat.

Definition isDigit (c : ascii) : bool :=
  let n := nat_of_ascii c in (48 <=? n)%nat && (n <=? 57)%nat.

Fixpoint dropWhile (p : ascii -> bool) (s : string) : string :=
  match s with
  | EmptyString => EmptyString
  | String c t => if p c then dropWhile p t else s
  end.

Fixpoint takeWhile (p : ascii -> bool) (s : string) : string :=
  match s with
  | EmptyString => EmptyString
  | String c t => if p c then String c (takeWhile p t) else EmptyString
  end.

Fixpoint forallb_str (p : ascii -> bool) (s : string) : bool :=
  match s with
  | EmptyString => true
  | String c t => p c && forallb_str p t
  end.

(** Drops the longest suffix of characters satisfying [p]. *)
Fixpoint dropWhileEnd (p : ascii -> bool) (s : string) : string :=
  match s with
  | EmptyString => EmptyString
  | String c t =>
      match dropWhileEnd p t with
      | EmptyString => if p c then EmptyString else String c EmptyString
      | r => String c r
      end
  end.

(** [String.prototype.trim]. *)
Definition trim (s : string) : string :=
  dropWhileEnd isSpace (dropWhile isSpace s).

(** The text after the prefix [p] of [s], where [s] starts with [p]. *)
Fixpoint stripPrefix (p s : string) : option string :=
  match p with
  | EmptyString => Some s
  | String a p' =>
      match s with
      | String b s' => if Ascii.eqb a b then stripPrefix p' s' else None
      | EmptyString => None
      end
  end.

(** The text without its first [n] characters. *)
Fixpoint dropStr (n : nat) (s : string) : string :=
  match n, s with
  | S k, String _ t => dropStr k t
  | _, _ => s
  end.

(** [s.startsWith(p)]. *)
Definition startsWith (p s : string) : bool := String.prefix p s.

Fixpoint endsWith (p s : string) : bool :=
  (s =? p) || match s with
              | EmptyString => false
              | String _ t => endsWith p t
              end.

(** [s.substring(0, n)]. *)
Definition substring0 (n : nat) (s : string) : string :=
  String.substring 0 n s.

(** A truthy string is a non-empty one; [undefined] is [None]. *)
Definition truthy (o : option string) : bool :=
  match o with
  | Some (String _ _) => true
  | _ => false
  end.

(** *** Decimal rendering of numbers, [String(n)] *)

Definition digitChar (n : nat) : ascii := ascii_of_nat (48 + n).

Fixpoint natDigits (fuel n : nat) (acc : string) : string :=
  match fuel with
  | 0 => acc
  | S f =>
      let acc' := String (digitChar (n mod 10)) acc in
      if (n <? 10)%nat then acc' else natDigits f (n / 10) acc'
  end.

Definition natToString (n : nat) : string := natDigits (S n) n EmptyString.

(** An integer [n] stands for the Number nearest to it: itself below
    [2^53], and beyond that the double it rounds to, ties to even. *)
Definition toDouble (c : Z) : Z :=
  let bits := (Z.log2 c + 1)%Z in
  if (bits <=? 53)%Z then c
  else
    let sh := (bits - 53)%Z in
    let q := Z.shiftr c sh in
    let r := (c - Z.shiftl q sh)%Z in
    let half := Z.shiftl 1 (sh - 1) in
    let q' := if (half <? r)%Z || ((r =? half)%Z && Z.odd q)
              then (q + 1)%Z else q in
    Z.shiftl q' sh.

Fixpoint posDigits (fuel : nat) (z : Z) (acc : string) : string :=
  match fuel with
  | 0 => acc
  | S f =>
      let acc' := String (digitChar (Z.to_nat (z mod 10))) acc in
      if (z <? 10)%Z then acc' else posDigits f (z / 10)%Z acc'
  end.

(** The decimal digits of a natural number. *)
Definition decimal (z : Z) : string :=
  posDigits (S (Z.to_nat (Z.log2 z))) z EmptyString.

Fixpoint zeros (n : nat) : string :=
  match n with
  | 0 => EmptyString
  | S k => String "0" (zeros k)
  end.

(** The digits [s] and the exponent [n] of Number::toString for the
    double [x], a positive integer of [n] digits: the fewest digits
    [k] such that [s * 10^(n-k)] rounds to [x], and among those of
    that length the nearest to [x], the even one on a tie. *)
Fixpoint shortest (fuel : nat) (k n x : Z) : Z * Z :=
  match fuel with
  | 0 => (x, n)
  | S f =>
      let p := (10 ^ (n - k))%Z in
      let lo := (x / p)%Z in
      let hi := (lo + 1)%Z in
      let pick := fun s : Z =>
                    if (s =? 10 ^ k)%Z then ((10 ^ (k - 1))%Z, (n + 1)%Z)
                    else (s, n) in
      let okLo := (toDouble (lo * p) =? x)%Z in
      let okHi := (toDouble (hi * p) =? x)%Z in
      if okLo && okHi
      then let dLo := (x - lo * p)%Z in
           let dHi := (hi * p - x)%Z in
           if (dLo <? dHi)%Z then pick lo
           else if (dHi <? dLo)%Z then pick hi
                else if Z.even lo then pick lo else pick hi
      else if okLo then pick lo
           else if okHi then pick hi
                else shortest f (k + 1)%Z n x
  end.

(** Digits followed by zeros up to 21 digits, the exponent form
    beyond. *)
Definition formatNumber (s n : Z) : string :=
  let ds := decimal s in
  if (n <=? 21)%Z
  then ds ++ zeros (Z.to_nat n - String.length ds)
  else match ds with
       | EmptyString => EmptyString
       | String d EmptyString => String d ("e+" ++ decimal (n - 1))
       | String d rest => String d ("." ++ rest ++ "e+" ++ decimal (n - 1))
       end.

(** [String(m)] for a positive [m]. *)
Definition magnitudeToString (m : Z) : string :=
  if (m <? 2 ^ 53)%Z then decimal m
  else
    let x := toDouble m in
    if (2 ^ 1024 <=? x)%Z then "Infinity"
    else
      let n := Z.of_nat (String.length (decimal x)) in
      let (s, n') := shortest (Z.to_nat n) 1 n x in
      formatNumber s n'.

Definition numToString (z : Z) : string :=
  match z with
  | Z0 => "0"
  | Zpos p => magnitudeToString (Zpos p)
  | Zneg p => "-" ++ magnitudeToString (Zpos p)
  end.

(** *** Own properties in JavaScript order

    The own keys of an ordinary object are listed with the array
    indices first, in ascending numeric order, then the other string
    keys in the order they were created.  An association list is kept
    in exactly that order. *)

Fixpoint digitsValue (s : string) (acc : N) : N :=
  match s with
  | EmptyString => acc
  | String c t => digitsValue t (acc * 10 + N.of_nat (nat_of_ascii c - 48))%N
  end.

(** The canonical numeric strings below [2^32 - 1]. *)
Definition arrayIndex (k : string) : option N :=
  match k with
  | EmptyString => None
  | String c t =>
      if forallb_str isDigit k
         && (negb (Ascii.eqb c "0") || (t =? EmptyString))
         && (String.length k <=? 10)%nat
      then let v := digitsValue k 0 in
           if (v <? 4294967295)%N then Some v else None
      else None
  end.

Section PropMap.
Context {V : Type}.

Fixpoint prop_get (k : string) (m : list (string * V)) : option V :=
  match m with
  | [] => None
  | (k', v) :: rest => if k' =? k then Some v else prop_get k rest
  end.

(** Is [k] an own property of [m]? *)
Definition prop_has (k : string) (m : list (string * V)) : bool :=
  match prop_get k m with Some _ => true | None => false end.

Fixpoint prop_replace (k : string) (v : V) (m : list (string * V))
  : list (string * V) :=
  match m with
  | [] => []
  | (k', v') :: rest =>
      if k' =? k then (k, v) :: rest else (k', v') :: prop_replace k v rest
  end.

(** Places a new array-index key after the smaller indices. *)
Fixpoint prop_insert_index (i : N) (k : string) (v : V)
         (m : list (string * V)) : list (string * V) :=
  match m with
  | [] => [(k, v)]
  | (k', v') :: rest =>
      match arrayIndex k' with
      | Some j => if (j <? i)%N
                  then (k', v') :: prop_insert_index i k v rest
                  else (k, v) :: m
      | None => (k, v) :: m
      end
  end.

(** [m[k] = v]. *)
Definition prop_set (k : string) (v : V) (m : list (string * V))
  : list (string * V) :=
  if prop_has k m then prop_replace k v m
  else match arrayIndex k with
       | Some i => prop_insert_index i k v m
       | None => m ++ [(k, v)]
       end.

(** [Object.keys(m)]. *)
Definition Object_keys (m : list (string * V)) : list string :=
  map fst m.
End PropMap.

(** [xs.join(sep)]. *)
Definition join (sep : string) (xs : list string) : string :=
  String.concat sep xs.

(** Own properties of a value that is an object or an array: an array
    owns its indices and [length]. *)
Fixpoint indexed (i : nat) (l : list JsVal) : list (string * JsVal) :=
  match l with
  | [] => []
  | x :: t => (natToString i, x) :: indexed (S i) t
  end.

Definition ownProps (v : JsVal) : list (string * JsVal) :=
  match v with
  | JObj props => props
  | JArr items =>
      indexed 0 items ++ [("length", JNum (Z.of_nat (List.length items)))]
  | _ => []
  end.

(** *** An object used as a map

    [this.variables] starts as [{}] and is only read and written by
    key, but it stays an ordinary object: the method
    [hasOwnProperty] is found through its own properties and its
    prototype, and an assignment to the key [__proto__] reaches the
    accessor of [Object.prototype], which replaces the prototype
    instead of creating a property.  The prototype is the standard one,
    [null], or a data value that was assigned to [__proto__]. *)
Inductive Proto : Type :=
| ObjectPrototype
| NullPrototype
| ValuePrototype (v : JsVal).

Record Store : Type := {
  own : list (string * JsVal);
  proto : Proto
}.

(** [{}]. *)
Definition emptyObject : Store := {| own := []; proto := ObjectPrototype |}.

(** A plain data value seen as a store: data values keep their
    standard prototype. *)
Definition asStore (v : JsVal) : Store :=
  {| own := ownProps v; proto := ObjectPrototype |}.

(** Does the lookup of the member [name] of [Object.prototype] get
    past the own properties and the prototype of the object? *)
Definition reachesBuiltin (name : string) (st : Store) : bool :=
  negb (prop_has name (own st))
  && match proto st with
     | ObjectPrototype => true
     | NullPrototype => false
     | ValuePrototype o => negb (prop_has name (ownProps o))
     end.

(** [st[k] = v]. *)
Definition assign (k : string) (v : JsVal) (st : Store) : Store :=
  if (k =? "__proto__") && reachesBuiltin "__proto__" st
  then match v with
       | JObj _ | JArr _ => {| own := own st; proto := ValuePrototype v |}
       | JNull => {| own := own st; proto := NullPrototype |}
       | _ => st
       end
  else {| own := prop_set k v (own st); proto := proto st |}.

(** [String(v)]. *)
Fixpoint String_of (v : JsVal) : string :=
  match v with
  | JUndefined => "undefined"
  | JNull => "null"
  | JBool true => "true"
  | JBool false => "false"
  | JNum n => numToString n
  | JStr s => s
  | JArr items =>
      join ","
           (map (fun x => match x with
                          | JUndefined | JNull => EmptyString
                          | _ => String_of x
                          end) items)
  | JObj _ => "[object Object]"
  end.

End Js.
Import Js.

(* ================================================================== *)
(** ** The placeholder pattern [/\{\{\s*([a-zA-Z0-9_\-]+)\s*\}\}/g] *)

Module Template.

Definition isNameChar (c : ascii) : bool :=
  let n := nat_of_ascii c in
  ((97 <=? n)%nat && (n <=? 122)%nat) || ((65 <=? n)%nat && (n <=? 90)%nat)
  || isDigit c || (n =? 95)%nat || (n =? 45)%nat.

Definition notOpen (c : ascii) : bool := negb (Ascii.eqb c "{").

(** One attempt of the pattern at the head of [s]: the captured name
    and the text that follows the match.  The three starred or plussed
    classes are greedy and pairwise disjoint, so no backtracking can
    change the outcome. *)
Definition matchPlaceholder (s : string) : option (string * string) :=
  match stripPrefix "{{" s with
  | Some t =>
      let t1 := dropWhile isSpace t in
      match takeWhile isNameChar t1 with
      | EmptyString => None
      | name =>
          match stripPrefix "}}"
                  (dropWhile isSpace (dropWhile isNameChar t1)) with
          | Some rest => Some (name, rest)
          | None => None
          end
      end
  | None => None
  end.

(** The pieces a global scan cuts a text into: characters outside any
    match, and matches, by captured name. *)
Inductive Segment : Type :=
| Lit (c : ascii)
| Hole (name : string).

(** The scan tries the pattern at each position from the left and
    resumes after a match; [skip] counts the characters of the current
    match still to pass over. *)
Fixpoint segments (skip : nat) (s : string) : list Segment :=
  match s with
  | EmptyString => []
  | String c t =>
      match skip with
      | S k => segments k t
      | 0 =>
          match matchPlaceholder s with
          | Some (name, rest) =>
              Hole name :: segments (String.length t - String.length rest) t
          | None => Lit c :: segments 0 t
          end
      end
  end.

(** The names of the placeholders of a text, in scan order. *)
Fixpoint holes (l : list Segment) : list string :=
  match l with
  | [] => []
  | Lit _ :: t => holes t
  | Hole n :: t => n :: holes t
  end.

Definition placeholders (text : string) : list string :=
  holes (segments 0 text).

(** The pattern read as a description of texts: [text] contains two
    opening braces, blanks, the non-empty [name] made of name
    characters, blanks, and two closing braces. *)
Definition occursIn (name text : string) : Prop :=
  exists pre w1 w2 post,
    text = pre ++ "{{" ++ w1 ++ name ++ w2 ++ "}}" ++ post
    /\ forallb_str isSpace w1 = true
    /\ forallb_str isSpace w2 = true
    /\ name <> EmptyString
    /\ forallb_str isNameChar name = true.

End Template.
Import Template.

(* ================================================================== *)
(** ** The graph: [types.ts] *)

Inductive NodeType : Type :=
  T_webhook | T_ai_text | T_ai_image | T_condition | T_loop | T_api
  | T_variable.

Definition typeName (t : NodeType) : string :=
  match t with
  | T_webhook => "webhook"
  | T_ai_text => "ai-text"
  | T_ai_image => "ai-image"
  | T_condition => "condition"
  | T_loop => "loop"
  | T_api => "api"
  | T_variable => "variable"
  end.

Inductive Status : Type := Idle | Running | Success | Error.

Inductive FieldType : Type := TextField | FileField.

Record WebhookFormField : Type := {
  field_id : string;
  key : string;
  field_type : FieldType;
  field_value : string
}.

Inductive InputType : Type := VariableInput | FileInput.

(** [value] is a string in a stored node and any value once the input
    has been resolved. *)
Record NodeInput : Type := {
  input_id : string;
  input_type : InputType;
  value : JsVal
}.

Record OutputMapping : Type := {
  field : string;
  variable : string
}.

Inductive ApiMethod : Type := GET | POST.
Inductive ContentType : Type := Json | FormData.

Record NodeData : Type := {
  label : string;
  description : option string;
  prompt : option string;
  model : option string;
  inputImage : JsVal;
  inputImageVariable : option string;
  inputs : option (list NodeInput);
  variableName : option string;
  outputVariableName : option string;
  outputMappings : option (list OutputMapping);
  condition : option string;
  apiUrl : option string;
  apiMethod : option ApiMethod;
  webhookContentType : option ContentType;
  webhookPayload : option string;
  webhookFormData : option (list WebhookFormField);
  loopArray : option string;
  outputValue : JsVal;
  status : option Status;
  errorMessage : option string;
  temperature : option Z;
  topP : option Z;
  topK : option Z;
  maxOutputTokens : option Z;
  jsonSchema : option string
}.

Record Node : Type := {
  id : string;
  type : NodeType;
  position : Z * Z;
  data : NodeData
}.

Record Edge : Type := {
  edge_id : string;
  source : string;
  target : string;
  sourceHandle : option string;
  targetHandle : option string
}.

(** *** Field updates, [{ ...d, f: v }] *)

Definition with_prompt (v : option string) (d : NodeData) : NodeData :=
  {| label := label d; description := description d; prompt := v;
     model := model d; inputImage := inputImage d;
     inputImageVariable := inputImageVariable d; inputs := inputs d;
     variableName := variableName d;
     outputVariableName := outputVariableName d;
     outputMappings := outputMappings d; condition := condition d;
     apiUrl := apiUrl d; apiMethod := apiMethod d;
     webhookContentType := webhookContentType d;
     webhookPayload := webhookPayload d;
     webhookFormData := webhookFormData d; loopArray := loopArray d;
     outputValue := outputValue d; status := status d;
     errorMessage := errorMessage d; temperature := temperature d;
     topP := topP d; topK := topK d; maxOutputTokens := maxOutputTokens d;
     jsonSchema := jsonSchema d |}.

Definition with_apiUrl (v : option string) (d : NodeData) : NodeData :=
  {| label := label d; description := description d; prompt := prompt d;
     model := model d; inputImage := inputImage d;
     inputImageVariable := inputImageVariable d; inputs := inputs d;
     variableName := variableName d;
     outputVariableName := outputVariableName d;
     outputMappings := outputMappings d; condition := condition d;
     apiUrl := v; apiMethod := apiMethod d;
     webhookContentType := webhookContentType d;
     webhookPayload := webhookPayload d;
     webhookFormData := webhookFormData d; loopArray := loopArray d;
     outputValue := outputValue d; status := status d;
     errorMessage := errorMessage d; temperature := temperature d;
     topP := topP d; topK := topK d; maxOutputTokens := maxOutputTokens d;
     jsonSchema := jsonSchema d |}.

Definition with_inputs (v : option (list NodeInput)) (d : NodeData)
  : NodeData :=
  {| label := label d; description := description d; prompt := prompt d;
     model := model d; inputImage := inputImage d;
     inputImageVariable := inputImageVariable d; inputs := v;
     variableName := variableName d;
     outputVariableName := outputVariableName d;
     outputMappings := outputMappings d; condition := condition d;
     apiUrl := apiUrl d; apiMethod := apiMethod d;
     webhookContentType := webhookContentType d;
     webhookPayload := webhookPayload d;
     webhookFormData := webhookFormData d; loopArray := loopArray d;
     outputValue := outputValue d; status := status d;
     errorMessage := errorMessage d; temperature := temperature d;
     topP := topP d; topK := topK d; maxOutputTokens := maxOutputTokens d;
     jsonSchema := jsonSchema d |}.

Definition with_inputImage (v : JsVal) (d : NodeData) : NodeData :=
  {| label := label d; description := description d; prompt := prompt d;
     model := model d; inputImage := v;
     inputImageVariable := inputImageVariable d; inputs := inputs d;
     variableName := variableName d;
     outputVariableName := outputVariableName d;
     outputMappings := outputMappings d; condition := condition d;
     apiUrl := apiUrl d; apiMethod := apiMethod d;
     webhookContentType := webhookContentType d;
     webhookPayload := webhookPayload d;
     webhookFormData := webhookFormData d; loopArray := loopArray d;
     outputValue := outputValue d; status := status d;
     errorMessage := errorMessage d; temperature := temperature d;
     topP := topP d; topK := topK d; maxOutputTokens := maxOutputTokens d;
     jsonSchema := jsonSchema d |}.

Definition with_model (v : option string) (d : NodeData) : NodeData :=
  {| label := label d; description := description d; prompt := prompt d;
     model := v; inputImage := inputImage d;
     inputImageVariable := inputImageVariable d; inputs := inputs d;
     variableName := variableName d;
     outputVariableName := outputVariableName d;
     outputMappings := outputMappings d; condition := condition d;
     apiUrl := apiUrl d; apiMethod := apiMethod d;
     webhookContentType := webhookContentType d;
     webhookPayload := webhookPayload d;
     webhookFormData := webhookFormData d; loopArray := loopArray d;
     outputValue := outputValue d; status := status d;
     errorMessage := errorMessage d; temperature := temperature d;
     topP := topP d; topK := topK d; maxOutputTokens := maxOutputTokens d;
     jsonSchema := jsonSchema d |}.

(** [{ ...d, status, outputValue, errorMessage }]. *)
Definition with_result (st : option Status) (out : JsVal)
           (err : option string) (d : NodeData) : NodeData :=
  {| label := label d; description := description d; prompt := prompt d;
     model := model d; inputImage := inputImage d;
     inputImageVariable := inputImageVariable d; inputs := inputs d;
     variableName := variableName d;
     outputVariableName := outputVariableName d;
     outputMappings := outputMappings d; condition := condition d;
     apiUrl := apiUrl d; apiMethod := apiMethod d;
     webhookContentType := webhookContentType d;
     webhookPayload := webhookPayload d;
     webhookFormData := webhookFormData d; loopArray := loopArray d;
     outputValue := out; status := st;
     errorMessage := err; temperature := temperature d;
     topP := topP d; topK := topK d; maxOutputTokens := maxOutputTokens d;
     jsonSchema := jsonSchema d |}.

Definition with_data (d : NodeData) (n : Node) : Node :=
  {| id := id n; type := type n; position := position n; data := d |}.

Definition with_value (v : JsVal) (i : NodeInput) : NodeInput :=
  {| input_id := input_id i; input_type := input_type i; value := v |}.

(* ================================================================== *)
(** ** What the engine takes from its surroundings *)

Inductive Result (A : Type) : Type :=
| Ok (a : A)
| Err (message : string).
Arguments Ok {A} a.
Arguments Err {A} message.

(** The Gemini call of [geminiService.ts] needs the network, and the
    JSON codec and the clock belong to the JavaScript runtime: the
    engine is parametric in them.  [JSON_parse] returns [None] where
    the runtime raises a syntax error; the clock readings are indexed
    by the number of log lines written so far. *)
Record Host : Type := {
  executeAiNode : NodeData -> string -> Result JsVal;
  JSON_parse : string -> option JsVal;
  JSON_stringify : JsVal -> string;
  JSON_stringify_indent2 : JsVal -> string;
  Date_now : nat -> Z;
  toLocaleTimeString : nat -> string
}.

(* ================================================================== *)
(** ** The engine state and its monad *)

Record Engine : Type := {
  nodes : list Node;
  variables : Store;
  logs : list string
}.

(** A call returns, raises an [Error] with a message, or never comes
    back (the fuel of [executeNode] ran out). *)
Inductive Outcome (A : Type) : Type :=
| Returns (a : A) (e : Engine)
| Throws (message : string) (e : Engine)
| Diverges.
Arguments Returns {A} a e.
Arguments Throws {A} message e.
Arguments Diverges {A}.

Definition M (A : Type) : Type := Engine -> Outcome A.

Definition ret {A : Type} (a : A) : M A := fun e => Returns a e.

Definition bind {A B : Type} (m : M A) (k : A -> M B) : M B :=
  fun e =>
    match m e with
    | Returns a e' => k a e'
    | Throws msg e' => Throws msg e'
    | Diverges => Diverges
    end.

Definition throw {A : Type} (msg : string) : M A := fun e => Throws msg e.

(** [try { body } catch (err) { handler(err.message) }]. *)
Definition tryCatch {A : Type} (body : M A) (handler : string -> M A) : M A :=
  fun e =>
    match body e with
    | Throws msg e' => handler msg e'
    | o => o
    end.

Definition liftResult {A : Type} (r : Result A) : M A :=
  match r with
  | Ok a => ret a
  | Err msg => throw msg
  end.

Definition gets {A : Type} (f : Engine -> A) : M A :=
  fun e => Returns (f e) e.

Definition modify (f : Engine -> Engine) : M unit :=
  fun e => Returns tt (f e).

Declare Scope engine_scope.
Delimit Scope engine_scope with engine.
Notation "x <- m ;; k" := (bind m (fun x => k))
  (at level 100, m at next level, right associativity) : engine_scope.
Notation "m ;; k" := (bind m (fun _ => k))
  (at level 100, right associativity) : engine_scope.
Open Scope engine_scope.

(** [for (const x of xs) { await f(x) }] and [xs.forEach(f)]. *)
Fixpoint forEach {A : Type} (xs : list A) (f : A -> M unit) : M unit :=
  match xs with
  | [] => ret tt
  | x :: rest => f x ;; forEach rest f
  end.

(** [xs.map(f)] for an [f] that may log. *)
Fixpoint mapM {A B : Type} (f : A -> M B) (xs : list A) : M (list B) :=
  match xs with
  | [] => ret []
  | x :: rest => y <- f x ;; ys <- mapM f rest ;; ret (y :: ys)
  end.

(* ================================================================== *)
(** ** [class WorkflowEngine] *)

Module WorkflowEngine.

Definition set_nodes (ns : list Node) (e : Engine) : Engine :=
  {| nodes := ns; variables := variables e; logs := logs e |}.

Definition set_variables (vs : Store) (e : Engine) : Engine :=
  {| nodes := nodes e; variables := vs; logs := logs e |}.

Definition set_logs (ls : list string) (e : Engine) : Engine :=
  {| nodes := nodes e; variables := variables e; logs := ls |}.

(** A log line: the clock reading in brackets, then the message. *)
Definition stamped (h : Host) (ls : list string) (message : string)
  : list string :=
  List.app ls ["[" ++ toLocaleTimeString h (List.length ls) ++ "] " ++ message].

(** [obj.hasOwnProperty(name)], the method being looked up on the
    object itself: where an own property or the prototype hides the
    built-in, the call raises a [TypeError]. *)
Definition hasOwnProperty (receiver : string) (obj : Store) (name : string)
  : Result bool :=
  if reachesBuiltin "hasOwnProperty" obj
  then Ok (prop_has name (own obj))
  else Err (receiver ++ ".hasOwnProperty is not a function").

(** The text of the error both resolvers raise for an unknown name. *)
Definition notFound (name : string) (vars : Store) : string :=
  "Variable '" ++ name ++ "' not found. Available: "
  ++ join ", " (Object_keys (own vars)).

(** [varName.trim().replace(/^\{\{\s*|\s*\}\}$/g, '')] after the trim:
    an opening brace pair with the blanks after it goes from the
    front, a closing pair with the blanks before it from the back. *)
Definition stripBraces (s : string) : string :=
  let s1 := match stripPrefix "{{" s with
            | Some t => dropWhile isSpace t
            | None => s
            end in
  if endsWith "}}" s1
  then dropWhileEnd isSpace (substring0 (String.length s1 - 2) s1)
  else s1.

(** [updateNodeStatus]'s map over [this.nodes]; an [undefined] output
    keeps the stored one. *)
Definition markNode (i : string) (st : Status) (output : JsVal)
           (err : option string) (n : Node) : Node :=
  if id n =? i
  then with_data
         (with_result (Some st)
            (match output with
             | JUndefined => outputValue (data n)
             | _ => output
             end)
            err (data n)) n
  else n.

(** The replacer of [getSafeContext], on one string. *)
Definition redactString (val : string) : string :=
  if startsWith "data:" val && (500 <? String.length val)%nat
  then "[Image Data]"
  else if (5000 <? String.length val)%nat
       then substring0 5000 val ++ "... [Truncated]"
       else val.

(** The replacer leaves every value that is not a string as it is, so
    serializing with it is serializing the value with its strings
    rewritten. *)
Fixpoint replaceStrings (v : JsVal) : JsVal :=
  match v with
  | JStr s => JStr (redactString s)
  | JArr items => JArr (map replaceStrings items)
  | JObj props =>
      JObj (map (fun kv : string * JsVal =>
                   let (k, x) := kv in (k, replaceStrings x)) props)
  | _ => v
  end.

(** The message of the [TypeError] that [.trim()] raises on a value
    that is not a string. *)
Definition trimTypeError (v : JsVal) : string :=
  match v with
  | JUndefined => "Cannot read properties of undefined (reading 'trim')"
  | JNull => "Cannot read properties of null (reading 'trim')"
  | _ => "varName.trim is not a function"
  end.

(** [a || b] on strings. *)
Definition orElse (o : option string) (d : string) : string :=
  match o with
  | Some (String c t) => String c t
  | _ => d
  end.

Section Engine.
Variable h : Host.
Variable edges : list Edge.

Definition log (message : string) : M unit :=
  modify (fun e => set_logs (stamped h (logs e) message) e).

Definition updateNodeStatus (i : string) (st : Status) (output : JsVal)
           (err : option string) : M unit :=
  modify (fun e => set_nodes (map (markNode i st output err) (nodes e)) e).

(** The callback of [resolveVariables]. *)
Definition substitute (vars : Store) (varName : string) : Result string :=
  match hasOwnProperty "this.variables" vars varName with
  | Ok true =>
      let val := match prop_get varName (own vars) with
                 | Some v => v
                 | None => JUndefined
                 end in
      Ok (if typeofObject val then JSON_stringify h val
          else String_of val)
  | Ok false => Err (notFound varName vars)
  | Err m => Err m
  end.

(** [text.replace(pattern, callback)]: the first callback that
    raises ends the replacement. *)
Fixpoint replaceSegments (vars : Store) (l : list Segment)
  : Result string :=
  match l with
  | [] => Ok EmptyString
  | Lit c :: rest =>
      match replaceSegments vars rest with
      | Ok r => Ok (String c r)
      | Err m => Err m
      end
  | Hole name :: rest =>
      match substitute vars name with
      | Ok v =>
          match replaceSegments vars rest with
          | Ok r => Ok (v ++ r)
          | Err m => Err m
          end
      | Err m => Err m
      end
  end.

Definition resolveVariablesIn (vars : Store) (text : option string)
  : Result string :=
  match text with
  | Some (String c t) => replaceSegments vars (segments 0 (String c t))
  | _ => Ok EmptyString
  end.

Definition resolveVariables (text : option string) : M string :=
  vars <- gets variables ;; liftResult (resolveVariablesIn vars text).

Definition resolveVariableValueIn (vars : Store) (varName : string)
  : Result JsVal :=
  let stripped := stripBraces (trim varName) in
  match hasOwnProperty "this.variables" vars stripped with
  | Ok true =>
      Ok (match prop_get stripped (own vars) with
          | Some v => v
          | None => JUndefined
          end)
  | Ok false => Err (notFound stripped vars)
  | Err m => Err m
  end.

Definition resolveVariableValue (varName : string) : M JsVal :=
  vars <- gets variables ;; liftResult (resolveVariableValueIn vars varName).

Definition resolveInput (input : NodeInput) : M NodeInput :=
  match input_type input with
  | VariableInput =>
      tryCatch
        (val <- match value input with
                | JStr varName => resolveVariableValue varName
                | other => throw (trimTypeError other)
                end ;;
         ret (with_value val input))
        (fun message => log ("Warning: " ++ message) ;; ret input)
  | FileInput => ret input
  end.

Definition resolveInputs (ins : option (list NodeInput))
  : M (list NodeInput) :=
  match ins with
  | None => ret []
  | Some l => mapM resolveInput l
  end.

Definition resolveInputImage (nodeData : NodeData) : M JsVal :=
  match inputImageVariable nodeData with
  | Some (String c t) =>
      tryCatch (resolveVariableValue (String c t))
               (fun message => throw message)
  | _ => ret (inputImage nodeData)
  end.

(** [getSafeContext].  The values of this model have no cycles, so
    the serializer of the object branch cannot raise and its [catch]
    is never entered. *)
Definition getSafeContext (input : JsVal) : string :=
  match input with
  | JStr s =>
      if startsWith "data:" s
      then "[Image Data URL - Content Omitted from Text Context]"
      else if (50000 <? String.length s)%nat
           then substring0 50000 s ++ "... [Truncated]"
           else s
  | JArr _ | JObj _ => JSON_stringify_indent2 h (replaceStrings input)
  | _ => String_of input
  end.

(** Step 1 of [executeNode]: the resolved copy of [node.data]. *)
Definition resolveNodeData (d : NodeData) : M NodeData :=
  d1 <- (if truthy (prompt d)
         then p <- resolveVariables (prompt d) ;; ret (with_prompt (Some p) d)
         else ret d) ;;
  d2 <- (if truthy (apiUrl d1)
         then u <- resolveVariables (apiUrl d1) ;;
              ret (with_apiUrl (Some u) d1)
         else ret d1) ;;
  match inputs d2 with
  | Some (_ :: _) =>
      ins <- resolveInputs (inputs d2) ;; ret (with_inputs (Some ins) d2)
  | _ => img <- resolveInputImage d2 ;; ret (with_inputImage img d2)
  end.

(** The object a form-data webhook builds from its fields. *)
Definition formDataObj (fields : list WebhookFormField) : JsVal :=
  JObj (own (fold_left
               (fun obj f =>
                  match key f with
                  | EmptyString => obj
                  | k => assign k (JStr (field_value f)) obj
                  end)
               fields emptyObject)).

(** The [switch (node.type)]. *)
Definition dispatch (t : NodeType) (processedNodeData : NodeData)
           (inputData : JsVal) : M JsVal :=
  match t with
  | T_webhook =>
      match webhookContentType processedNodeData with
      | Some FormData =>
          log "Loaded simulation Form-Data payload." ;;
          ret (formDataObj
                 (match webhookFormData processedNodeData with
                  | Some fields => fields
                  | None => []
                  end))
      | _ =>
          match webhookPayload processedNodeData with
          | Some (String c t) =>
              match JSON_parse h (String c t) with
              | Some v => log "Loaded simulation JSON payload." ;; ret v
              | None =>
                  log "Error parsing Webhook payload, using default." ;;
                  ret (JObj [("error", JStr "Invalid JSON Payload");
                             ("raw", JStr (String c t))])
              end
          | _ =>
              now <- gets (fun e => Date_now h (List.length (logs e))) ;;
              ret (JObj [("trigger", JStr "manual");
                         ("timestamp", JNum now)])
          end
      end
  | T_ai_text =>
      let textContext := getSafeContext inputData in
      let d := if truthy (model processedNodeData) then processedNodeData
               else with_model (Some "gemini-2.5-flash") processedNodeData in
      liftResult (executeAiNode h d textContext)
  | T_ai_image =>
      log "Requesting image generation/editing..." ;;
      let imageContext := getSafeContext inputData in
      let d := if truthy (model processedNodeData) then processedNodeData
               else with_model (Some "gemini-2.5-flash-image")
                      processedNodeData in
      liftResult (executeAiNode h d imageContext)
  | T_variable => ret inputData
  | T_api =>
      log ("Calling API: " ++ orElse (apiUrl processedNodeData) "No URL") ;;
      ret (JObj [("status", JNum 200);
                 ("data", JObj [("mock", JStr "result")])])
  | T_condition =>
      log ("Checking condition: "
           ++ orElse (condition processedNodeData) EmptyString) ;;
      ret inputData
  | T_loop => ret inputData
  end.

Definition setVariable (varName : string) (v : JsVal) : M unit :=
  modify (fun e => set_variables (assign varName v (variables e)) e).

(** Step 2a: the primary output variable. *)
Definition storeOutputVariable (d : NodeData) (outputData : JsVal)
  : M unit :=
  match outputVariableName d with
  | Some (String c t) =>
      match trim (String c t) with
      | EmptyString => ret tt
      | varName =>
          setVariable varName outputData ;;
          log ("Stored output to variable '" ++ varName ++ "'")
      end
  | _ => ret tt
  end.

(** The body of the [forEach] of step 2b. *)
Definition applyMapping (outputData : JsVal) (mapping : OutputMapping)
  : M unit :=
  match field mapping, variable mapping with
  | String _ _, String _ _ =>
      let fieldName := trim (field mapping) in
      let varName := trim (variable mapping) in
      present <- liftResult
                   (hasOwnProperty "outputData" (asStore outputData)
                                   fieldName) ;;
      if (present : bool)
      then setVariable varName
             (match prop_get fieldName (ownProps outputData) with
              | Some v => v
              | None => JUndefined
              end) ;;
           log ("Stored field '" ++ fieldName ++ "' to variable '"
                ++ varName ++ "'")
      else log ("Warning: Field '" ++ fieldName ++ "' not found in output.")
  | _, _ => ret tt
  end.

(** Step 2b: the mapped fields. *)
Definition storeOutputMappings (d : NodeData) (outputData : JsVal)
  : M unit :=
  match outputMappings d with
  | Some (m :: ms) =>
      if isObject outputData
      then forEach (m :: ms) (applyMapping outputData)
      else log "Warning: Output Mappings ignored because output is not an object."
  | _ => ret tt
  end.

(** The [try] block of [executeNode] up to the search for the next
    nodes: resolve, dispatch, store, mark as done. *)
Definition processNode (node : Node) (inputData : JsVal) : M JsVal :=
  processedNodeData <- resolveNodeData (data node) ;;
  outputData <- dispatch (type node) processedNodeData inputData ;;
  storeOutputVariable (data node) outputData ;;
  storeOutputMappings (data node) outputData ;;
  updateNodeStatus (id node) Success outputData None ;;
  log ("Node " ++ label (data node) ++ " completed.") ;;
  ret outputData.

Definition outgoingEdges (node : Node) : list Edge :=
  filter (fun e => source e =? id node) edges.

(** The [catch] block of [executeNode]. *)
Definition onError (node : Node) (message : string) : M unit :=
  updateNodeStatus (id node) Error JUndefined (Some message) ;;
  log ("Error in node " ++ label (data node) ++ ": " ++ message).

(** The first two statements of [executeNode]. *)
Definition enterNode (node : Node) : M unit :=
  updateNodeStatus (id node) Running JUndefined None ;;
  log ("Executing node: " ++ label (data node)
       ++ " (" ++ typeName (type node) ++ ")").

(** The body of the loop over the outgoing edges; [exec] is
    [executeNode] itself. *)
Definition visitEdge (exec : Node -> JsVal -> M unit) (outputData : JsVal)
           (edge : Edge) : M unit :=
  nextNode <- gets (fun e => find (fun n => id n =? target edge) (nodes e)) ;;
  match nextNode with
  | Some next => exec next outputData
  | None => ret tt
  end.

(** The engine once [enterNode] is through. *)
Definition entered (node : Node) (e : Engine) : Engine :=
  set_logs
    (stamped h (logs e)
       ("Executing node: " ++ label (data node)
        ++ " (" ++ typeName (type node) ++ ")"))
    (set_nodes (map (markNode (id node) Running JUndefined None) (nodes e))
               e).

(** The engine once [onError] is through. *)
Definition failed (node : Node) (message : string) (e : Engine) : Engine :=
  set_logs
    (stamped h (logs e)
       ("Error in node " ++ label (data node) ++ ": " ++ message))
    (set_nodes
       (map (markNode (id node) Error JUndefined (Some message)) (nodes e))
       e).

Fixpoint executeNode (fuel : nat) (node : Node) (inputData : JsVal)
  : M unit :=
  match fuel with
  | 0 => fun _ => Diverges
  | S fuel' =>
      enterNode node ;;
      tryCatch
        (outputData <- processNode node inputData ;;
         forEach (outgoingEdges node)
                 (visitEdge (executeNode fuel') outputData))
        (onError node)
  end.

Definition isWebhook (n : Node) : bool :=
  match type n with
  | T_webhook => true
  | _ => false
  end.

(** The reset of [run]: every node idle, without output or error. *)
Definition resetNode (n : Node) : Node :=
  with_data (with_result (Some Idle) JNull None (data n)) n.

Definition run (fuel : nat) : M unit :=
  log "Starting workflow execution..." ;;
  startNode <- gets (fun e => find isWebhook (nodes e)) ;;
  match startNode with
  | None => log "Error: No Webhook/Start trigger found."
  | Some start =>
      modify (set_variables emptyObject) ;;
      modify (fun e => set_nodes (map resetNode (nodes e)) e) ;;
      executeNode fuel start (JStr "Workflow triggered.") ;;
      log "Workflow execution finished." ;;
      vars <- gets variables ;;
      log ("Final Global Variables: "
           ++ JSON_stringify h (JArr (map JStr (Object_keys (own vars)))))
  end.
End Engine.

(** *** Ways to speak about a call *)

(** The call comes back, normally or with an error, in a state
    related to the first one by [R]. *)
Definition frame {A : Type} (R : Engine -> Engine -> Prop) (m : M A) : Prop :=
  forall e,
    match m e with
    | Returns _ e' => R e e'
    | Throws _ e' => R e e'
    | Diverges => False
    end.

(** The call never raises. *)
Definition safe {A : Type} (m : M A) : Prop :=
  forall e msg e', m e <> Throws msg e'.

(** Only the log may have grown. *)
Definition sameGraph (e e' : Engine) : Prop :=
  nodes e' = nodes e /\ variables e' = variables e.

(** Nothing is said about the state the call comes back in. *)
Definition anyState (e e' : Engine) : Prop := True.

(** Only the log and the variables may have changed. *)
Definition sameNodes (e e' : Engine) : Prop := nodes e' = nodes e.

(** How [resolveInputs] treats a list of inputs, entry by entry, with
    the log before and after. *)
Definition attempt (vars : Store) (i : NodeInput) : Result JsVal :=
  match value i with
  | JStr varName => resolveVariableValueIn vars varName
  | other => Err (trimTypeError other)
  end.

Inductive resolved (h : Host) (vars : Store)
  : list string -> list NodeInput -> list NodeInput -> list string -> Prop :=
| resolved_nil (l : list string) :
    resolved h vars l [] [] l
| resolved_file (l l' : list string) (i : NodeInput)
                (ins outs : list NodeInput) :
    input_type i = FileInput ->
    resolved h vars l ins outs l' ->
    resolved h vars l (i :: ins) (i :: outs) l'
| resolved_variable (l l' : list string) (i o : NodeInput) (v : JsVal)
                    (ins outs : list NodeInput) :
    input_type i = VariableInput ->
    attempt vars i = Ok v ->
    value o = v -> input_id o = input_id i -> input_type o = input_type i ->
    resolved h vars l ins outs l' ->
    resolved h vars l (i :: ins) (o :: outs) l'
| resolved_warning (l l' : list string) (i : NodeInput) (message : string)
                   (ins outs : list NodeInput) :
    input_type i = VariableInput ->
    attempt vars i = Err message ->
    resolved h vars
             (List.app l ["[" ++ toLocaleTimeString h (List.length l)
                          ++ "] Warning: " ++ message])
             ins outs l' ->
    resolved h vars l (i :: ins) (i :: outs) l'.

(** [new WorkflowEngine(nodes, edges, setNodes, setLogs)]. *)
Definition create (ns : list Node) : Engine :=
  {| nodes := ns; variables := emptyObject; logs := [] |}.

End WorkflowEngine.
Import WorkflowEngine.

(* ================================================================== *)
(** ** A host to run the engine on

    A JSON codec for the values the examples use (integers, strings
    without escape sequences, arrays, objects, the three literals), a
    fixed clock and a stubbed AI service. *)

Module SampleHost.

Definition quote : ascii := ascii_of_nat 34.

Definition isJsonSpace (c : ascii) : bool :=
  let n := nat_of_ascii c in
  (n =? 32)%nat || (n =? 9)%nat || (n =? 10)%nat || (n =? 13)%nat.

(** The characters of a string literal up to its closing quote. *)
Fixpoint parseChars (s : string) : option (string * string) :=
  match s with
  | EmptyString => None
  | String c t =>
      if Ascii.eqb c quote then Some (EmptyString, t)
      else if Ascii.eqb c "\" || (nat_of_ascii c <? 32)%nat then None
      else match parseChars t with
           | Some (body, rest) => Some (String c body, rest)
           | None => None
           end
  end.

Definition parseInt (s : string) : option (JsVal * string) :=
  let (neg, body) := match s with
                     | String "-" t => (true, t)
                     | _ => (false, s)
                     end in
  let ds := takeWhile isDigit body in
  let rest := dropWhile isDigit body in
  match ds with
  | EmptyString => None
  | String d more =>
      if Ascii.eqb d "0" && negb (more =? EmptyString) then None
      else match rest with
           | String "." _ | String "e" _ | String "E" _ => None
           | _ => let n := Z.of_N (digitsValue ds 0) in
                  Some (JNum (if neg then (- n)%Z else n), rest)
           end
  end.

Fixpoint parseValue (fuel : nat) (s : string) : option (JsVal * string) :=
  match fuel with
  | 0 => None
  | S f =>
      let parseMembers :=
        fix members (n : nat) (acc : Store) (s : string)
          : option (JsVal * string) :=
          match n with
          | 0 => None
          | S n' =>
              match dropWhile isJsonSpace s with
              | String q t =>
                  if Ascii.eqb q quote then
                    match parseChars t with
                    | Some (k, t1) =>
                        match dropWhile isJsonSpace t1 with
                        | String ":" t2 =>
                            match parseValue f t2 with
                            | Some (v, t3) =>
                                let acc' :=
                                  {| own := prop_set k v (own acc);
                                     proto := proto acc |} in
                                match dropWhile isJsonSpace t3 with
                                | String "," t4 => members n' acc' t4
                                | String "}" t4 => Some (JObj (own acc'), t4)
                                | _ => None
                                end
                            | None => None
                            end
                        | _ => None
                        end
                    | None => None
                    end
                  else None
              | EmptyString => None
              end
          end in
      let parseElements :=
        fix elements (n : nat) (acc : list JsVal) (s : string)
          : option (JsVal * string) :=
          match n with
          | 0 => None
          | S n' =>
              match parseValue f s with
              | Some (v, t1) =>
                  match dropWhile isJsonSpace t1 with
                  | String "," t2 => elements n' (acc ++ [v])%list t2
                  | String "]" t2 => Some (JArr (acc ++ [v])%list, t2)
                  | _ => None
                  end
              | None => None
              end
          end in
      match dropWhile isJsonSpace s with
      | String "{" t =>
          match dropWhile isJsonSpace t with
          | String "}" t' => Some (JObj [], t')
          | _ => parseMembers (String.length t) emptyObject t
          end
      | String "[" t =>
          match dropWhile isJsonSpace t with
          | String "]" t' => Some (JArr [], t')
          | _ => parseElements (String.length t) [] t
          end
      | String "t" (String "r" (String "u" (String "e" t))) =>
          Some (JBool true, t)
      | String "f" (String "a" (String "l" (String "s" (String "e" t)))) =>
          Some (JBool false, t)
      | String "n" (String "u" (String "l" (String "l" t))) =>
          Some (JNull, t)
      | String c t =>
          if Ascii.eqb c quote
          then match parseChars t with
               | Some (body, rest) => Some (JStr body, rest)
               | None => None
               end
          else parseInt (String c t)
      | EmptyString => None
      end
  end.

Definition parse (s : string) : option JsVal :=
  match parseValue (S (String.length s)) s with
  | Some (v, rest) =>
      match dropWhile isJsonSpace rest with
      | EmptyString => Some v
      | _ => None
      end
  | None => None
  end.

Definition hexDigit (n : nat) : ascii :=
  if (n <? 10)%nat then ascii_of_nat (48 + n) else ascii_of_nat (87 + n).

Definition escapeChar (c : ascii) : string :=
  let n := nat_of_ascii c in
  if Ascii.eqb c quote then String "\" (String quote EmptyString)
  else if Ascii.eqb c "\" then "\\"
  else if (n =? 8)%nat then "\b"
  else if (n =? 9)%nat then "\t"
  else if (n =? 10)%nat then "\n"
  else if (n =? 12)%nat then "\f"
  else if (n =? 13)%nat then "\r"
  else if (n <? 32)%nat
       then "\u00" ++ String (hexDigit (n / 16))
                        (String (hexDigit (n mod 16)) EmptyString)
       else String c EmptyString.

Fixpoint escape (s : string) : string :=
  match s with
  | EmptyString => EmptyString
  | String c t => escapeChar c ++ escape t
  end.

Definition quoted (s : string) : string :=
  String quote (escape s ++ String quote EmptyString).

Definition newline : string := String (ascii_of_nat 10) EmptyString.

Fixpoint spaces (n : nat) : string :=
  match n with
  | 0 => EmptyString
  | S k => String " " (spaces k)
  end.

(** [JSON.stringify(v)] for [gap = 0] and [JSON.stringify(v, null, gap)]
    otherwise; [depth] is the current nesting. *)
Fixpoint stringifyAt (gap depth : nat) (v : JsVal) : string :=
  let open := if (gap =? 0)%nat then EmptyString
              else newline ++ spaces (gap * S depth) in
  let close := if (gap =? 0)%nat then EmptyString
               else newline ++ spaces (gap * depth) in
  let colon := if (gap =? 0)%nat then ":" else ": " in
  match v with
  | JUndefined | JNull => "null"
  | JBool true => "true"
  | JBool false => "false"
  | JNum n => numToString n
  | JStr s => quoted s
  | JArr [] => "[]"
  | JArr items =>
      "[" ++ open
          ++ join ("," ++ open) (map (stringifyAt gap (S depth)) items)
          ++ close ++ "]"
  | JObj props =>
      let shown :=
        (fix members (l : list (string * JsVal)) : list string :=
           match l with
           | [] => []
           | (_, JUndefined) :: rest => members rest
           | (k, x) :: rest =>
               (quoted k ++ colon ++ stringifyAt gap (S depth) x)
                 :: members rest
           end) props in
      match shown with
      | [] => "{}"
      | _ => "{" ++ open ++ join ("," ++ open) shown ++ close ++ "}"
      end
  end.

Definition stringify (v : JsVal) : string := stringifyAt 0 0 v.
Definition stringifyIndent2 (v : JsVal) : string := stringifyAt 2 0 v.

(** A host whose AI service answers [ai]. *)
Definition host (ai : NodeData -> string -> Result JsVal) : Host :=
  {| executeAiNode := ai;
     JSON_parse := parse;
     JSON_stringify := stringify;
     JSON_stringify_indent2 := stringifyIndent2;
     Date_now := fun _ => 0%Z;
     toLocaleTimeString := fun _ => "12:00:00 PM" |}.

End SampleHost.

(* ================================================================== *)
(** ** The lookup error as the specification words it *)

Module SpecWords.

Fixpoint insertName (n : string) (l : list string) : list string :=
  match l with
  | [] => [n]
  | m :: rest => if String.leb n m then n :: l else m :: insertName n rest
  end.

(** The names in ascending order. *)
Definition sortNames (l : list string) : list string :=
  fold_right insertName [] l.

(** The requested name and the sorted list of the known names, in the
    wording of the engine's message. *)
Definition UnresolvedVariable (name : string) (known : list string)
  : string :=
  "Variable '" ++ name ++ "' not found. Available: "
  ++ join ", " (sortNames known).

End SpecWords.

(* ================================================================== *)
(** ** Concrete workflows *)

Module Scenario.
Import SampleHost.

Definition q : string := String quote EmptyString.

Definition mkData (l : string) (p : option string)
           (outVar : option string) (maps : option (list OutputMapping))
           (payload : option string) : NodeData :=
  {| label := l; description := None; prompt := p; model := None;
     inputImage := JUndefined; inputImageVariable := None; inputs := None;
     variableName := None; outputVariableName := outVar;
     outputMappings := maps; condition := None; apiUrl := None;
     apiMethod := None; webhookContentType := Some Json;
     webhookPayload := payload; webhookFormData := None;
     loopArray := None; outputValue := JUndefined; status := Some Idle;
     errorMessage := None; temperature := None; topP := None;
     topK := None; maxOutputTokens := None; jsonSchema := None |}.

Definition mkNode (i : string) (t : NodeType) (d : NodeData) : Node :=
  {| id := i; type := t; position := (0%Z, 0%Z); data := d |}.

Definition mkEdge (i s t : string) : Edge :=
  {| edge_id := i; source := s; target := t;
     sourceHandle := Some "output"; targetHandle := Some "input" |}.

(** The status a node of the engine shows. *)
Definition statusOf (i : string) (e : Engine) : option Status :=
  match find (fun n => id n =? i) (nodes e) with
  | Some n => status (data n)
  | None => None
  end.

Definition errorOf (i : string) (e : Engine) : option string :=
  match find (fun n => id n =? i) (nodes e) with
  | Some n => errorMessage (data n)
  | None => None
  end.

(** [get(name)] on the variables of an engine. *)
Definition getVariable (name : string) (e : Engine) : option JsVal :=
  prop_get name (own (variables e)).

Definition finalState (o : Outcome unit) : option Engine :=
  match o with
  | Returns _ e => Some e
  | _ => None
  end.

(** *** A trigger and one text generation *)

(** The text [{"n": 5}]. *)
Definition payload_n5 : string := "{" ++ q ++ "n" ++ q ++ ": 5}".

Definition stubAi : NodeData -> string -> Result JsVal :=
  fun _ _ => Ok (JStr "10").

(** A stub that answers only the resolved prompt. *)
Definition doublingAi : NodeData -> string -> Result JsVal :=
  fun d _ =>
    match prompt d with
    | Some p => if p =? "double 5" then Ok (JStr "10")
                else Err "unexpected prompt"
    | None => Err "unexpected prompt"
    end.

Definition trigger : Node :=
  mkNode "trigger" T_webhook
         (mkData "Trigger" None None None (Some payload_n5)).

Definition triggerMapped : Node :=
  mkNode "trigger" T_webhook
         (mkData "Trigger" None None
                 (Some [{| field := "n"; variable := "n" |}])
                 (Some payload_n5)).

Definition generate : Node :=
  mkNode "generate" T_ai_text
         (mkData "Generate" (Some "double {{n}}") (Some "result") None None).

Definition doubleEdges : list Edge := [mkEdge "e1" "trigger" "generate"].

(** *** A trigger with two branches *)

Definition failingAi : NodeData -> string -> Result JsVal :=
  fun _ _ => Err "API_KEY is missing from environment variables".

Definition nodeA : Node :=
  mkNode "A" T_ai_text (mkData "A" (Some "summarize") (Some "a") None None).

Definition nodeB : Node :=
  mkNode "B" T_api (mkData "B" None (Some "b") None None).

Definition forkNodes : list Node := [trigger; nodeA; nodeB].

Definition forkEdges : list Edge :=
  [mkEdge "e1" "trigger" "A"; mkEdge "e2" "trigger" "B"].

(** The engine when [run] has reset it and the trigger has been
    processed: the state in which the first branch is entered. *)
Definition forkStart : Engine :=
  match processNode (host failingAi) trigger (JStr "Workflow triggered.")
          (entered (host failingAi) trigger
                   (set_nodes (map resetNode forkNodes) (create forkNodes)))
  with
  | Returns _ e => e
  | _ => create forkNodes
  end.

Definition forkRank (i : string) : nat :=
  if i =? "trigger" then 1 else 0.

(** *** A payload that hides [hasOwnProperty] *)

(** The text [{"hasOwnProperty": 1}]. *)
Definition payload_shadow : string :=
  "{" ++ q ++ "hasOwnProperty" ++ q ++ ": 1}".

Definition shadowTrigger : Node :=
  mkNode "trigger" T_webhook
         (mkData "Trigger" None (Some "v")
                 (Some [{| field := "a"; variable := "b" |}])
                 (Some payload_shadow)).

(** *** A variable called [hasOwnProperty] *)

Definition namedTrigger : Node :=
  mkNode "trigger" T_webhook
         (mkData "Trigger" None (Some "hasOwnProperty") None
                 (Some payload_n5)).

Definition askUnknown : Node :=
  mkNode "generate" T_ai_text
         (mkData "Generate" (Some "tell {{zz}}") (Some "result") None None).

(** *** Stores and texts *)

(** [{ b: 1, a: 2 }], built in that order. *)
Definition store_ba : Store :=
  assign "a" (JNum 2) (assign "b" (JNum 1) emptyObject).

Definition engine_ba : Engine := set_variables store_ba (create []).

Definition sampleHost : Host := host stubAi.

Fixpoint replicate (n : nat) (c : ascii) : string :=
  match n with
  | 0 => EmptyString
  | S k => String c (replicate k c)
  end.

Definition longText : string := replicate 50001 "a".

(** *** Output mappings *)






End Scenario.

(* ================================================================== *)
(** ** Notions for the properties of the engine *)

Module Notions.

(** The call leaves the engine in a state related to the first one by
    [R], if it comes back at all. *)
Definition keeps {A : Type} (R : Engine -> Engine -> Prop) (m : M A) : Prop :=
  forall e,
    match m e with
    | Returns _ e' => R e e'
    | Throws _ e' => R e e'
    | Diverges => True
    end.

(** A node without the three fields a run writes. *)
Definition config (n : Node) : Node :=
  with_data (with_result None JUndefined None (data n)) n.

(** The graph is the same but for the marks of a run. *)
Definition sameConfig (e e' : Engine) : Prop :=
  map config (nodes e') = map config (nodes e).

(** The log has only grown. *)
Definition logGrows (e e' : Engine) : Prop :=
  exists more, logs e' = (logs e ++ more)%list.

(** Both at once. *)
Definition steady (e e' : Engine) : Prop := sameConfig e e' /\ logGrows e e'.

(** The marks a finished run leaves on a node: untouched since the
    reset, done, or failed with a message. *)
Definition settled (n : Node) : Prop :=
  match status (data n) with
  | Some Idle => outputValue (data n) = JNull /\ errorMessage (data n) = None
  | Some Success => errorMessage (data n) = None
  | Some Error => errorMessage (data n) <> None
  | _ => False
  end.

(** The variable names a node can write: its output variable and the
    variables of its mappings, trimmed. *)
Definition declared (n : Node) : list string :=
  (match outputVariableName (data n) with
   | Some name => [trim name]
   | None => []
   end
   ++ match outputMappings (data n) with
      | Some ms => map (fun m => trim (variable m)) ms
      | None => []
      end)%list.

Definition declaredBy (ns : list Node) : list string := flat_map declared ns.

(** Every variable of the engine carries one of the names [L]. *)
Definition namedWithin (L : list string) (e : Engine) : Prop :=
  forall k, In k (Object_keys (own (variables e))) -> In k L.

(** The names of the variables are those of before or among [D]. *)
Definition addsOnly (D : list string) (e e' : Engine) : Prop :=
  forall k, In k (Object_keys (own (variables e'))) ->
            In k D \/ In k (Object_keys (own (variables e))).

(** A name made of name characters only. *)
Definition plainName (name : string) : Prop :=
  name <> EmptyString /\ forallb_str isNameChar name = true.

(** The string a placeholder is replaced with. *)
Definition shown (h : Host) (val : JsVal) : string :=
  if typeofObject val then JSON_stringify h val else String_of val.

(** A text outside any placeholder, as the scan sees it. *)
Fixpoint lits (s : string) : list Segment :=
  match s with
  | EmptyString => []
  | String c t => Lit c :: lits t
  end.

(** All the strings inside a value. *)
Fixpoint stringsOf (v : JsVal) : list string :=
  match v with
  | JStr s => [s]
  | JArr items => flat_map stringsOf items
  | JObj props =>
      flat_map (fun kv : string * JsVal => let (_, x) := kv in stringsOf x)
               props
  | _ => []
  end.

(** What the replacer of [getSafeContext] guarantees of a string: at
    most 5,000 characters and the truncation marker, and no data URL
    of more than 500 characters. *)
Definition redacted (s : string) : Prop :=
  String.length s <= 5000 + 15
  /\ (startsWith "data:" s = true -> String.length s <= 500).

(** Whatever the call raises, it raises with a message. *)
Definition speaks {A : Type} (m : M A) : Prop :=
  forall e,
    match m e with
    | Throws msg _ => msg <> EmptyString
    | _ => True
    end.

(** A failed node shows a message. *)
Definition explained (n : Node) : Prop :=
  status (data n) = Some Error ->
  exists msg, errorMessage (data n) = Some msg /\ msg <> EmptyString.

(** The value of the last form field with the key [k]. *)
Fixpoint lastValue (k : string) (fields : list WebhookFormField)
  : option string :=
  match fields with
  | [] => None
  | f :: rest =>
      match lastValue k rest with
      | Some v => Some v
      | None => if key f =? k then Some (field_value f) else None
      end
  end.

End Notions.
Import Notions.

(* ================================================================== *)
(** ** [services/geminiService.ts]

    The client of the Gemini API.  The key of the environment, the
    request over the network and the JSON parser of the runtime are
    what the service takes from its surroundings.  Strings are made of
    characters below 256, on which [toUpperCase] decides the membership
    in the list of type words as its ASCII part does. *)

Module GeminiService.

(** *** More of JavaScript *)

(** The truth value of a value in a condition. *)
Definition truthyVal (v : JsVal) : bool :=
  match v with
  | JUndefined | JNull => false
  | JBool b => b
  | JNum n => negb (n =? 0)%Z
  | JStr EmptyString => false
  | _ => true
  end.

(** The line feed of a template literal. *)
Definition nl : string := String (ascii_of_nat 10) EmptyString.

Fixpoint position (c : ascii) (s : string) : option nat :=
  match s with
  | EmptyString => None
  | String d t =>
      if Ascii.eqb d c then Some 0
      else match position c t with
           | Some i => Some (S i)
           | None => None
           end
  end.

(** [s.indexOf(c)] for one character. *)
Definition indexOf (c : ascii) (s : string) : Z :=
  match position c s with
  | Some i => Z.of_nat i
  | None => (-1)%Z
  end.

(** [s.substring(from, to)]: both ends are brought into the string,
    and swapped when they come in the wrong order. *)
Definition substring (from to : Z) (s : string) : string :=
  let len := Z.of_nat (String.length s) in
  let a := Z.to_nat (Z.min (Z.max from 0) len) in
  let b := Z.to_nat (Z.min (Z.max to 0) len) in
  substring0 (Nat.max a b - Nat.min a b) (dropStr (Nat.min a b) s).

(** [s.split(sep)] for a separator of one character. *)
Fixpoint split (sep : ascii) (s : string) : list string :=
  match s with
  | EmptyString => [EmptyString]
  | String c t =>
      if Ascii.eqb c sep then EmptyString :: split sep t
      else match split sep t with
           | first :: rest => String c first :: rest
           | [] => [String c EmptyString]
           end
  end.

(** [s.includes(sub)]. *)
Fixpoint includes (sub s : string) : bool :=
  String.prefix sub s
  || match s with
     | EmptyString => false
     | String _ t => includes sub t
     end.

Definition upper (c : ascii) : ascii :=
  let n := nat_of_ascii c in
  if ((97 <=? n) && (n <=? 122))%nat then ascii_of_nat (n - 32) else c.

(** [s.toUpperCase()]. *)
Fixpoint toUpperCase (s : string) : string :=
  match s with
  | EmptyString => EmptyString
  | String c t => String (upper c) (toUpperCase t)
  end.

(** *** The helpers of the service *)

Definition extractBase64Data (dataUrl : string) : option string :=
  nth_error (split "," dataUrl) 1.

Definition extractMimeType (dataUrl : string) : string :=
  substring (indexOf ":" dataUrl + 1) (indexOf ";" dataUrl) dataUrl.

(** [v.type], as a condition. *)
Definition hasType (v : JsVal) : bool :=
  match prop_get "type" (ownProps v) with
  | Some t => truthyVal t
  | None => false
  end.

Definition typeWords : list string :=
  ["STRING"; "NUMBER"; "INTEGER"; "BOOLEAN"; "ARRAY"; "OBJECT"].

(** [{ type: t }]. *)
Definition typed (t : string) : JsVal := JObj [("type", JStr t)].

(** Case A of the loop: the schema of a type word. *)
Definition wordSchema (val : string) : JsVal :=
  let upperType := toUpperCase val in
  if existsb (String.eqb upperType) typeWords
  then typed upperType
  else typed "STRING".

(** [normalizeSchema].  On [null] and [undefined] the first line,
    [schema.type], raises a [TypeError].  The loop goes through the
    properties in the order of [Object.keys], with [properties] and
    [validSimplified] as its state.  A key [__proto__] gives
    [properties] a prototype and no property; the result holds the
    properties. *)
Fixpoint normalizeSchema (schema : JsVal) : Result JsVal :=
  match schema with
  | JNull => Err "Cannot read properties of null (reading 'type')"
  | JUndefined => Err "Cannot read properties of undefined (reading 'type')"
  | _ =>
      if hasType schema then Ok schema
      else
        match schema with
        | JObj [] => Ok schema
        | JObj props =>
            let step :=
              fun (state : Result (Store * bool)) (kv : string * JsVal) =>
                match state with
                | Err e => Err e
                | Ok (properties, validSimplified) =>
                    let (key, val) := kv in
                    match val with
                    | JStr s =>
                        Ok (assign key (wordSchema s) properties,
                            validSimplified)
                    | JObj _ | JArr _ =>
                        if hasType val
                        then Ok (assign key val properties, validSimplified)
                        else match normalizeSchema val with
                             | Ok normal =>
                                 Ok (assign key normal properties,
                                     validSimplified)
                             | Err e => Err e
                             end
                    | _ => Ok (properties, false)
                    end
                end in
            match fold_left step props (Ok (emptyObject, true)) with
            | Err e => Err e
            | Ok (properties, validSimplified) =>
                if validSimplified
                then Ok (JObj [("type", JStr "OBJECT");
                               ("properties", JObj (own properties))])
                else Ok schema
            end
        | _ => Ok schema
        end
  end.

(** What the loop stores for a value that is a string, an object or
    an array. *)
Definition propertySchema (val : JsVal) : Result JsVal :=
  match val with
  | JStr s => Ok (wordSchema s)
  | _ => normalizeSchema val
  end.

(** The values the loop accepts. *)
Definition simplified (val : JsVal) : bool :=
  match val with
  | JStr _ | JObj _ | JArr _ => true
  | _ => false
  end.

(** The body of the loop. *)
Definition loopStep (state : Result (Store * bool)) (kv : string * JsVal)
  : Result (Store * bool) :=
  match state with
  | Err e => Err e
  | Ok st =>
      if simplified (snd kv)
      then match propertySchema (snd kv) with
           | Ok normal => Ok (assign (fst kv) normal (fst st), snd st)
           | Err e => Err e
           end
      else Ok (fst st, false)
  end.

(** *** The request and the response *)

Record InlineData : Type := {
  inline_data : option string;
  inline_mimeType : string
}.

Inductive Part : Type :=
| InlinePart (inlineData : InlineData)
| TextPart (text : string).

Record Config : Type := {
  config_temperature : option Z;
  config_topP : option Z;
  config_topK : option Z;
  config_maxOutputTokens : option Z;
  responseMimeType : option string;
  responseSchema : option JsVal
}.

Record Request : Type := {
  request_model : string;
  request_parts : list Part;
  request_config : option Config
}.

(** A part of the first candidate of a response: its text, and the
    MIME type and the data of its inline data. *)
Record ResponsePart : Type := {
  part_text : option string;
  part_inlineData : option (string * string)
}.

(** What the client raises: the [message] of the error and what its
    [toString()] gives. *)
Record ApiError : Type := {
  error_message : string;
  error_toString : string
}.

Inductive Response : Type :=
| Answered (parts : option (list ResponsePart))
| Failed (error : ApiError).

Definition invalidImage : string :=
  "Input image variable must contain a valid Data URL (e.g. data:image/png;base64,...).".

Definition invalidSchema : string :=
  "Invalid JSON Schema provided. Please check JSON syntax.".

Definition tokenLimit : string :=
  "Token Limit Exceeded: The input context passed to the model is too large. Check if you are passing large images or files as text context from previous steps.".

Definition rejected (errorMessage : string) : string :=
  "API rejected the request. Please verify your JSON Schema matches the Gemini API requirements (e.g. use 'type': 'OBJECT' and no nulls). Details: "
  ++ errorMessage.

Definition missingKey : string :=
  "API_KEY is missing from environment variables".

(** [nodeData.model?.includes('image') || false]. *)
Definition isImageNode (nodeData : NodeData) : bool :=
  match model nodeData with
  | Some m => includes "image" m
  | None => false
  end.

Definition modelOf (nodeData : NodeData) : string :=
  orElse (model nodeData)
         (if isImageNode nodeData then "gemini-2.5-flash-image"
          else "gemini-2.5-flash").

Definition inlinePart (dataUrl : string) : Part :=
  InlinePart {| inline_data := extractBase64Data dataUrl;
                inline_mimeType := extractMimeType dataUrl |}.

(** Step 1: the images.  An entry that is not a data URL is only
    warned about on the console. *)
Definition inputParts (nodeData : NodeData) : Result (list Part) :=
  match inputs nodeData with
  | Some ins =>
      Ok (flat_map
            (fun input =>
               match value input with
               | JStr s => if startsWith "data:" s then [inlinePart s] else []
               | _ => []
               end)
            ins)
  | None =>
      if truthyVal (inputImage nodeData)
      then match inputImage nodeData with
           | JStr s =>
               if startsWith "data:" s then Ok [inlinePart s]
               else Err invalidImage
           | _ => Err "nodeData.inputImage.substring is not a function"
           end
      else Ok []
  end.

(** Step 2: the prompt with the context. *)
Definition finalPrompt (nodeData : NodeData) (inputContext : string)
  : string :=
  orElse (prompt nodeData) EmptyString
  ++ nl ++ nl ++ "Context from previous steps:" ++ nl ++ inputContext.

Section Service.
Variable apiKey : option string.
Variable generateContent : Request -> Response.
Variable jsonParse : string -> option JsVal.

(** Step 3, the schema: [None] without one. *)
Definition schemaOf (nodeData : NodeData) : Result (option JsVal) :=
  match jsonSchema nodeData with
  | Some (String c t) =>
      match trim (String c t) with
      | EmptyString => Ok None
      | _ =>
          match jsonParse (String c t) with
          | Some parsed =>
              match normalizeSchema parsed with
              | Ok schema => Ok (Some schema)
              | Err _ => Err invalidSchema
              end
          | None => Err invalidSchema
          end
      end
  | _ => Ok None
  end.

Definition configOf (nodeData : NodeData) (schema : option JsVal) : Config :=
  {| config_temperature := temperature nodeData;
     config_topP := topP nodeData;
     config_topK := topK nodeData;
     config_maxOutputTokens := maxOutputTokens nodeData;
     responseMimeType := match schema with
                         | Some _ => Some "application/json"
                         | None => None
                         end;
     responseSchema := schema |}.

(** [Object.keys(config).length > 0]. *)
Definition hasKeys (config : Config) : bool :=
  match config_temperature config, config_topP config, config_topK config,
        config_maxOutputTokens config, responseMimeType config with
  | None, None, None, None, None => false
  | _, _, _, _, _ => true
  end.

(** Everything up to the call: the request and the schema in it. *)
Definition buildRequest (nodeData : NodeData) (inputContext : string)
  : Result (Request * option JsVal) :=
  match inputParts nodeData with
  | Err e => Err e
  | Ok images =>
      match schemaOf nodeData with
      | Err e => Err e
      | Ok schema =>
          let config := configOf nodeData schema in
          Ok ({| request_model := modelOf nodeData;
                 request_parts :=
                   (images
                    ++ [TextPart (finalPrompt nodeData inputContext)])%list;
                 request_config :=
                   if hasKeys config then Some config else None |},
              schema)
      end
  end.

(** The loop over the parts of the first candidate: the text so far
    and the last image. *)
Definition collect (parts : option (list ResponsePart)) : string * string :=
  match parts with
  | None => (EmptyString, EmptyString)
  | Some l =>
      fold_left
        (fun (out : string * string) part =>
           let (outputText, outputImage) := out in
           (match part_text part with
            | Some (String c t) => outputText ++ String c t
            | _ => outputText
            end,
            match part_inlineData part with
            | Some (mimeType, data) =>
                "data:" ++ mimeType ++ ";base64," ++ data
            | None => outputImage
            end))
        l (EmptyString, EmptyString)
  end.

(** Step 4: the output. *)
Definition answer (nodeData : NodeData) (schema : option JsVal)
           (parts : option (list ResponsePart)) : JsVal :=
  let (outputText, outputImage) := collect parts in
  if isImageNode nodeData
  then JStr (orElse (Some outputImage)
                    (orElse (Some outputText) "No image generated."))
  else match schema with
       | Some _ =>
           match jsonParse outputText with
           | Some v => v
           | None => JStr outputText
           end
       | None => JStr (orElse (Some outputText) "No text generated.")
       end.

(** The [catch] around the call. *)
Definition apiFailure (schema : option JsVal) (error : ApiError) : string :=
  let errorMessage :=
    orElse (Some (error_message error)) (error_toString error) in
  if includes "token" errorMessage || includes "exceeds" errorMessage
  then tokenLimit
  else if includes "INVALID_ARGUMENT" errorMessage
          && match schema with
             | Some s => truthyVal s
             | None => false
             end
       then rejected errorMessage
       else orElse (Some errorMessage) "Failed to execute AI request".

Definition executeAiNode (nodeData : NodeData) (inputContext : string)
  : Result JsVal :=
  if truthy apiKey
  then match buildRequest nodeData inputContext with
       | Err e => Err e
       | Ok (request, schema) =>
           match generateContent request with
           | Answered parts => Ok (answer nodeData schema parts)
           | Failed error => Err (apiFailure schema error)
           end
       end
  else Err missingKey.

End Service.
End GeminiService.

(** The engine with the service behind it. *)
Definition serviceHost (apiKey : option string)
           (generateContent : GeminiService.Request -> GeminiService.Response)
           (h : Host) : Host :=
  {| executeAiNode :=
       GeminiService.executeAiNode apiKey generateContent (JSON_parse h);
     JSON_parse := JSON_parse h;
     JSON_stringify := JSON_stringify h;
     JSON_stringify_indent2 := JSON_stringify_indent2 h;
     Date_now := Date_now h;
     toLocaleTimeString := toLocaleTimeString h |}.

(* ================================================================== *)
(** ** [App.tsx]: the handlers and the list of variables *)

Module App.

Inductive VariableType : Type := VText | VImage | VJson | VAny.

Record VariableDefinition : Type := {
  var_name : string;
  var_type : VariableType
}.

(** [handleNodeDelete] on the nodes, the edges and the selection. *)
Definition handleNodeDelete (i : string)
           (state : list Node * list Edge * option string)
  : list Node * list Edge * option string :=
  let '(nds, eds, _) := state in
  (filter (fun n => negb (id n =? i)) nds,
   filter (fun e => negb (source e =? i) && negb (target e =? i)) eds,
   None).

(** [vars.set(k, v)] on a [Map]: a new key goes to the end, a known
    one keeps its place. *)
Definition Map_set {V : Type} (k : string) (v : V) (m : list (string * V))
  : list (string * V) :=
  if prop_has k m then prop_replace k v m else (m ++ [(k, v)])%list.

(** [s && s.trim() !== ''] *)
Definition notBlank (s : string) : bool :=
  match s with
  | EmptyString => false
  | _ => negb (trim s =? EmptyString)
  end.

(** The type of the primary output variable of a node. *)
Definition primaryType (n : Node) : VariableType :=
  match type n with
  | T_ai_image => VImage
  | T_ai_text =>
      match jsonSchema (data n) with
      | Some (String c t) =>
          if (0 <? String.length (trim (String c t)))%nat then VJson
          else VText
      | _ => VText
      end
  | T_webhook => VJson
  | T_api => VJson
  | T_loop => VAny
  | _ => VAny
  end.

(** The type inferred for the variable of a mapping. *)
Definition mappingType (n : Node) (m : OutputMapping) : VariableType :=
  match type n, webhookContentType (data n) with
  | T_webhook, Some FormData =>
      match
        match webhookFormData (data n) with
        | Some fields => find (fun f => key f =? field m) fields
        | None => None
        end
      with
      | Some formField =>
          match field_type formField with
          | FileField => VImage
          | TextField => VText
          end
      | None => VText
      end
  | T_ai_text, _ => if truthy (jsonSchema (data n)) then VText else VAny
  | _, _ => VAny
  end.

(** The body of the loop over the mappings of a node. *)
Definition addMapping (n : Node) (vars : list (string * VariableType))
           (m : OutputMapping) : list (string * VariableType) :=
  if notBlank (variable m)
  then match prop_get (variable m) vars with
       | None | Some VAny => Map_set (variable m) (mappingType n m) vars
       | Some _ => vars
       end
  else vars.

(** The body of the loop over the nodes. *)
Definition addNode (vars : list (string * VariableType)) (n : Node)
  : list (string * VariableType) :=
  let vars1 :=
    match outputVariableName (data n) with
    | Some name =>
        if notBlank name then Map_set name (primaryType n) vars else vars
    | None => vars
    end in
  match outputMappings (data n) with
  | Some ms => fold_left (addMapping n) ms vars1
  | None => vars1
  end.

Definition availableVariables (nodes : list Node) : list VariableDefinition :=
  map (fun kv : string * VariableType =>
         {| var_name := fst kv; var_type := snd kv |})
      (fold_left addNode nodes []).

(** No edge ends at a node that is not there. *)
Definition closed (nds : list Node) (eds : list Edge) : Prop :=
  forall e, In e eds ->
    In (source e) (map id nds) /\ In (target e) (map id nds).

End App.

(** ** Sample calls of the service *)

Module ServiceScenario.
Import GeminiService.

(** A client that answers with one text. *)
Definition answering (text : string) : Request -> Response :=
  fun _ => Answered (Some [{| part_text := Some text;
                              part_inlineData := None |}]).

(** A client that is out of reach. *)
Definition unreachable : Request -> Response :=
  fun _ => Failed {| error_message := "fetch failed";
                     error_toString := "TypeError: fetch failed" |}.

Definition summarize : NodeData :=
  Scenario.mkData "Summarize" (Some "Summarize this") (Some "summary")
                  None None.

(** The simplified schema [{ name: 'string', age: 'Integer',
    note: 'free text' }]. *)
Definition simpleSchema : list (string * JsVal) :=
  [("name", JStr "string"); ("age", JStr "Integer");
   ("note", JStr "free text")].

Definition pngInput : NodeInput :=
  {| input_id := "in-1"; input_type := FileInput;
     value := JStr "data:image/png;base64,aGVsbG8=" |}.

End ServiceScenario.

(* ================================================================== *)
(** * Properties *)

(** ** Strings *)

Module StringFacts.

Lemma append_nil_r (s : string) : s ++ EmptyString = s.
Proof. induction s as [|c s IH]; simpl; [reflexivity | now rewrite IH]. Qed.

Lemma append_assoc (a b c : string) : (a ++ b) ++ c = a ++ (b ++ c).
Proof. induction a as [|x a IH]; simpl; [reflexivity | now rewrite IH]. Qed.

Lemma length_append (a b : string) :
  String.length (a ++ b) = String.length a + String.length b.
Proof. induction a as [|x a IH]; simpl; [reflexivity | now rewrite IH]. Qed.

Lemma takeWhile_dropWhile (p : ascii -> bool) (s : string) :
  takeWhile p s ++ dropWhile p s = s.
Proof.
  induction s as [|c s IH]; simpl; [reflexivity|].
  destruct (p c); simpl; [now rewrite IH | reflexivity].
Qed.

Lemma forallb_takeWhile (p : ascii -> bool) (s : string) :
  forallb_str p (takeWhile p s) = true.
Proof.
  induction s as [|c s IH]; simpl; [reflexivity|].
  destruct (p c) eqn:E; simpl; [now rewrite E | reflexivity].
Qed.

Lemma forallb_append (p : ascii -> bool) (a b : string) :
  forallb_str p (a ++ b) = forallb_str p a && forallb_str p b.
Proof.
  induction a as [|c a IH]; simpl; [reflexivity|].
  now rewrite IH, andb_assoc.
Qed.

(** A run of [p]-characters in front of a text is dropped whole. *)
Lemma dropWhile_run (p : ascii -> bool) (w r : string) :
  forallb_str p w = true -> dropWhile p (w ++ r) = dropWhile p r.
Proof.
  induction w as [|c w IH]; simpl; [reflexivity|].
  intros H. apply andb_true_iff in H as [Hc Hw]. now rewrite Hc, IH.
Qed.

Lemma takeWhile_run (p : ascii -> bool) (w r : string) :
  forallb_str p w = true -> takeWhile p (w ++ r) = w ++ takeWhile p r.
Proof.
  induction w as [|c w IH]; simpl; [reflexivity|].
  intros H. apply andb_true_iff in H as [Hc Hw]. now rewrite Hc, IH.
Qed.

(** The first [n] characters of a text that has them. *)
Lemma substring0_split (n : nat) (s : string) :
  n <= String.length s ->
  exists dropped,
    s = substring0 n s ++ dropped /\ String.length (substring0 n s) = n.
Proof.
  unfold substring0. revert s.
  induction n as [|n IH]; intros s Hn.
  - exists s. destruct s; simpl; split; reflexivity.
  - destruct s as [|c s]; simpl in Hn; [lia|].
    destruct (IH s) as [d [Hs Hl]]; [lia|].
    exists d. simpl. split; [now rewrite <- Hs | now rewrite Hl].
Qed.

End StringFacts.
Import StringFacts.

(** ** The context sanitizer *)

Section Sanitizer.
Variable h : Host.

(** C6.  On a string, the context sanitizer returns the fixed
    redaction marker when the string starts with [data:], whatever
    its length; the first 50,000 characters followed by the
    truncation marker when a string without that prefix is longer
    than 50,000 characters; and the string itself otherwise. *)
Theorem getSafeContext_string (s : string) :
  (startsWith "data:" s = true ->
   getSafeContext h (JStr s)
   = "[Image Data URL - Content Omitted from Text Context]")
  /\ (startsWith "data:" s = false -> 50000 < String.length s ->
      exists kept dropped,
        s = kept ++ dropped /\ String.length kept = 50000
        /\ getSafeContext h (JStr s) = kept ++ "... [Truncated]")
  /\ (startsWith "data:" s = false -> String.length s <= 50000 ->
      getSafeContext h (JStr s) = s).
Proof.
  repeat split.
  - intros Hp. unfold getSafeContext. now rewrite Hp.
  - intros Hp Hlen. unfold getSafeContext. rewrite Hp.
    destruct (Nat.ltb_spec 50000 (String.length s)) as [_|Hle]; [|lia].
    destruct (substring0_split 50000 s) as [d [Hs Hl]]; [lia|].
    exists (substring0 50000 s), d.
    split; [assumption | split; [assumption | reflexivity]].
  - intros Hp Hlen. unfold getSafeContext. rewrite Hp.
    destruct (Nat.ltb_spec 50000 (String.length s)) as [Hlt|_];
      [lia | reflexivity].
Qed.
End Sanitizer.

Lemma getSafeContext_string_witness :
  getSafeContext (SampleHost.host Scenario.stubAi)
                 (JStr "data:image/png;base64,iVBORw0KGgo=")
  = "[Image Data URL - Content Omitted from Text Context]"
  /\ (exists kept dropped,
        Scenario.longText = kept ++ dropped /\ String.length kept = 50000
        /\ getSafeContext (SampleHost.host Scenario.stubAi)
                          (JStr Scenario.longText)
           = kept ++ "... [Truncated]")
  /\ getSafeContext (SampleHost.host Scenario.stubAi) (JStr "plain text")
     = "plain text".
Proof.
  split; [|split].
  - apply (getSafeContext_string (SampleHost.host Scenario.stubAi)).
    reflexivity.
  - apply (getSafeContext_string (SampleHost.host Scenario.stubAi)).
    + reflexivity.
    + apply Nat.ltb_lt. vm_compute. reflexivity.
  - apply (getSafeContext_string (SampleHost.host Scenario.stubAi)).
    + reflexivity.
    + apply Nat.leb_le. vm_compute. reflexivity.
Defined.

(** ** The placeholder scan *)

Module TemplateFacts.

Lemma stripPrefix_spec (p s t : string) :
  stripPrefix p s = Some t <-> s = p ++ t.
Proof.
  revert s. induction p as [|a p IH]; intros s; simpl.
  - split; intros H; [now inversion H | now subst].
  - destruct s as [|b s].
    + split; intros H; discriminate.
    + destruct (Ascii.eqb_spec a b) as [->|Hab].
      * rewrite IH. split; intros H; [now subst | now inversion H].
      * split; intros H; [discriminate | inversion H; congruence].
Qed.

Lemma forallb_str_impl (p q : ascii -> bool) (s : string) :
  (forall c, p c = true -> q c = true) ->
  forallb_str p s = true -> forallb_str q s = true.
Proof.
  intros Hpq. induction s as [|c s IH]; simpl; [reflexivity|].
  intros H. apply andb_true_iff in H as [Hc Hs].
  now rewrite (Hpq c Hc), IH.
Qed.

Lemma space_notOpen (c : ascii) : isSpace c = true -> notOpen c = true.
Proof.
  unfold notOpen. destruct (Ascii.eqb_spec c "{") as [->|]; [|reflexivity].
  intros H. vm_compute in H. discriminate.
Qed.

Lemma nameChar_notOpen (c : ascii) : isNameChar c = true -> notOpen c = true.
Proof.
  unfold notOpen. destruct (Ascii.eqb_spec c "{") as [->|]; [|reflexivity].
  intros H. vm_compute in H. discriminate.
Qed.

Lemma nameChar_not_space (c : ascii) :
  isNameChar c = true -> isSpace c = false.
Proof.
  intros H. destruct (isSpace c) eqn:E; [|reflexivity].
  exfalso. unfold isSpace in E. unfold isNameChar, isDigit in H.
  set (n := nat_of_ascii c) in *.
  repeat match goal with
         | H : _ || _ = true |- _ => apply orb_true_iff in H as [H|H]
         | H : _ && _ = true |- _ => apply andb_true_iff in H as [? ?]
         | H : (_ <=? _)%nat = true |- _ => apply Nat.leb_le in H
         | H : (_ =? _)%nat = true |- _ => apply Nat.eqb_eq in H
         end; lia.
Qed.

(** What a successful attempt of the pattern has read. *)
Lemma matchPlaceholder_sound (s name rest : string) :
  matchPlaceholder s = Some (name, rest) ->
  exists w1 w2,
    s = "{{" ++ w1 ++ name ++ w2 ++ "}}" ++ rest
    /\ forallb_str isSpace w1 = true
    /\ forallb_str isSpace w2 = true
    /\ name <> EmptyString
    /\ forallb_str isNameChar name = true.
Proof.
  unfold matchPlaceholder.
  destruct (stripPrefix "{{" s) as [t|] eqn:Ht; [|discriminate].
  apply stripPrefix_spec in Ht.
  set (t1 := dropWhile isSpace t).
  destruct (takeWhile isNameChar t1) as [|c nm] eqn:Hn; [discriminate|].
  destruct (stripPrefix "}}" (dropWhile isSpace (dropWhile isNameChar t1)))
    as [r|] eqn:Hr; [|discriminate].
  intros H. inversion H; subst name rest. clear H.
  apply stripPrefix_spec in Hr.
  exists (takeWhile isSpace t),
         (takeWhile isSpace (dropWhile isNameChar t1)).
  repeat split.
  - rewrite Ht. f_equal.
    rewrite <- Hr, takeWhile_dropWhile, <- Hn, takeWhile_dropWhile.
    unfold t1. now rewrite takeWhile_dropWhile.
  - apply forallb_takeWhile.
  - apply forallb_takeWhile.
  - discriminate.
  - rewrite <- Hn. apply forallb_takeWhile.
Qed.

Lemma dropWhile_stop (p : ascii -> bool) (c : ascii) (s : string) :
  p c = false -> dropWhile p (String c s) = String c s.
Proof. intros H. simpl. now rewrite H. Qed.

Lemma takeWhile_stop (p : ascii -> bool) (c : ascii) (s : string) :
  p c = false -> takeWhile p (String c s) = EmptyString.
Proof. intros H. simpl. now rewrite H. Qed.

(** The pattern matches wherever the described text starts. *)
Lemma matchPlaceholder_complete (w1 name w2 post : string) :
  forallb_str isSpace w1 = true ->
  forallb_str isSpace w2 = true ->
  name <> EmptyString ->
  forallb_str isNameChar name = true ->
  matchPlaceholder ("{{" ++ w1 ++ name ++ w2 ++ "}}" ++ post)
  = Some (name, post).
Proof.
  intros Hw1 Hw2 Hne Hname.
  unfold matchPlaceholder.
  replace (stripPrefix "{{" ("{{" ++ w1 ++ name ++ w2 ++ "}}" ++ post))
    with (Some (w1 ++ name ++ w2 ++ "}}" ++ post))
    by (symmetry; now apply stripPrefix_spec).
  destruct name as [|c nm]; [contradiction|].
  simpl in Hname. apply andb_true_iff in Hname as [Hc Hnm].
  assert (Hclose : forall p, (p = isSpace \/ p = isNameChar) ->
                   p "}"%char = false).
  { intros p [->| ->]; reflexivity. }
  assert (Hafter : dropWhile isNameChar (String c nm ++ w2 ++ "}}" ++ post)
                   = w2 ++ "}}" ++ post).
  { change (String c nm ++ w2 ++ "}}" ++ post)
      with (String c (nm ++ w2 ++ "}}" ++ post)).
    simpl dropWhile at 1. rewrite Hc.
    rewrite dropWhile_run by assumption.
    destruct w2 as [|d w2']; simpl.
    - reflexivity.
    - simpl in Hw2. apply andb_true_iff in Hw2 as [Hd _].
      destruct (isNameChar d) eqn:E; [|reflexivity].
      apply nameChar_not_space in E. congruence. }
  assert (Hname' : takeWhile isNameChar (String c nm ++ w2 ++ "}}" ++ post)
                   = String c nm).
  { change (String c nm ++ w2 ++ "}}" ++ post)
      with (String c (nm ++ w2 ++ "}}" ++ post)).
    simpl takeWhile at 1. rewrite Hc. f_equal.
    rewrite takeWhile_run by assumption.
    rewrite <- (append_nil_r nm) at 2. f_equal.
    destruct w2 as [|d w2']; simpl.
    - reflexivity.
    - simpl in Hw2. apply andb_true_iff in Hw2 as [Hd _].
      destruct (isNameChar d) eqn:E; [|reflexivity].
      apply nameChar_not_space in E. congruence. }
  assert (Hfront : dropWhile isSpace (w1 ++ String c nm ++ w2 ++ "}}" ++ post)
                   = String c nm ++ w2 ++ "}}" ++ post).
  { rewrite dropWhile_run by assumption.
    change (String c nm ++ w2 ++ "}}" ++ post)
      with (String c (nm ++ w2 ++ "}}" ++ post)).
    apply dropWhile_stop. now apply nameChar_not_space. }
  cbv zeta. rewrite Hfront, Hname', Hafter.
  rewrite dropWhile_run by assumption.
  change ("}}" ++ post) with (String "}" (String "}" post)).
  rewrite dropWhile_stop by reflexivity.
  reflexivity.
Qed.


(** A text without placeholders is scanned into its own characters. *)
Lemma segments_no_hole (s : string) (k : nat) :
  holes (segments k s) = [] ->
  forall (h : Host) (vars : Store),
    replaceSegments h vars (segments k s) = Ok (dropStr k s).
Proof.
  revert k. induction s as [|c t IH]; intros k Hh h vars.
  - destruct k; reflexivity.
  - destruct k as [|k]; simpl in *.
    + destruct (matchPlaceholder (String c t)) as [[name rest]|];
        [discriminate|].
      simpl in *. rewrite (IH 0 Hh h vars).
      destruct t; reflexivity.
    + apply IH, Hh.
Qed.

Lemma occursIn_cons (name : string) (c : ascii) (t : string) :
  occursIn name t -> occursIn name (String c t).
Proof.
  intros (pre & w1 & w2 & post & -> & H).
  exists (String c pre), w1, w2, post. split; [reflexivity | exact H].
Qed.

(** Every match of the scan is an occurrence of the pattern. *)
Lemma holes_occur (s : string) (k : nat) (name : string) :
  In name (holes (segments k s)) -> occursIn name s.
Proof.
  revert k. induction s as [|c t IH]; intros k Hin.
  - destruct k; contradiction.
  - destruct k as [|k]; simpl in Hin.
    + destruct (matchPlaceholder (String c t)) as [[nm rest]|] eqn:Hm.
      * destruct Hin as [<-|Hin].
        -- apply matchPlaceholder_sound in Hm
             as (w1 & w2 & Hs & Hw1 & Hw2 & Hne & Hnm).
           exists EmptyString, w1, w2, rest. now rewrite Hs.
        -- apply occursIn_cons. eapply IH, Hin.
      * apply occursIn_cons. eapply IH, Hin.
    + apply occursIn_cons. eapply IH, Hin.
Qed.

(** No opening brace pair starts inside a text without opening
    braces. *)
Lemma brace_free (B rest pre x : string) :
  forallb_str notOpen B = true ->
  B ++ rest = pre ++ "{{" ++ x ->
  String.length B <= String.length pre.
Proof.
  revert pre. induction B as [|c B IH]; intros pre HB Heq; simpl.
  - lia.
  - simpl in HB. apply andb_true_iff in HB as [Hc HB].
    destruct pre as [|p pre]; simpl in Heq.
    + inversion Heq; subst c. discriminate.
    + inversion Heq; subst. simpl. apply le_n_S. now apply IH.
Qed.

(** Matches do not overlap: a second match cannot start inside the
    text of a first one. *)
Lemma match_no_overlap (s name rest pre x : string) :
  matchPlaceholder s = Some (name, rest) ->
  s = pre ++ "{{" ++ x ->
  pre <> EmptyString ->
  String.length s - String.length rest <= String.length pre.
Proof.
  intros Hm Hs Hpre.
  apply matchPlaceholder_sound in Hm as (w1 & w2 & Hs' & Hw1 & Hw2 & Hne & Hnm).
  set (B := w1 ++ name ++ w2 ++ "}}").
  assert (HB : forallb_str notOpen B = true).
  { unfold B. rewrite !forallb_append.
    rewrite (forallb_str_impl _ _ _ space_notOpen Hw1).
    rewrite (forallb_str_impl _ _ _ nameChar_notOpen Hnm).
    rewrite (forallb_str_impl _ _ _ space_notOpen Hw2).
    reflexivity. }
  assert (HsB : s = String "{" (String "{" (B ++ rest))).
  { rewrite Hs'. unfold B. simpl. now rewrite !append_assoc. }
  assert (Hlen : String.length s = 2 + String.length B + String.length rest).
  { rewrite HsB. simpl. rewrite length_append. lia. }
  destruct pre as [|p1 pre1]; [contradiction|].
  rewrite HsB in Hs. simpl in Hs. inversion Hs as [[Hp1 Hs1]].
  destruct pre1 as [|p2 pre2]; simpl in Hs1.
  - (* the second match would start at the second brace *)
    inversion Hs1 as [Hx].
    exfalso.
    assert (HBne : exists c B', B = String c B').
    { unfold B. destruct w1 as [|c w1'].
      - destruct name as [|c nm]; [contradiction|]. simpl. eauto.
      - simpl. eauto. }
    destruct HBne as (c & B' & HBc). rewrite HBc in Hx, HB.
    simpl in Hx. inversion Hx; subst c. discriminate.
  - inversion Hs1 as [[Hp2 Hs2]].
    apply brace_free in Hs2; [|assumption]. simpl. lia.
Qed.

(** Every occurrence of the pattern is a match of the scan. *)
Lemma occur_holes (pre x name post : string) (k : nat) :
  k <= String.length pre ->
  matchPlaceholder x = Some (name, post) ->
  In name (holes (segments k (pre ++ x))).
Proof.
  revert k. induction pre as [|c pre IH]; intros k Hk Hm.
  - simpl in Hk. assert (k = 0) as -> by lia. simpl.
    destruct x as [|c t]; [discriminate|].
    simpl. rewrite Hm. simpl. now left.
  - simpl. destruct k as [|k].
    + destruct (matchPlaceholder (String c (pre ++ x)))
        as [[nm rest]|] eqn:Hm'.
      * simpl. right. apply IH; [|assumption].
        pose proof Hm as Hx.
        apply matchPlaceholder_sound in Hx as (w1 & w2 & Hx & _).
        assert (Hlen : String.length (String c (pre ++ x))
                       - String.length rest
                       <= String.length (String c pre)).
        { apply (match_no_overlap _ nm rest (String c pre)
                   (w1 ++ name ++ w2 ++ "}}" ++ post));
            [exact Hm' | now rewrite Hx | discriminate]. }
        cbn [String.length] in Hlen. lia.
      * simpl. apply IH; [lia | assumption].
    + apply IH; [simpl in Hk; lia | assumption].
Qed.

(** The matches of the scan are exactly the occurrences of the
    pattern. *)
Lemma placeholders_occursIn (text name : string) :
  In name (placeholders text) <-> occursIn name text.
Proof.
  split.
  - apply holes_occur.
  - intros (pre & w1 & w2 & post & -> & Hw1 & Hw2 & Hne & Hnm).
    apply (occur_holes pre _ name post 0); [lia|].
    now apply matchPlaceholder_complete.
Qed.

End TemplateFacts.
Import TemplateFacts.

(** ** The resolvers *)

Section Resolver.
Variable h : Host.

Lemma no_placeholders (text : string) :
  (forall name, ~ occursIn name text) -> placeholders text = [].
Proof.
  intros Hno. destruct (placeholders text) as [|n l] eqn:E; [reflexivity|].
  exfalso. apply (Hno n), placeholders_occursIn. rewrite E. now left.
Qed.

(** C5.  A text in which the placeholder pattern does not occur is
    returned by [resolveVariables] as it is, whatever the variables
    hold; the empty text and an undefined one give the empty text
    and no error. *)
Theorem resolveVariables_identity (text : string) (e : Engine) :
  ((forall name, ~ occursIn name text) ->
   resolveVariables h (Some text) e = Returns text e)
  /\ resolveVariables h (Some EmptyString) e = Returns EmptyString e
  /\ resolveVariables h None e = Returns EmptyString e.
Proof.
  split; [|split; reflexivity].
  intros Hno. apply no_placeholders in Hno.
  unfold resolveVariables, bind, gets, resolveVariablesIn.
  destruct text as [|c t]; [reflexivity|].
  now rewrite (segments_no_hole (String c t) 0 Hno).
Qed.

Lemma hasOwnProperty_false (r : string) (vars : Store) (name : string) :
  hasOwnProperty r vars name = Ok false ->
  reachesBuiltin "hasOwnProperty" vars = true
  /\ prop_has name (own vars) = false.
Proof.
  unfold hasOwnProperty.
  destruct (reachesBuiltin "hasOwnProperty" vars); [|discriminate].
  intros H. inversion H. split; reflexivity.
Qed.

(** The replacement stops at the first placeholder that names no
    variable. *)
Lemma replaceSegments_unresolved (vars : Store) (l : list Segment)
      (name : string) :
  In name (holes l) ->
  hasOwnProperty "this.variables" vars name = Ok false ->
  exists missing before after,
    holes l = (before ++ missing :: after)%list
    /\ (forall b, In b before ->
                  hasOwnProperty "this.variables" vars b = Ok true)
    /\ hasOwnProperty "this.variables" vars missing = Ok false
    /\ replaceSegments h vars l = Err (notFound missing vars).
Proof.
  intros Hin Hname.
  destruct (hasOwnProperty_false _ _ _ Hname) as [Hcall Habs].
  induction l as [|[c|x] rest IH]; simpl in *.
  - contradiction.
  - destruct (IH Hin) as (m & b & a & Hh & Hb & Hm & Hr).
    exists m, b, a. rewrite Hr. repeat split; assumption.
  - unfold substitute.
    destruct (hasOwnProperty "this.variables" vars x) as [[|]|msg] eqn:Hx.
    + destruct Hin as [->|Hin]; [congruence|].
      destruct (IH Hin) as (m & b & a & Hh & Hb & Hm & Hr).
      exists m, (x :: b), a. rewrite Hr, Hh.
      repeat split; try assumption.
      intros y [<-|Hy]; [assumption | now apply Hb].
    + exists x, [], (holes rest).
      repeat split; try assumption; try reflexivity.
      intros y [].
    + unfold hasOwnProperty in Hx. rewrite Hcall in Hx. discriminate.
Qed.

Lemma hasOwnProperty_reached (r : string) (vars : Store) (name : string) :
  reachesBuiltin "hasOwnProperty" vars = true ->
  hasOwnProperty r vars name = Ok (prop_has name (own vars)).
Proof. intros H. unfold hasOwnProperty. now rewrite H. Qed.

(** As long as nothing hides the method [hasOwnProperty] of the
    variables, a placeholder whose name they do not hold makes
    [resolveVariables] raise the not-found error of the first
    placeholder, in reading order, whose name is unknown; that error
    names the variable, the placeholders before it all resolve, and no
    string is returned, substituted in part or otherwise. *)
Lemma unresolved_unless_hidden (text name : string) (e : Engine) :
  reachesBuiltin "hasOwnProperty" (variables e) = true ->
  occursIn name text ->
  prop_has name (own (variables e)) = false ->
  exists missing before after,
    placeholders text = (before ++ missing :: after)%list
    /\ (forall b, In b before -> prop_has b (own (variables e)) = true)
    /\ occursIn missing text
    /\ prop_has missing (own (variables e)) = false
    /\ resolveVariables h (Some text) e
       = Throws ("Variable '" ++ missing ++ "' not found. Available: "
                 ++ join ", " (Object_keys (own (variables e)))) e.
Proof.
  intros Hcall Hocc Habs.
  apply placeholders_occursIn in Hocc.
  assert (Habs' : hasOwnProperty "this.variables" (variables e) name
                  = Ok false).
  { now rewrite (hasOwnProperty_reached _ _ _ Hcall), Habs. }
  destruct (replaceSegments_unresolved (variables e) _ _ Hocc Habs')
    as (m & b & a & Hh & Hb & Hm & Hr).
  exists m, b, a. repeat split; try assumption.
  - intros x Hx. specialize (Hb x Hx).
    rewrite (hasOwnProperty_reached _ _ _ Hcall) in Hb. congruence.
  - apply placeholders_occursIn. unfold placeholders.
    rewrite Hh. apply in_or_app. right. now left.
  - rewrite (hasOwnProperty_reached _ _ _ Hcall) in Hm. congruence.
  - unfold resolveVariables, bind, gets, resolveVariablesIn.
    destruct text as [|c t]; [contradiction|].
    now rewrite Hr.
Qed.

(** C3, amended.  As long as nothing hides the method
    [hasOwnProperty] of the variables (no variable of that name, no
    prototype put in its way through [__proto__]), a lookup of a name
    that the variables do not hold raises an error whose message
    carries the requested name and the known names in the key order
    of the store, which is the order of creation for ordinary names
    and not their sorted order.  The requested name of
    [resolveVariableValue] is the reference without blanks and braces
    around it; the second lookup is the one [resolveVariables] makes
    for a placeholder. *)
Theorem lookup_absent (name : string) (e : Engine) :
  reachesBuiltin "hasOwnProperty" (variables e) = true ->
  (prop_has (stripBraces (trim name)) (own (variables e)) = false ->
   resolveVariableValue name e
   = Throws ("Variable '" ++ stripBraces (trim name)
             ++ "' not found. Available: "
             ++ join ", " (Object_keys (own (variables e)))) e)
  /\ (prop_has name (own (variables e)) = false ->
      substitute h (variables e) name
      = Err ("Variable '" ++ name ++ "' not found. Available: "
             ++ join ", " (Object_keys (own (variables e)))))
  /\ (forall (k : string) (v : JsVal),
        prop_has k (own (variables e)) = false ->
        arrayIndex k = None ->
        k <> "__proto__" ->
        Object_keys (own (assign k v (variables e)))
        = (Object_keys (own (variables e)) ++ [k])%list).
Proof.
  intros Hcall. split; [|split].
  - intros Habs.
    unfold resolveVariableValue, bind, gets, resolveVariableValueIn.
    now rewrite (hasOwnProperty_reached _ _ _ Hcall), Habs.
  - intros Habs. unfold substitute.
    now rewrite (hasOwnProperty_reached _ _ _ Hcall), Habs.
  - intros k v Hfresh Hidx Hk.
    unfold assign.
    destruct (String.eqb_spec k "__proto__") as [->|_]; [contradiction|].
    cbn [andb own]. unfold prop_set. rewrite Hfresh, Hidx.
    unfold Object_keys. now rewrite map_app.
Qed.
End Resolver.

Lemma resolveVariables_identity_witness :
  (forall name, ~ occursIn name "Summarize {this} text in { { 3 } } words")
  /\ resolveVariables Scenario.sampleHost
       (Some "Summarize {this} text in { { 3 } } words") Scenario.engine_ba
     = Returns "Summarize {this} text in { { 3 } } words" Scenario.engine_ba.
Proof.
  assert (Hno : forall name,
             ~ occursIn name "Summarize {this} text in { { 3 } } words").
  { intros name H. apply placeholders_occursIn in H. exact H. }
  split; [exact Hno|].
  exact (proj1 (resolveVariables_identity Scenario.sampleHost _
                  Scenario.engine_ba) Hno).
Defined.

Lemma lookup_absent_witness :
  resolveVariableValue " {{ x }} " Scenario.engine_ba
  = Throws "Variable 'x' not found. Available: b, a" Scenario.engine_ba
  /\ substitute Scenario.sampleHost (variables Scenario.engine_ba) "x"
     = Err "Variable 'x' not found. Available: b, a"
  /\ Object_keys (own (assign "c" (JNum 3) (variables Scenario.engine_ba)))
     = ["b"; "a"; "c"].
Proof.
  destruct (lookup_absent Scenario.sampleHost " {{ x }} " Scenario.engine_ba)
    as [H1 _]; [vm_compute; reflexivity|].
  destruct (lookup_absent Scenario.sampleHost "x" Scenario.engine_ba)
    as [_ [H2 H3]]; [vm_compute; reflexivity|].
  split; [apply H1; vm_compute; reflexivity|].
  split; [apply H2; vm_compute; reflexivity|].
  apply (H3 "c" (JNum 3)); [reflexivity | reflexivity | discriminate].
Defined.

(** C3 as worded fails on the store [{ b: 1, a: 2 }]: the message of
    the failed lookup lists the names as [b, a], the sorted list is
    [a, b]. *)
Lemma lookup_absent_not_sorted :
  hasOwnProperty "this.variables" (variables Scenario.engine_ba) "x"
  = Ok false
  /\ resolveVariableValue "x" Scenario.engine_ba
     = Throws "Variable 'x' not found. Available: b, a" Scenario.engine_ba
  /\ SpecWords.UnresolvedVariable "x"
       (Object_keys (own (variables Scenario.engine_ba)))
     = "Variable 'x' not found. Available: a, b"
  /\ resolveVariableValue "x" Scenario.engine_ba
     <> Throws (SpecWords.UnresolvedVariable "x"
                  (Object_keys (own (variables Scenario.engine_ba))))
               Scenario.engine_ba.
Proof.
  repeat split; try reflexivity.
  vm_compute. intros H. discriminate H.
Qed.

(** ** The engine *)

Module EngineFacts.

Section Frames.
Variable R : Engine -> Engine -> Prop.
Hypothesis R_refl : forall e, R e e.
Hypothesis R_trans : forall a b c, R a b -> R b c -> R a c.

Lemma frame_ret {A : Type} (a : A) : frame R (ret a).
Proof. intros e. apply R_refl. Qed.

Lemma frame_throw {A : Type} (msg : string) : frame R (@throw A msg).
Proof. intros e. apply R_refl. Qed.

Lemma frame_gets {A : Type} (f : Engine -> A) : frame R (gets f).
Proof. intros e. apply R_refl. Qed.

Lemma frame_liftResult {A : Type} (r : Result A) : frame R (liftResult r).
Proof. destruct r; [apply frame_ret | apply frame_throw]. Qed.

Lemma frame_bind {A B : Type} (m : M A) (k : A -> M B) :
  frame R m -> (forall a, frame R (k a)) -> frame R (bind m k).
Proof.
  intros Hm Hk e. unfold bind. specialize (Hm e).
  destruct (m e) as [a e1|msg e1|]; [|assumption|assumption].
  specialize (Hk a e1).
  destruct (k a e1); try assumption; eapply R_trans; eassumption.
Qed.

Lemma frame_tryCatch {A : Type} (m : M A) (hd : string -> M A) :
  frame R m -> (forall msg, frame R (hd msg)) -> frame R (tryCatch m hd).
Proof.
  intros Hm Hh e. unfold tryCatch. specialize (Hm e).
  destruct (m e) as [a e1|msg e1|]; [assumption| |assumption].
  specialize (Hh msg e1).
  destruct (hd msg e1); try assumption; eapply R_trans; eassumption.
Qed.

Lemma frame_forEach {A : Type} (xs : list A) (f : A -> M unit) :
  (forall x, frame R (f x)) -> frame R (forEach xs f).
Proof.
  intros Hf. induction xs as [|x xs IH]; simpl.
  - apply frame_ret.
  - apply frame_bind; [apply Hf | intros _; apply IH].
Qed.

Lemma frame_mapM {A B : Type} (f : A -> M B) (xs : list A) :
  (forall x, frame R (f x)) -> frame R (mapM f xs).
Proof.
  intros Hf. induction xs as [|x xs IH]; simpl.
  - apply frame_ret.
  - apply frame_bind; [apply Hf | intros y].
    apply frame_bind; [apply IH | intros ys; apply frame_ret].
Qed.
End Frames.

Lemma sameGraph_refl (e : Engine) : sameGraph e e.
Proof. split; reflexivity. Qed.

Lemma sameGraph_trans (a b c : Engine) :
  sameGraph a b -> sameGraph b c -> sameGraph a c.
Proof. intros [H1 H2] [H3 H4]. split; congruence. Qed.

Lemma sameNodes_refl (e : Engine) : sameNodes e e.
Proof. reflexivity. Qed.

Lemma sameNodes_trans (a b c : Engine) :
  sameNodes a b -> sameNodes b c -> sameNodes a c.
Proof. unfold sameNodes. congruence. Qed.

Lemma frame_weaken {A : Type} (R S : Engine -> Engine -> Prop) (m : M A) :
  (forall e e', R e e' -> S e e') -> frame R m -> frame S m.
Proof.
  intros HRS Hm e. specialize (Hm e).
  destruct (m e); try assumption; now apply HRS.
Qed.

Lemma sameGraph_sameNodes (e e' : Engine) : sameGraph e e' -> sameNodes e e'.
Proof. now intros [H _]. Qed.

(** One step of a proof that a call keeps a frame. *)
Ltac frame_step R_refl R_trans :=
  match goal with
  | |- frame _ (bind _ _) => apply (frame_bind _ R_trans); [|intros ?]
  | |- frame _ (ret _) => apply (frame_ret _ R_refl)
  | |- frame _ (throw _) => apply (frame_throw _ R_refl)
  | |- frame _ (gets _) => apply (frame_gets _ R_refl)
  | |- frame _ (liftResult _) => apply (frame_liftResult _ R_refl)
  | |- frame _ (tryCatch _ _) =>
      apply (frame_tryCatch _ R_trans); [|intros ?]
  | |- frame _ (forEach _ _) => apply (frame_forEach _ R_refl R_trans); intros ?
  | |- frame _ (mapM _ _) => apply (frame_mapM _ R_refl R_trans); intros ?
  | |- frame _ (if ?b then _ else _) => destruct b
  | |- frame _ (match ?x with _ => _ end) => destruct x
  end.

Section Calls.
Variable h : Host.
Variable edges : list Edge.

Lemma log_sameGraph (message : string) : frame sameGraph (log h message).
Proof. intros e. split; reflexivity. Qed.

Lemma setVariable_sameNodes (k : string) (v : JsVal) :
  frame sameNodes (setVariable k v).
Proof. intros e. reflexivity. Qed.

Ltac graph_steps :=
  repeat first [ apply log_sameGraph
               | frame_step sameGraph_refl sameGraph_trans ].

Ltac nodes_steps :=
  repeat first [ apply setVariable_sameNodes
               | apply (frame_weaken sameGraph sameNodes _
                          sameGraph_sameNodes), log_sameGraph
               | frame_step sameNodes_refl sameNodes_trans ].

Lemma resolveVariables_sameGraph (text : option string) :
  frame sameGraph (resolveVariables h text).
Proof. unfold resolveVariables. graph_steps. Qed.

Lemma resolveVariableValue_sameGraph (varName : string) :
  frame sameGraph (resolveVariableValue varName).
Proof. unfold resolveVariableValue. graph_steps. Qed.

Lemma resolveInput_sameGraph (input : NodeInput) :
  frame sameGraph (resolveInput h input).
Proof.
  unfold resolveInput.
  graph_steps; apply resolveVariableValue_sameGraph.
Qed.

Lemma resolveInputs_sameGraph (ins : option (list NodeInput)) :
  frame sameGraph (resolveInputs h ins).
Proof.
  unfold resolveInputs. graph_steps. apply resolveInput_sameGraph.
Qed.

Lemma resolveInputImage_sameGraph (d : NodeData) :
  frame sameGraph (resolveInputImage d).
Proof.
  unfold resolveInputImage.
  graph_steps; apply resolveVariableValue_sameGraph.
Qed.

(** Resolving the fields of a node only writes the log. *)
Lemma resolveNodeData_sameGraph (d : NodeData) :
  frame sameGraph (resolveNodeData h d).
Proof.
  unfold resolveNodeData.
  graph_steps;
    first [ apply resolveVariables_sameGraph
          | apply resolveInputs_sameGraph
          | apply resolveInputImage_sameGraph ].
Qed.

(** So does the dispatch on the node type. *)
Lemma dispatch_sameGraph (t : NodeType) (d : NodeData) (inputData : JsVal) :
  frame sameGraph (dispatch h t d inputData).
Proof. unfold dispatch. destruct t; graph_steps. Qed.

Lemma storeOutputVariable_sameNodes (d : NodeData) (out : JsVal) :
  frame sameNodes (storeOutputVariable h d out).
Proof. unfold storeOutputVariable. nodes_steps. Qed.

Lemma applyMapping_sameNodes (out : JsVal) (m : OutputMapping) :
  frame sameNodes (applyMapping h out m).
Proof. unfold applyMapping. nodes_steps. Qed.

Lemma storeOutputMappings_sameNodes (d : NodeData) (out : JsVal) :
  frame sameNodes (storeOutputMappings h d out).
Proof.
  unfold storeOutputMappings. nodes_steps. apply applyMapping_sameNodes.
Qed.

(** What [resolveInput] does with one entry. *)
Lemma resolveInput_spec (i : NodeInput) (e : Engine) :
  resolveInput h i e
  = match input_type i with
    | FileInput => Returns i e
    | VariableInput =>
        match attempt (variables e) i with
        | Ok v => Returns (with_value v i) e
        | Err message =>
            Returns i (set_logs (stamped h (logs e) ("Warning: " ++ message))
                                e)
        end
    end.
Proof.
  unfold resolveInput, attempt.
  destruct (input_type i); [|reflexivity].
  cbv [tryCatch bind resolveVariableValue gets liftResult ret throw log
       modify].
  destruct (value i); try reflexivity.
  destruct (resolveVariableValueIn (variables e) s); reflexivity.
Qed.

(** C7.  [resolveInputs] never raises.  Without a list it returns
    the empty list.  With one it returns, entry by entry: a file
    entry as it is; for a variable entry whose reference resolves, an
    entry with the same identifier and type whose value is the
    resolved value; a variable entry whose resolution fails as it is,
    after the line [Warning: ] with the message of the failure, behind
    the time in brackets, has been added to the end of the log.
    Nodes and variables are left alone. *)
Theorem resolveInputs_never_fails (ins : list NodeInput) (e : Engine) :
  resolveInputs h None e = Returns [] e
  /\ exists outs e',
       resolveInputs h (Some ins) e = Returns outs e'
       /\ nodes e' = nodes e
       /\ variables e' = variables e
       /\ resolved h (variables e) (logs e) ins outs (logs e').
Proof.
  split; [reflexivity|].
  unfold resolveInputs. revert e.
  induction ins as [|i ins IH]; intros e.
  - exists [], e. repeat split. constructor.
  - cbn [mapM]. unfold bind at 1. rewrite resolveInput_spec.
    destruct (input_type i) eqn:Ht.
    + destruct (attempt (variables e) i) as [v|message] eqn:Ha.
      * destruct (IH e) as (outs & e' & Hr & Hn & Hv & Hres).
        exists (with_value v i :: outs), e'.
        unfold bind at 1. rewrite Hr. unfold ret.
        repeat split; try assumption.
        apply resolved_variable with (v := v); try assumption; reflexivity.
      * destruct (IH (set_logs (stamped h (logs e) ("Warning: " ++ message))
                               e))
          as (outs & e' & Hr & Hn & Hv & Hres).
        exists (i :: outs), e'.
        unfold bind at 1. rewrite Hr. unfold ret.
        repeat split; try assumption.
        eapply resolved_warning; eassumption.
    + destruct (IH e) as (outs & e' & Hr & Hn & Hv & Hres).
      exists (i :: outs), e'.
      unfold bind at 1. rewrite Hr. unfold ret.
      repeat split; try assumption.
      now apply resolved_file.
Qed.

Lemma prop_get_replace {V : Type} (k : string) (v : V)
      (m : list (string * V)) :
  prop_has k m = true -> prop_get k (prop_replace k v m) = Some v.
Proof.
  unfold prop_has. induction m as [|[k' v'] m IH]; simpl; [discriminate|].
  destruct (String.eqb_spec k' k) as [->|Hk]; simpl.
  - now rewrite String.eqb_refl.
  - intros H. apply String.eqb_neq in Hk. rewrite Hk. now apply IH.
Qed.

Lemma prop_get_insert_index {V : Type} (i : N) (k : string) (v : V)
      (m : list (string * V)) :
  prop_has k m = false -> prop_get k (prop_insert_index i k v m) = Some v.
Proof.
  unfold prop_has. induction m as [|[k' v'] m IH]; simpl.
  - now rewrite String.eqb_refl.
  - destruct (String.eqb_spec k' k) as [->|Hk]; [discriminate|].
    apply String.eqb_neq in Hk. intros H.
    destruct (arrayIndex k') as [j|]; [destruct (j <? i)%N|]; simpl;
      rewrite ?Hk, ?String.eqb_refl; auto.
Qed.

Lemma prop_get_append {V : Type} (k : string) (v : V)
      (m : list (string * V)) :
  prop_has k m = false -> prop_get k (m ++ [(k, v)])%list = Some v.
Proof.
  unfold prop_has. induction m as [|[k' v'] m IH]; simpl.
  - now rewrite String.eqb_refl.
  - destruct (k' =? k); [discriminate | exact IH].
Qed.

(** A property that has been set is there. *)
Lemma prop_get_set {V : Type} (k : string) (v : V) (m : list (string * V)) :
  prop_get k (prop_set k v m) = Some v.
Proof.
  unfold prop_set. destruct (prop_has k m) eqn:Hh.
  - now apply prop_get_replace.
  - destruct (arrayIndex k).
    + now apply prop_get_insert_index.
    + now apply prop_get_append.
Qed.

Lemma assign_get (k : string) (v : JsVal) (st : Store) :
  k <> "__proto__" -> prop_get k (own (assign k v st)) = Some v.
Proof.
  intros Hk. unfold assign.
  apply String.eqb_neq in Hk. rewrite Hk. simpl. apply prop_get_set.
Qed.

End Calls.

End EngineFacts.



(** ** One node and its descendants *)

Module TraversalFacts.
Import EngineFacts.

Section Traversal.
Variable h : Host.
Variable edges : list Edge.

Lemma enterNode_spec (node : Node) (e : Engine) :
  enterNode h node e = Returns tt (entered h node e).
Proof. reflexivity. Qed.

Lemma onError_spec (node : Node) (message : string) (e : Engine) :
  onError h node message e = Returns tt (failed h node message e).
Proof. reflexivity. Qed.

Lemma executeNode_unfold (fuel : nat) (node : Node) (inputData : JsVal)
      (e : Engine) :
  executeNode h edges (S fuel) node inputData e
  = tryCatch
      (outputData <- processNode h node inputData ;;
       forEach (outgoingEdges edges node)
               (visitEdge (executeNode h edges fuel) outputData))
      (onError h node) (entered h node e).
Proof. reflexivity. Qed.

(** [executeNode] never raises: its handler does not. *)
Lemma executeNode_safe (fuel : nat) (node : Node) (inputData : JsVal) :
  safe (executeNode h edges fuel node inputData).
Proof.
  intros e msg e'. destruct fuel as [|fuel]; [discriminate|].
  rewrite executeNode_unfold. unfold tryCatch.
  destruct ((outputData <- processNode h node inputData ;;
             forEach (outgoingEdges edges node)
                     (visitEdge (executeNode h edges fuel) outputData))
              (entered h node e)); discriminate.
Qed.

Lemma safe_bind {A B : Type} (m : M A) (k : A -> M B) :
  safe m -> (forall a, safe (k a)) -> safe (bind m k).
Proof.
  intros Hm Hk e msg e'. unfold bind.
  destruct (m e) as [a e1|msg1 e1|] eqn:E; [apply Hk| |discriminate].
  exfalso. exact (Hm e msg1 e1 E).
Qed.

Lemma safe_modify (f : Engine -> Engine) : safe (modify f).
Proof. intros e msg e'. discriminate. Qed.

Lemma safe_gets {A : Type} (f : Engine -> A) : safe (gets f).
Proof. intros e msg e'. discriminate. Qed.

Lemma safe_ret {A : Type} (a : A) : safe (ret a).
Proof. intros e msg e'. discriminate. Qed.

Lemma safe_forEach {A : Type} (xs : list A) (f : A -> M unit) :
  (forall x, safe (f x)) -> safe (forEach xs f).
Proof.
  intros Hf. induction xs as [|x xs IH]; simpl.
  - apply safe_ret.
  - apply safe_bind; [apply Hf | intros _; exact IH].
Qed.

Lemma visitEdge_safe (fuel : nat) (out : JsVal) (edge : Edge) :
  safe (visitEdge (executeNode h edges fuel) out edge).
Proof.
  unfold visitEdge. apply safe_bind; [apply safe_gets|].
  intros [next|]; [apply executeNode_safe | apply safe_ret].
Qed.

Lemma run_safe (fuel : nat) : safe (run h edges fuel).
Proof.
  unfold run. apply safe_bind; [apply safe_modify | intros _].
  apply safe_bind; [apply safe_gets | intros [start|]];
    [|apply safe_modify].
  repeat (apply safe_bind;
          [first [ apply safe_modify | apply safe_gets
                 | apply executeNode_safe ] | intros ?]).
  apply safe_modify.
Qed.

(** The descent raises nothing, so an error that reaches the handler
    of a node comes from the own processing of the node. *)
Lemma body_throws (fuel : nat) (node : Node) (inputData : JsVal)
      (e e1 : Engine) (msg : string) :
  (outputData <- processNode h node inputData ;;
   forEach (outgoingEdges edges node)
           (visitEdge (executeNode h edges fuel) outputData)) e
  = Throws msg e1 ->
  processNode h node inputData e = Throws msg e1.
Proof.
  unfold bind at 1.
  destruct (processNode h node inputData e) as [out e0|msg0 e0|];
    [|intros H; inversion H; reflexivity|discriminate].
  intros H. exfalso.
  exact (safe_forEach _ _ (visitEdge_safe fuel out) e0 msg e1 H).
Qed.

(** A node whose own processing raises is marked, and that is all
    its execution does after entering it. *)
Lemma executeNode_failure (fuel : nat) (node : Node) (inputData : JsVal)
      (e e1 : Engine) (msg : string) :
  processNode h node inputData (entered h node e) = Throws msg e1 ->
  executeNode h edges (S fuel) node inputData e
  = Returns tt (failed h node msg e1).
Proof.
  intros H. rewrite executeNode_unfold. unfold tryCatch, bind.
  rewrite H. apply onError_spec.
Qed.

(** Conversely, a node that processes well is marked as done and
    its edges are followed. *)
Lemma executeNode_success (fuel : nat) (node : Node) (inputData : JsVal)
      (e e1 : Engine) (out : JsVal) :
  processNode h node inputData (entered h node e) = Returns out e1 ->
  executeNode h edges (S fuel) node inputData e
  = forEach (outgoingEdges edges node)
            (visitEdge (executeNode h edges fuel) out) e1.
Proof.
  intros H. rewrite executeNode_unfold. unfold tryCatch, bind at 1.
  rewrite H.
  destruct (forEach (outgoingEdges edges node)
                    (visitEdge (executeNode h edges fuel) out) e1)
    as [[] e2|msg e2|] eqn:E; try reflexivity.
  exfalso.
  exact (safe_forEach _ _ (visitEdge_safe fuel out) e1 msg e2 E).
Qed.

Lemma anyState_refl (e : Engine) : anyState e e.
Proof. exact I. Qed.

Lemma anyState_trans (a b c : Engine) :
  anyState a b -> anyState b c -> anyState a c.
Proof. intros _ _. exact I. Qed.

Lemma frame_any {A : Type} (R : Engine -> Engine -> Prop) (m : M A) :
  frame R m -> frame anyState m.
Proof. apply frame_weaken. intros e e' _. exact I. Qed.

(** The own processing of a node comes back. *)
Lemma processNode_halts (node : Node) (inputData : JsVal) :
  frame anyState (processNode h node inputData).
Proof.
  unfold processNode.
  repeat first
    [ apply (frame_any sameGraph), resolveNodeData_sameGraph
    | apply (frame_any sameGraph), dispatch_sameGraph
    | apply (frame_any sameNodes), storeOutputVariable_sameNodes
    | apply (frame_any sameNodes), storeOutputMappings_sameNodes
    | apply (frame_any sameGraph), log_sameGraph
    | frame_step anyState_refl anyState_trans ].
  intros e. exact I.
Qed.

(** Resolution and dispatch leave nodes and variables alone. *)
Lemma resolve_dispatch_sameGraph (node : Node) (inputData : JsVal) :
  frame sameGraph
        (d <- resolveNodeData h (data node) ;;
         dispatch h (type node) d inputData).
Proof.
  apply (frame_bind _ sameGraph_trans).
  - apply resolveNodeData_sameGraph.
  - intros d. apply dispatch_sameGraph.
Qed.

(** An error of resolution or dispatch is an error of the whole
    processing. *)
Lemma processNode_throws_early (node : Node) (inputData : JsVal)
      (e e1 : Engine) (msg : string) :
  (d <- resolveNodeData h (data node) ;;
   dispatch h (type node) d inputData) e = Throws msg e1 ->
  processNode h node inputData e = Throws msg e1.
Proof.
  unfold processNode, bind.
  destruct (resolveNodeData h (data node) e) as [d e0|m0 e0|];
    [|intros H; inversion H; reflexivity|discriminate].
  destruct (dispatch h (type node) d inputData e0);
    [discriminate | intros H; inversion H; reflexivity | discriminate].
Qed.

Lemma markNode_twice (i : string) (st : Status) (err : option string)
      (ns : list Node) :
  map (markNode i st JUndefined err)
      (map (markNode i Running JUndefined None) ns)
  = map (markNode i st JUndefined err) ns.
Proof.
  rewrite map_map. apply map_ext. intros n. unfold markNode.
  destruct (id n =? i) eqn:E; simpl; rewrite E; reflexivity.
Qed.

Lemma markNode_other (i : string) (st : Status) (out : JsVal)
      (err : option string) (n : Node) :
  id n <> i -> markNode i st out err n = n.
Proof.
  intros H. unfold markNode. apply String.eqb_neq in H. now rewrite H.
Qed.

Lemma markNode_id (i : string) (st : Status) (out : JsVal)
      (err : option string) (n : Node) :
  id (markNode i st out err n) = id n.
Proof. unfold markNode. destruct (id n =? i); reflexivity. Qed.
End Traversal.

End TraversalFacts.

Module RunFacts.
Import EngineFacts TraversalFacts.

Section Run.
Variable h : Host.
Variable edges : list Edge.

Lemma forEach_returns {A : Type} (xs : list A) (f : A -> M unit) :
  (forall x, In x xs -> forall e, exists e', f x e = Returns tt e') ->
  forall e, exists e', forEach xs f e = Returns tt e'.
Proof.
  induction xs as [|x xs IH]; intros Hf e; simpl.
  - now exists e.
  - unfold bind. destruct (Hf x (or_introl eq_refl) e) as [e1 ->].
    apply IH. intros y Hy. apply Hf. now right.
Qed.

(** In a graph whose edges go down a rank, a node of rank below the
    fuel is executed to the end. *)
Lemma executeNode_halts (rank : string -> nat) :
  (forall ed, In ed edges -> rank (target ed) < rank (source ed)) ->
  forall fuel node inputData e,
    rank (id node) < fuel ->
    exists e', executeNode h edges fuel node inputData e = Returns tt e'.
Proof.
  intros Hrank. induction fuel as [|fuel IH]; intros node inputData e Hlt.
  - lia.
  - pose proof (processNode_halts h node inputData (entered h node e))
      as Hp.
    destruct (processNode h node inputData (entered h node e))
      as [out e1|msg e1|] eqn:E; [| |contradiction].
    + rewrite (executeNode_success h edges fuel node inputData e e1 out E).
      apply forEach_returns. intros ed Hin e2.
      apply filter_In in Hin as [Hin Hsrc].
      apply String.eqb_eq in Hsrc.
      unfold visitEdge, bind, gets.
      destruct (find (fun n => id n =? target ed) (nodes e2))
        as [next|] eqn:Ef.
      * apply find_some in Ef as [_ Hid]. apply String.eqb_eq in Hid.
        apply IH. specialize (Hrank ed Hin).
        rewrite Hsrc in Hrank. rewrite Hid. lia.
      * now exists e2.
    + rewrite (executeNode_failure h edges fuel node inputData e e1 msg E).
      eauto.
Qed.

Lemma failed_records (node : Node) (msg : string) (e : Engine) (n : Node) :
  In n (nodes (failed h node msg e)) -> id n = id node ->
  status (data n) = Some Error /\ errorMessage (data n) = Some msg.
Proof.
  cbn [failed nodes set_logs set_nodes]. intros Hin Hid.
  apply in_map_iff in Hin as (n0 & <- & _).
  rewrite markNode_id in Hid. unfold markNode.
  apply String.eqb_eq in Hid. rewrite Hid. split; reflexivity.
Qed.

(** C9.  [run] never raises, whatever the graph.  Without a webhook
    node it adds two lines to the log, the opening line and the line
    that no trigger was found, and leaves nodes and variables as they
    were.  With one, a run that returns is the execution of that node
    on the reset graph and the empty variables, followed by the two
    closing lines of the log.  An error raised while a node is
    processed ends the execution of that node normally, with the
    node marked as failed and the message stored on it.  And in a
    graph without cycles (its edges descend along a rank) enough
    fuel lets [run] return. *)
Theorem run_never_raises (fuel : nat) (e : Engine) :
  (forall msg e', run h edges fuel e <> Throws msg e')
  /\ (find (isWebhook) (nodes e) = None ->
      exists e',
        run h edges fuel e = Returns tt e'
        /\ nodes e' = nodes e
        /\ variables e' = variables e
        /\ logs e'
           = List.app (logs e)
               ["[" ++ toLocaleTimeString h (List.length (logs e))
                ++ "] Starting workflow execution...";
                "[" ++ toLocaleTimeString h (S (List.length (logs e)))
                ++ "] Error: No Webhook/Start trigger found."])
  /\ (forall start e',
        find isWebhook (nodes e) = Some start ->
        run h edges fuel e = Returns tt e' ->
        exists e1,
          executeNode h edges fuel start (JStr "Workflow triggered.")
            {| nodes := map resetNode (nodes e);
               variables := emptyObject;
               logs := List.app (logs e)
                         ["[" ++ toLocaleTimeString h (List.length (logs e))
                          ++ "] Starting workflow execution..."] |}
          = Returns tt e1
          /\ nodes e' = nodes e1
          /\ variables e' = variables e1
          /\ logs e'
             = List.app (logs e1)
                 ["[" ++ toLocaleTimeString h (List.length (logs e1))
                  ++ "] Workflow execution finished.";
                  "[" ++ toLocaleTimeString h (S (List.length (logs e1)))
                  ++ "] Final Global Variables: "
                  ++ JSON_stringify h
                       (JArr (map JStr (Object_keys (own (variables e1)))))])
  /\ (forall node inputData e0 e1 msg,
        processNode h node inputData (entered h node e0) = Throws msg e1 ->
        executeNode h edges (S fuel) node inputData e0
        = Returns tt (failed h node msg e1)
        /\ forall n, In n (nodes (failed h node msg e1)) ->
                     id n = id node ->
                     status (data n) = Some Error
                     /\ errorMessage (data n) = Some msg)
  /\ (forall (rank : string -> nat) (start : Node),
        (forall ed, In ed edges -> rank (target ed) < rank (source ed)) ->
        find isWebhook (nodes e) = Some start ->
        rank (id start) < fuel ->
        exists e', run h edges fuel e = Returns tt e').
Proof.
  assert (Htwo : forall (l : list string) (a b : string),
             List.app (List.app l [a]) [b] = List.app l [a; b]).
  { intros l a b. now rewrite <- app_assoc. }
  assert (Hlen : forall (l : list string) (a : string),
             List.length (List.app l [a]) = S (List.length l)).
  { intros l a. rewrite length_app. cbn. lia. }
  repeat apply conj.
  - apply run_safe.
  - intros Hnone. unfold run, bind, log, modify, gets.
    cbn [nodes set_logs]. rewrite Hnone.
    eexists. split; [reflexivity|].
    cbn [nodes variables logs set_logs]. repeat split.
    unfold stamped. now rewrite Hlen, Htwo.
  - intros start e' Hstart. unfold run, bind, log, modify, gets.
    cbn [nodes set_logs]. rewrite Hstart.
    match goal with
    | |- context [executeNode h edges fuel start ?i ?s] =>
        change s with
          {| nodes := map resetNode (nodes e);
             variables := emptyObject;
             logs := List.app (logs e)
                       ["[" ++ toLocaleTimeString h (List.length (logs e))
                        ++ "] Starting workflow execution..."] |};
        destruct (executeNode h edges fuel start i
                    {| nodes := map resetNode (nodes e);
                       variables := emptyObject;
                       logs := List.app (logs e)
                                 ["[" ++ toLocaleTimeString h
                                           (List.length (logs e))
                                  ++ "] Starting workflow execution..."] |})
          as [[] e1|msg e1|]; try discriminate
    end.
    intros Hrun. inversion Hrun. subst e'. exists e1.
    split; [reflexivity|].
    cbn [nodes variables logs set_logs]. repeat split.
    unfold stamped. now rewrite Hlen, Htwo.
  - intros node inputData e0 e1 msg Hp. split.
    + now apply executeNode_failure.
    + apply failed_records.
  - intros rank start Hrank Hstart Hlt.
    unfold run, bind, log, modify, gets.
    cbn [nodes set_logs]. rewrite Hstart.
    match goal with
    | |- context [executeNode h edges fuel start ?i ?s] =>
        destruct (executeNode_halts rank Hrank fuel start i s Hlt)
          as [e1 ->]
    end.
    eauto.
Qed.
End Run.

End RunFacts.

Lemma run_never_raises_witness :
  exists e',
    run (SampleHost.host Scenario.failingAi) Scenario.forkEdges 2
        (create Scenario.forkNodes)
    = Returns tt e'.
Proof.
  destruct (RunFacts.run_never_raises (SampleHost.host Scenario.failingAi)
              Scenario.forkEdges 2 (create Scenario.forkNodes))
    as (_ & _ & _ & _ & Hreturns).
  apply (Hreturns Scenario.forkRank Scenario.trigger).
  - intros ed [<-|[<-|[]]]; repeat constructor.
  - reflexivity.
  - repeat constructor.
Defined.

Module IsolationFacts.
Import EngineFacts TraversalFacts.

Section Isolation.
Variable h : Host.
Variable edges : list Edge.

(** C1.  When resolving or dispatching a node [N] raises, the
    execution of [N] returns normally; it marks the nodes with the
    identifier of [N] as failed, with the message, and leaves every
    other node and all variables as they were; it makes no
    recursive call, so no node below [N] runs (one level of fuel is
    enough); and the loop of a predecessor of [N] that had reached
    the edge to [N] goes on with its remaining edges, from that
    state. *)
Theorem failure_isolation (fuel : nat) (N : Node) (inputData : JsVal)
        (e e1 : Engine) (msg : string) :
  (d <- resolveNodeData h (data N) ;; dispatch h (type N) d inputData)
    (entered h N e)
  = Throws msg e1 ->
  exists e',
    executeNode h edges (S fuel) N inputData e = Returns tt e'
    /\ executeNode h edges 1 N inputData e = Returns tt e'
    /\ nodes e'
       = map (fun n => if id n =? id N
                       then with_data
                              (with_result (Some Error)
                                 (outputValue (data n)) (Some msg) (data n))
                              n
                       else n)
             (nodes e)
    /\ (forall n, In n (nodes e) -> id n <> id N -> In n (nodes e'))
    /\ variables e' = variables e
    /\ logs e'
       = stamped h (logs e1)
           ("Error in node " ++ label (data N) ++ ": " ++ msg)
    /\ (forall (edge : Edge) (rest : list Edge),
          find (fun n => id n =? target edge) (nodes e) = Some N ->
          forEach (edge :: rest)
                  (visitEdge (executeNode h edges (S fuel)) inputData) e
          = forEach rest
                    (visitEdge (executeNode h edges (S fuel)) inputData) e').
Proof.
  intros Hthrow.
  pose proof (resolve_dispatch_sameGraph h N inputData (entered h N e))
    as Hframe.
  rewrite Hthrow in Hframe. destruct Hframe as [Hn Hv].
  apply processNode_throws_early in Hthrow.
  assert (Hnodes : nodes (failed h N msg e1)
                   = map (markNode (id N) Error JUndefined (Some msg))
                         (nodes e)).
  { cbn [failed nodes set_logs set_nodes]. rewrite Hn.
    cbn [entered nodes set_logs set_nodes]. apply markNode_twice. }
  exists (failed h N msg e1). repeat apply conj.
  - now apply executeNode_failure.
  - now apply executeNode_failure.
  - rewrite Hnodes. apply map_ext. intros n. unfold markNode.
    destruct (id n =? id N); reflexivity.
  - intros n Hin Hid. rewrite Hnodes. apply in_map_iff.
    exists n. split; [now apply markNode_other | assumption].
  - cbn [failed variables set_logs set_nodes]. rewrite Hv. reflexivity.
  - reflexivity.
  - intros edge rest Hfind. cbn [forEach].
    unfold bind at 1. unfold visitEdge at 1. unfold bind at 1, gets.
    rewrite Hfind.
    now rewrite (executeNode_failure h edges fuel N inputData e e1 msg).
Qed.

Lemma storeOutputVariable_returns (d : NodeData) (out : JsVal) (e : Engine) :
  exists e', storeOutputVariable h d out e = Returns tt e'.
Proof.
  unfold storeOutputVariable.
  destruct (outputVariableName d) as [[|c t]|]; try (now exists e).
  destruct (trim (String c t)); [now exists e|].
  eexists. reflexivity.
Qed.

Lemma applyMapping_returns (out : JsVal) (m : OutputMapping) (e : Engine) :
  reachesBuiltin "hasOwnProperty" (asStore out) = true ->
  exists e', applyMapping h out m e = Returns tt e'.
Proof.
  intros Hcall. unfold applyMapping.
  destruct (field m); [now exists e|].
  destruct (variable m); [now exists e|].
  cbv [bind liftResult hasOwnProperty ret setVariable modify log].
  rewrite Hcall.
  match goal with
  | |- context [if ?b then _ else _] => destruct b
  end; eexists; reflexivity.
Qed.

Lemma storeOutputMappings_returns (d : NodeData) (out : JsVal)
      (e : Engine) :
  reachesBuiltin "hasOwnProperty" (asStore out) = true ->
  exists e', storeOutputMappings h d out e = Returns tt e'.
Proof.
  intros Hcall. unfold storeOutputMappings.
  destruct (outputMappings d) as [[|m ms]|]; try (now exists e).
  destruct (isObject out); [|eexists; reflexivity].
  apply RunFacts.forEach_returns. intros x _ e0.
  now apply applyMapping_returns.
Qed.

(** A node whose processing raises has written no variable, unless
    the error comes from a result that hides [hasOwnProperty]. *)
Lemma atomic_unless_shadowed (node : Node) (inputData : JsVal)
      (e e1 : Engine) (msg : string) :
  processNode h node inputData e = Throws msg e1 ->
  variables e1 = variables e
  \/ exists out e0,
       (d <- resolveNodeData h (data node) ;;
        dispatch h (type node) d inputData) e = Returns out e0
       /\ reachesBuiltin "hasOwnProperty" (asStore out) = false.
Proof.
  intros Hthrow.
  pose proof (resolve_dispatch_sameGraph h node inputData e) as Hframe.
  destruct ((d <- resolveNodeData h (data node) ;;
             dispatch h (type node) d inputData) e)
    as [out e0|msg0 e0|] eqn:Hrd; [| |contradiction].
  - destruct (reachesBuiltin "hasOwnProperty" (asStore out)) eqn:Hcall;
      [|right; now exists out, e0].
    exfalso. revert Hthrow. unfold processNode.
    unfold bind in Hrd. unfold bind at 1.
    destruct (resolveNodeData h (data node) e) as [d e2|m2 e2|];
      [|discriminate|discriminate].
    unfold bind at 1. rewrite Hrd.
    unfold bind at 1.
    destruct (storeOutputVariable_returns (data node) out e0) as [e3 ->].
    unfold bind at 1.
    destruct (storeOutputMappings_returns (data node) out e3 Hcall)
      as [e4 ->].
    discriminate.
  - left. apply processNode_throws_early in Hrd.
    rewrite Hrd in Hthrow. inversion Hthrow; subst.
    now destruct Hframe.
Qed.
End Isolation.

End IsolationFacts.

Lemma failure_isolation_witness :
  exists e',
    executeNode (SampleHost.host Scenario.failingAi) Scenario.forkEdges 3
                (resetNode Scenario.nodeA) (JObj [("n", JNum 5)]) Scenario.forkStart
    = Returns tt e'
    /\ Scenario.statusOf "A" e' = Some Error
    /\ Scenario.statusOf "B" e' = Scenario.statusOf "B" Scenario.forkStart
    /\ variables e' = variables Scenario.forkStart
    /\ forEach Scenario.forkEdges
         (visitEdge (executeNode (SampleHost.host Scenario.failingAi)
                                 Scenario.forkEdges 3)
                    (JObj [("n", JNum 5)]))
         Scenario.forkStart
       = forEach [Scenario.mkEdge "e2" "trigger" "B"]
           (visitEdge (executeNode (SampleHost.host Scenario.failingAi)
                                   Scenario.forkEdges 3)
                      (JObj [("n", JNum 5)]))
           e'
    /\ (exists e2,
          run (SampleHost.host Scenario.failingAi) Scenario.forkEdges 2
              (create Scenario.forkNodes) = Returns tt e2
          /\ Scenario.statusOf "trigger" e2 = Some Success
          /\ Scenario.statusOf "A" e2 = Some Error
          /\ Scenario.statusOf "B" e2 = Some Success).
Proof.
  destruct (IsolationFacts.failure_isolation
              (SampleHost.host Scenario.failingAi) Scenario.forkEdges 2
              (resetNode Scenario.nodeA) (JObj [("n", JNum 5)]) Scenario.forkStart
              (entered (SampleHost.host Scenario.failingAi) (resetNode Scenario.nodeA)
                       Scenario.forkStart)
              "API_KEY is missing from environment variables" eq_refl)
    as (e' & Hrun & _ & Hnodes & _ & Hvars & _ & Hloop).
  exists e'. split; [exact Hrun|].
  split; [unfold Scenario.statusOf; rewrite Hnodes; reflexivity|].
  split; [unfold Scenario.statusOf; rewrite Hnodes; reflexivity|].
  split; [exact Hvars|].
  split; [exact (Hloop (Scenario.mkEdge "e1" "trigger" "A")
                       [Scenario.mkEdge "e2" "trigger" "B"] eq_refl)|].
  eexists. split; [vm_compute; reflexivity|].
  repeat split; vm_compute; reflexivity.
Defined.

(** ** Whole runs *)

(** C10 fails on a trigger whose payload has a key [hasOwnProperty]:
    the output is stored under [v], then the look-up of the mapped
    field raises, and the node ends as failed with the variable
    written. *)
Theorem shadowed_result_breaks_atomicity :
  forall fuel : nat,
  exists e',
    executeNode Scenario.sampleHost [] (S fuel) Scenario.shadowTrigger
                (JStr "Workflow triggered.")
                (create [Scenario.shadowTrigger])
    = Returns tt e'
    /\ Scenario.statusOf "trigger" e' = Some Error
    /\ Scenario.errorOf "trigger" e'
       = Some "outputData.hasOwnProperty is not a function"
    /\ Scenario.getVariable "v" (create [Scenario.shadowTrigger]) = None
    /\ Scenario.getVariable "v" e' = Some (JObj [("hasOwnProperty", JNum 1)])
    /\ variables e' <> variables (create [Scenario.shadowTrigger]).
Proof.
  intros fuel. eexists.
  split; [vm_compute; reflexivity|].
  repeat split; try (vm_compute; reflexivity).
  vm_compute. intros H. discriminate H.
Qed.

(** C2 as worded fails: with the payload [{"n": 5}] and no output
    mapping on the trigger, no variable [n] exists when the prompt is
    resolved; the text node ends as failed and [result] is never
    set. *)
Lemma end_to_end_without_mapping :
  exists e',
    run Scenario.sampleHost Scenario.doubleEdges 2
        (create [Scenario.trigger; Scenario.generate])
    = Returns tt e'
    /\ Scenario.getVariable "result" e' = None
    /\ Scenario.statusOf "trigger" e' = Some Success
    /\ Scenario.statusOf "generate" e' = Some Error
    /\ Scenario.errorOf "generate" e'
       = Some "Variable 'n' not found. Available: ".
Proof.
  eexists.
  split; [vm_compute; reflexivity|].
  repeat split; vm_compute; reflexivity.
Qed.

(** C2, amended.  With the payload [{"n": 5}], an output mapping of
    the field [n] to the variable [n] on the trigger, a text node
    below it with the prompt [double {{n}}] and the output variable
    [result], and an AI service that answers ["10"] (here: only to the
    resolved prompt [double 5]), the run ends with [result] holding
    ["10"] and both nodes marked as done. *)
Theorem end_to_end_with_mapping :
  forall fuel : nat,
  exists e',
    run (SampleHost.host Scenario.doublingAi) Scenario.doubleEdges
        (S (S fuel)) (create [Scenario.triggerMapped; Scenario.generate])
    = Returns tt e'
    /\ run Scenario.sampleHost Scenario.doubleEdges
           (S (S fuel)) (create [Scenario.triggerMapped; Scenario.generate])
       = Returns tt e'
    /\ Scenario.getVariable "n" e' = Some (JNum 5)
    /\ Scenario.getVariable "result" e' = Some (JStr "10")
    /\ Scenario.statusOf "trigger" e' = Some Success
    /\ Scenario.statusOf "generate" e' = Some Success.
Proof.
  intros fuel. eexists.
  split; [vm_compute; reflexivity|].
  repeat split; vm_compute; reflexivity.
Qed.

(** C4 fails once a variable is called [hasOwnProperty].  The
    trigger stores its output under that name; the prompt of the
    next node holds the placeholder [{{zz}}], a name the variables do
    not hold; and the resolution raises, not the not-found error that
    names [zz], but the [TypeError] of calling the stored value, which
    is also the message the failed node ends with. *)
Theorem unknown_name_raises_type_error :
  exists e',
    run Scenario.sampleHost Scenario.doubleEdges 2
        (create [Scenario.namedTrigger; Scenario.askUnknown])
    = Returns tt e'
    /\ Object_keys (own (variables e')) = ["hasOwnProperty"]
    /\ placeholders "tell {{zz}}" = ["zz"]
    /\ Scenario.getVariable "zz" e' = None
    /\ resolveVariables Scenario.sampleHost (Some "tell {{zz}}") e'
       = Throws "this.variables.hasOwnProperty is not a function" e'
    /\ Scenario.statusOf "generate" e' = Some Error
    /\ Scenario.errorOf "generate" e'
       = Some "this.variables.hasOwnProperty is not a function".
Proof.
  eexists.
  split; [vm_compute; reflexivity|].
  repeat split; vm_compute; reflexivity.
Qed.

Lemma resolveInputs_never_fails_witness :
  exists outs e',
    resolveInputs Scenario.sampleHost
      (Some [{| input_id := "in-1"; input_type := VariableInput;
                value := JStr "{{ a }}" |};
             {| input_id := "in-2"; input_type := VariableInput;
                value := JStr "zz" |};
             {| input_id := "in-3"; input_type := FileInput;
                value := JStr "data:image/png;base64,aGVsbG8=" |}])
      Scenario.engine_ba
    = Returns outs e'
    /\ map value outs
       = [JNum 2; JStr "zz"; JStr "data:image/png;base64,aGVsbG8="]
    /\ map input_id outs = ["in-1"; "in-2"; "in-3"]
    /\ logs e'
       = ["[12:00:00 PM] Warning: Variable 'zz' not found. Available: b, a"]
    /\ variables e' = variables Scenario.engine_ba.
Proof.
  destruct (EngineFacts.resolveInputs_never_fails Scenario.sampleHost
              [{| input_id := "in-1"; input_type := VariableInput;
                  value := JStr "{{ a }}" |};
               {| input_id := "in-2"; input_type := VariableInput;
                  value := JStr "zz" |};
               {| input_id := "in-3"; input_type := FileInput;
                  value := JStr "data:image/png;base64,aGVsbG8=" |}]
              Scenario.engine_ba)
    as [_ (outs & e' & Hr & _ & Hv & _)].
  exists outs, e'. split; [exact Hr|].
  assert (E : Returns
                [{| input_id := "in-1"; input_type := VariableInput;
                    value := JNum 2 |};
                 {| input_id := "in-2"; input_type := VariableInput;
                    value := JStr "zz" |};
                 {| input_id := "in-3"; input_type := FileInput;
                    value := JStr "data:image/png;base64,aGVsbG8=" |}]
                (set_logs
                   ["[12:00:00 PM] Warning: Variable 'zz' not found. Available: b, a"]
                   Scenario.engine_ba)
              = Returns outs e').
  { rewrite <- Hr. vm_compute. reflexivity. }
  inversion E. subst outs e'.
  split; [reflexivity|]. split; [reflexivity|]. split; [reflexivity|].
  exact Hv.
Defined.

(** The no-break space U+00A0 is whitespace for the pattern and for
    [trim()]: a placeholder may hold it around the name, and a
    reference may be padded with it. *)
Lemma no_break_space_is_blank :
  placeholders (String "{" (String "{" (String (ascii_of_nat 160) "zz}}")))
  = ["zz"]
  /\ resolveVariables Scenario.sampleHost
       (Some (String "{" (String "{" (String (ascii_of_nat 160) "zz}} {{a}}"))))
       Scenario.engine_ba
     = Throws "Variable 'zz' not found. Available: b, a" Scenario.engine_ba
  /\ resolveVariableValue (String (ascii_of_nat 160) "a") Scenario.engine_ba
     = Returns (JNum 2) Scenario.engine_ba.
Proof. repeat split; vm_compute; reflexivity. Qed.

(* ================================================================== *)
(** * Further properties *)

(** ** The variable store *)

Module StoreFacts.
Import EngineFacts.

Lemma prop_get_replace_other {V : Type} (k k' : string) (v : V)
      (m : list (string * V)) :
  k' <> k -> prop_get k' (prop_replace k v m) = prop_get k' m.
Proof.
  intros Hk. induction m as [|[k0 v0] m IH]; simpl; [reflexivity|].
  destruct (String.eqb_spec k0 k) as [->|H0]; simpl.
  - apply not_eq_sym, String.eqb_neq in Hk. now rewrite Hk.
  - destruct (k0 =? k'); [reflexivity | exact IH].
Qed.

Lemma prop_get_insert_index_other {V : Type} (i : N) (k k' : string) (v : V)
      (m : list (string * V)) :
  k' <> k -> prop_get k' (prop_insert_index i k v m) = prop_get k' m.
Proof.
  intros Hk. apply not_eq_sym, String.eqb_neq in Hk.
  induction m as [|[k0 v0] m IH]; simpl.
  - now rewrite Hk.
  - destruct (arrayIndex k0) as [j|]; [destruct (j <? i)%N|]; simpl;
      rewrite ?Hk, ?IH; reflexivity.
Qed.

Lemma prop_get_append_other {V : Type} (k k' : string) (v : V)
      (m : list (string * V)) :
  k' <> k -> prop_get k' (m ++ [(k, v)])%list = prop_get k' m.
Proof.
  intros Hk. apply not_eq_sym, String.eqb_neq in Hk.
  induction m as [|[k0 v0] m IH]; simpl.
  - now rewrite Hk.
  - destruct (k0 =? k'); [reflexivity | exact IH].
Qed.

Lemma prop_get_set_other {V : Type} (k k' : string) (v : V)
      (m : list (string * V)) :
  k' <> k -> prop_get k' (prop_set k v m) = prop_get k' m.
Proof.
  intros Hk. unfold prop_set. destruct (prop_has k m).
  - now apply prop_get_replace_other.
  - destruct (arrayIndex k).
    + now apply prop_get_insert_index_other.
    + now apply prop_get_append_other.
Qed.

Lemma assign_get_other (k k' : string) (v : JsVal) (st : Store) :
  k' <> k -> prop_get k' (own (assign k v st)) = prop_get k' (own st).
Proof.
  intros Hk. unfold assign.
  destruct ((k =? "__proto__") && reachesBuiltin "__proto__" st).
  - destruct v; reflexivity.
  - simpl. now apply prop_get_set_other.
Qed.

Lemma prop_has_In {V : Type} (k : string) (m : list (string * V)) :
  prop_has k m = true <-> In k (Object_keys m).
Proof.
  unfold prop_has, Object_keys.
  induction m as [|[k0 v0] m IH]; simpl.
  - split; [discriminate | contradiction].
  - destruct (String.eqb_spec k0 k) as [->|Hk].
    + split; auto.
    + rewrite IH. split; [auto | intros [H|H]; [contradiction | exact H]].
Qed.

Lemma keys_replace {V : Type} (k : string) (v : V) (m : list (string * V)) :
  Object_keys (prop_replace k v m) = Object_keys m.
Proof.
  unfold Object_keys. induction m as [|[k0 v0] m IH]; simpl; [reflexivity|].
  destruct (String.eqb_spec k0 k) as [->|Hk]; simpl;
    [reflexivity | now rewrite IH].
Qed.

(** A new array index goes somewhere into the list of keys. *)
Lemma keys_insert_index {V : Type} (i : N) (k : string) (v : V)
      (m : list (string * V)) :
  exists front back,
    Object_keys m = (front ++ back)%list
    /\ Object_keys (prop_insert_index i k v m) = (front ++ k :: back)%list.
Proof.
  unfold Object_keys. induction m as [|[k0 v0] m IH]; simpl.
  - now exists [], [].
  - destruct IH as (f & b & Hm & Hi).
    destruct (arrayIndex k0) as [j|]; [destruct (j <? i)%N|]; simpl.
    + exists (k0 :: f), b. simpl. now rewrite Hm, Hi.
    + now exists [], (k0 :: map fst m).
    + now exists [], (k0 :: map fst m).
Qed.

Lemma keys_set {V : Type} (k : string) (v : V) (m : list (string * V)) :
  (prop_has k m = true /\ Object_keys (prop_set k v m) = Object_keys m)
  \/ (prop_has k m = false
      /\ exists front back,
           Object_keys m = (front ++ back)%list
           /\ Object_keys (prop_set k v m) = (front ++ k :: back)%list).
Proof.
  unfold prop_set. destruct (prop_has k m) eqn:Hh.
  - left. split; [reflexivity | apply keys_replace].
  - right. split; [reflexivity|].
    destruct (arrayIndex k).
    + apply keys_insert_index.
    + exists (Object_keys m), []. unfold Object_keys.
      rewrite map_app, app_nil_r. split; reflexivity.
Qed.

(** X1.  The store is a map in which the last writer wins: an
    assignment leaves the value of every other name as it was and
    never makes a name appear twice among the keys; and unless the
    name is [__proto__], the assigned value is the one read back. *)
Theorem assign_is_map_update (k : string) (v : JsVal) (st : Store) :
  (forall k', k' <> k ->
              prop_get k' (own (assign k v st)) = prop_get k' (own st))
  /\ (NoDup (Object_keys (own st)) ->
      NoDup (Object_keys (own (assign k v st))))
  /\ (k <> "__proto__" -> prop_get k (own (assign k v st)) = Some v).
Proof.
  repeat apply conj.
  - intros k' Hk. now apply assign_get_other.
  - intros Hnd. unfold assign.
    destruct ((k =? "__proto__") && reachesBuiltin "__proto__" st).
    + destruct v; exact Hnd.
    + cbn [own].
      destruct (keys_set k v (own st)) as [[_ ->]|[Hh (f & b & Hm & ->)]];
        [exact Hnd|].
      apply (NoDup_Add (Add_app k f b)). split.
      * now rewrite <- Hm.
      * intros Hin. rewrite <- Hm in Hin.
        apply prop_has_In in Hin. congruence.
  - apply assign_get.
Qed.

End StoreFacts.

(** ** References to variables *)

Module ReferenceFacts.
Import EngineFacts StoreFacts.

Lemma dropWhileEnd_last (p : ascii -> bool) (y : string) (c : ascii) :
  p c = false ->
  dropWhileEnd p (y ++ String c EmptyString) = y ++ String c EmptyString.
Proof.
  intros Hc. induction y as [|a y IH]; simpl.
  - now rewrite Hc.
  - rewrite IH. destruct (y ++ String c EmptyString) eqn:E; [|reflexivity].
    destruct y; discriminate.
Qed.

Lemma dropWhileEnd_run (p : ascii -> bool) (x w : string) :
  forallb_str p w = true -> dropWhileEnd p (x ++ w) = dropWhileEnd p x.
Proof.
  intros Hw. induction x as [|a x IH]; simpl.
  - induction w as [|b w IHw]; simpl; [reflexivity|].
    simpl in Hw. apply andb_true_iff in Hw as [Hb Hw].
    now rewrite (IHw Hw), Hb.
  - now rewrite IH.
Qed.

(** A non-empty text ends with a last character. *)
Lemma last_char (s : string) :
  s <> EmptyString -> exists y c, s = y ++ String c EmptyString.
Proof.
  induction s as [|a s IH]; [contradiction|]. intros _.
  destruct s as [|b s].
  - now exists EmptyString, a.
  - destruct IH as (y & c & Hs); [discriminate|].
    exists (String a y), c. simpl. now rewrite Hs.
Qed.

Lemma plainName_ends (name : string) :
  plainName name ->
  exists y c, name = y ++ String c EmptyString /\ isNameChar c = true.
Proof.
  intros [Hne Hall]. destruct (last_char name Hne) as (y & c & Hs).
  exists y, c. split; [exact Hs|].
  rewrite Hs, forallb_append in Hall.
  apply andb_true_iff in Hall as [_ Hc]. simpl in Hc.
  now rewrite andb_true_r in Hc.
Qed.

Lemma plainName_starts (name : string) :
  plainName name ->
  exists c t, name = String c t /\ isNameChar c = true.
Proof.
  intros [Hne Hall]. destruct name as [|c t]; [contradiction|].
  exists c, t. simpl in Hall. apply andb_true_iff in Hall as [Hc _]. auto.
Qed.

(** Blanks around a text that neither starts nor ends with one are
    what [trim] removes. *)
Lemma trim_around (w0 w3 x : string) (c d : ascii) (y t : string) :
  forallb_str isSpace w0 = true -> forallb_str isSpace w3 = true ->
  x = String c t -> x = y ++ String d EmptyString ->
  isSpace c = false -> isSpace d = false ->
  trim (w0 ++ x ++ w3) = x.
Proof.
  intros H0 H3 Hs He Hc Hd. unfold trim.
  rewrite dropWhile_run by assumption.
  assert (Hfront : dropWhile isSpace (x ++ w3) = x ++ w3).
  { rewrite Hs. simpl. now rewrite Hc. }
  rewrite Hfront, dropWhileEnd_run by assumption.
  rewrite He. now apply dropWhileEnd_last.
Qed.

Lemma endsWith_append (p a : string) : endsWith p (a ++ p) = true.
Proof.
  induction a as [|c a IH].
  - cbn [append]. destruct p as [|a p]; [reflexivity|].
    change (endsWith (String a p) (String a p))
      with ((String a p =? String a p) || endsWith (String a p) p).
    now rewrite String.eqb_refl.
  - change (endsWith p (String c a ++ p))
      with ((String c (a ++ p) =? p) || endsWith p (a ++ p)).
    rewrite IH. apply orb_true_r.
Qed.

Lemma endsWith_split (p s : string) :
  endsWith p s = true -> exists a, s = a ++ p.
Proof.
  induction s as [|c s IH].
  - simpl. destruct p; [now exists EmptyString | discriminate].
  - change (endsWith p (String c s))
      with ((String c s =? p) || endsWith p s).
    intros H. apply orb_true_iff in H as [H|H].
    + apply String.eqb_eq in H. now exists EmptyString.
    + destruct (IH H) as [a ->]. now exists (String c a).
Qed.

Lemma substring0_append (a b : string) :
  substring0 (String.length a) (a ++ b) = a.
Proof.
  unfold substring0. induction a as [|c a IH]; simpl.
  - destruct b; reflexivity.
  - now rewrite IH.
Qed.

Lemma stripPrefix_none_nameChar (c : ascii) (t : string) :
  isNameChar c = true -> stripPrefix "{{" (String c t) = None.
Proof.
  intros Hc. cbn [stripPrefix].
  destruct (Ascii.eqb_spec "{" c) as [<-|_];
    [vm_compute in Hc; discriminate | reflexivity].
Qed.

(** The braces and blanks around a plain name are what
    [stripBraces] removes, and a bare plain name is left alone. *)
Lemma stripBraces_braced (w1 w2 name : string) :
  forallb_str isSpace w1 = true -> forallb_str isSpace w2 = true ->
  plainName name ->
  stripBraces ("{{" ++ w1 ++ name ++ w2 ++ "}}") = name.
Proof.
  intros H1 H2 Hname.
  destruct (plainName_starts name Hname) as (c & t & Hs & Hc).
  destruct (plainName_ends name Hname) as (y & d & He & Hd).
  unfold stripBraces.
  replace (stripPrefix "{{" ("{{" ++ w1 ++ name ++ w2 ++ "}}"))
    with (Some (w1 ++ name ++ w2 ++ "}}"))
    by (symmetry; now apply stripPrefix_spec).
  rewrite dropWhile_run by assumption.
  assert (Hfront : dropWhile isSpace (name ++ w2 ++ "}}") = name ++ w2 ++ "}}").
  { rewrite Hs. simpl. now rewrite (nameChar_not_space c Hc). }
  rewrite Hfront.
  replace (name ++ w2 ++ "}}") with ((name ++ w2) ++ "}}")
    by apply append_assoc.
  rewrite endsWith_append, length_append.
  replace (String.length (name ++ w2) + String.length "}}" - 2)
    with (String.length (name ++ w2)) by (simpl; lia).
  rewrite substring0_append, dropWhileEnd_run by assumption.
  rewrite He. apply dropWhileEnd_last. now apply nameChar_not_space.
Qed.

Lemma stripBraces_bare (name : string) :
  plainName name -> stripBraces name = name.
Proof.
  intros Hname.
  destruct (plainName_starts name Hname) as (c & t & Hs & Hc).
  unfold stripBraces.
  replace (stripPrefix "{{" name) with (@None string)
    by (rewrite Hs; symmetry; now apply stripPrefix_none_nameChar).
  destruct (endsWith "}}" name) eqn:E; [|reflexivity].
  exfalso. apply endsWith_split in E as [a Ha].
  destruct Hname as [_ Hall]. rewrite Ha, forallb_append in Hall.
  apply andb_true_iff in Hall as [_ Hall]. discriminate Hall.
Qed.

(** X2.  A reference to a variable may be written bare or as a
    placeholder, with blanks anywhere around the name and the braces:
    [resolveVariableValue] looks up the same plain name for all these
    spellings. *)
Theorem reference_spellings (w0 w1 w2 w3 name : string) (e : Engine) :
  forallb_str isSpace w0 = true -> forallb_str isSpace w1 = true ->
  forallb_str isSpace w2 = true -> forallb_str isSpace w3 = true ->
  plainName name ->
  resolveVariableValue (w0 ++ "{{" ++ w1 ++ name ++ w2 ++ "}}" ++ w3) e
  = resolveVariableValue name e
  /\ resolveVariableValue (w0 ++ name ++ w3) e = resolveVariableValue name e.
Proof.
  intros H0 H1 H2 H3 Hname.
  destruct (plainName_starts name Hname) as (c & t & Hs & Hc).
  destruct (plainName_ends name Hname) as (y & d & He & Hd).
  assert (Hbare : stripBraces (trim name) = name).
  { replace (trim name) with name; [now apply stripBraces_bare|].
    symmetry.
    apply (trim_around EmptyString EmptyString name c d y t) in Hs;
      try assumption; try reflexivity; try now apply nameChar_not_space.
    now rewrite append_nil_r in Hs. }
  unfold resolveVariableValue, bind, gets, resolveVariableValueIn.
  rewrite Hbare. split.
  - replace (w0 ++ "{{" ++ w1 ++ name ++ w2 ++ "}}" ++ w3)
      with (w0 ++ ("{{" ++ w1 ++ name ++ w2 ++ "}}") ++ w3)
      by (simpl; now rewrite !append_assoc).
    rewrite (trim_around w0 w3 ("{{" ++ w1 ++ name ++ w2 ++ "}}") "{" "}"
               ("{{" ++ w1 ++ name ++ w2 ++ "}")
               ("{" ++ w1 ++ name ++ w2 ++ "}}"));
      try assumption; try reflexivity.
    + now rewrite stripBraces_braced.
    + simpl. f_equal. f_equal. rewrite !append_assoc. reflexivity.
  - rewrite (trim_around w0 w3 name c d y t); try assumption;
      try now apply nameChar_not_space.
    now rewrite stripBraces_bare.
Qed.

End ReferenceFacts.

Lemma reference_spellings_witness :
  resolveVariableValue "  {{ a }} " Scenario.engine_ba
  = resolveVariableValue "a" Scenario.engine_ba
  /\ resolveVariableValue " a  " Scenario.engine_ba
     = resolveVariableValue "a" Scenario.engine_ba.
Proof.
  apply (ReferenceFacts.reference_spellings "  " " " " " " " "a"
           Scenario.engine_ba); try reflexivity.
  split; [discriminate | reflexivity].
Defined.

(** ** Writing a variable and reading it back *)

Module SubstitutionFacts.
Import EngineFacts StoreFacts ReferenceFacts.

Section Substitution.
Variable h : Host.

Lemma segments_past_end (s : string) (k : nat) :
  String.length s <= k -> segments k s = [].
Proof.
  revert k. induction s as [|c t IH]; intros k Hk; [reflexivity|].
  simpl in Hk. destruct k as [|k]; [lia|]. simpl. apply IH. lia.
Qed.

Lemma segments_skip (m rest : string) :
  segments (String.length m) (m ++ rest) = segments 0 rest.
Proof. induction m as [|c m IH]; [reflexivity | exact IH]. Qed.

(** The scan resumes right after a match. *)
Lemma segments_match (s name rest : string) :
  matchPlaceholder s = Some (name, rest) ->
  segments 0 s = Hole name :: segments 0 rest.
Proof.
  intros Hm. pose proof Hm as Hsound.
  apply matchPlaceholder_sound in Hsound as (w1 & w2 & Hs & _).
  destruct s as [|c t]; [discriminate|].
  cbn [segments]. rewrite Hm. f_equal.
  set (m := "{" ++ w1 ++ name ++ w2 ++ "}}").
  assert (Ht : t = m ++ rest).
  { unfold m. simpl in Hs. inversion Hs. simpl.
    now rewrite !append_assoc. }
  rewrite Ht, length_append.
  replace (String.length m + String.length rest - String.length rest)
    with (String.length m) by lia.
  apply segments_skip.
Qed.

Lemma segments_lits (pre x : string) :
  forallb_str notOpen pre = true ->
  segments 0 (pre ++ x) = (lits pre ++ segments 0 x)%list.
Proof.
  induction pre as [|c pre IH]; intros Hpre; [reflexivity|].
  simpl in Hpre. apply andb_true_iff in Hpre as [Hc Hpre].
  change (String c pre ++ x) with (String c (pre ++ x)).
  cbn [segments].
  assert (Hno : matchPlaceholder (String c (pre ++ x)) = None).
  { unfold matchPlaceholder. cbn [stripPrefix].
    unfold notOpen in Hc. rewrite Ascii.eqb_sym in Hc.
    destruct (Ascii.eqb "{" c); [discriminate | reflexivity]. }
  rewrite Hno. simpl. now rewrite IH.
Qed.

Lemma replaceSegments_app (vars : Store) (a b : list Segment) (ra rb : string) :
  replaceSegments h vars a = Ok ra ->
  replaceSegments h vars b = Ok rb ->
  replaceSegments h vars (a ++ b) = Ok (ra ++ rb).
Proof.
  revert ra. induction a as [|[c|n] a IH]; intros ra Ha Hb; simpl in *.
  - now inversion Ha.
  - destruct (replaceSegments h vars a) as [r|]; [|discriminate].
    inversion Ha. now rewrite (IH r eq_refl Hb).
  - destruct (substitute h vars n) as [v|]; [|discriminate].
    destruct (replaceSegments h vars a) as [r|]; [|discriminate].
    inversion Ha. rewrite (IH r eq_refl Hb). now rewrite append_assoc.
Qed.

Lemma replaceSegments_lits (vars : Store) (s : string) :
  replaceSegments h vars (lits s) = Ok s.
Proof. induction s as [|c s IH]; simpl; [reflexivity | now rewrite IH]. Qed.

Lemma substitute_known (vars : Store) (name : string) (v : JsVal) :
  reachesBuiltin "hasOwnProperty" vars = true ->
  prop_get name (own vars) = Some v ->
  substitute h vars name = Ok (shown h v).
Proof.
  intros Hcall Hget. unfold substitute, hasOwnProperty, prop_has.
  now rewrite Hcall, Hget.
Qed.

(** One placeholder between two texts without an opening brace. *)
Lemma replace_one (pre w1 name w2 post : string) (v : JsVal)
      (e : Engine) :
  forallb_str notOpen pre = true -> forallb_str notOpen post = true ->
  forallb_str isSpace w1 = true -> forallb_str isSpace w2 = true ->
  plainName name ->
  reachesBuiltin "hasOwnProperty" (variables e) = true ->
  prop_get name (own (variables e)) = Some v ->
  resolveVariables h (Some (pre ++ "{{" ++ w1 ++ name ++ w2 ++ "}}" ++ post)) e
  = Returns (pre ++ (if typeofObject v then JSON_stringify h v
                     else String_of v) ++ post) e.
Proof.
  intros Hpre Hpost H1 H2 [Hne Hname] Hcall Hget.
  assert (Hsegs : segments 0 (pre ++ "{{" ++ w1 ++ name ++ w2 ++ "}}" ++ post)
                  = (lits pre ++ Hole name :: lits post)%list).
  { rewrite segments_lits by assumption. f_equal.
    rewrite (segments_match _ name post)
      by now apply matchPlaceholder_complete.
    f_equal. rewrite <- (append_nil_r post) at 1.
    rewrite segments_lits by assumption. apply app_nil_r. }
  assert (Hres : replaceSegments h (variables e)
                   (lits pre ++ Hole name :: lits post)
                 = Ok (pre ++ shown h v ++ post)).
  { apply replaceSegments_app; [apply replaceSegments_lits|].
    cbn [replaceSegments].
    now rewrite (substitute_known _ _ v Hcall Hget), replaceSegments_lits. }
  unfold resolveVariables, bind, gets, resolveVariablesIn.
  destruct (pre ++ "{{" ++ w1 ++ name ++ w2 ++ "}}" ++ post) eqn:E.
  - destruct pre; discriminate.
  - rewrite Hsegs, Hres. reflexivity.
Qed.

(** X3.  As long as nothing hides the method [hasOwnProperty] of
    the variables, a placeholder between two texts that contain no
    opening brace is replaced by the string form of its variable, the
    JSON text for an object, an array or [null], and the two texts
    are kept as they are. *)
Theorem placeholder_is_replaced (pre w1 name w2 post : string) (v : JsVal)
        (e : Engine) :
  forallb_str notOpen pre = true -> forallb_str notOpen post = true ->
  forallb_str isSpace w1 = true -> forallb_str isSpace w2 = true ->
  plainName name ->
  reachesBuiltin "hasOwnProperty" (variables e) = true ->
  prop_get name (own (variables e)) = Some v ->
  resolveVariables h (Some (pre ++ "{{" ++ w1 ++ name ++ w2 ++ "}}" ++ post)) e
  = Returns (pre ++ (if typeofObject v then JSON_stringify h v
                     else String_of v) ++ post) e.
Proof. exact (replace_one pre w1 name w2 post v e). Qed.

(** When every placeholder names a variable, the replacement goes
    through. *)
Lemma replaceSegments_known (vars : Store) (l : list Segment) :
  reachesBuiltin "hasOwnProperty" vars = true ->
  (forall n, In n (holes l) -> prop_has n (own vars) = true) ->
  exists s, replaceSegments h vars l = Ok s.
Proof.
  intros Hcall. induction l as [|[c|n] l IH]; intros Hall; simpl.
  - eauto.
  - destruct (IH Hall) as [s ->]. eauto.
  - unfold substitute, hasOwnProperty. rewrite Hcall.
    rewrite (Hall n (or_introl eq_refl)).
    destruct IH as [s ->]; [|eauto].
    intros m Hm. apply Hall. now right.
Qed.

(** X4.  On a store whose look-up works, [resolveVariables] returns
    a text exactly when every placeholder of the text names a variable
    of the store. *)
Theorem resolves_iff_known (text : string) (e : Engine) :
  reachesBuiltin "hasOwnProperty" (variables e) = true ->
  ((forall n, occursIn n text -> prop_has n (own (variables e)) = true)
   <-> exists s, resolveVariables h (Some text) e = Returns s e).
Proof.
  intros Hcall. split.
  - intros Hall.
    unfold resolveVariables, bind, gets, resolveVariablesIn.
    destruct text as [|c t]; [now exists EmptyString|].
    destruct (replaceSegments_known (variables e)
                (segments 0 (String c t)) Hcall) as [s Hs].
    + intros n Hn. apply Hall. now apply placeholders_occursIn.
    + rewrite Hs. now exists s.
  - intros [s Hs] n Hocc.
    destruct (prop_has n (own (variables e))) eqn:Hn; [reflexivity|].
    exfalso.
    assert (Habs : hasOwnProperty "this.variables" (variables e) n = Ok false).
    { unfold hasOwnProperty. now rewrite Hcall, Hn. }
    apply placeholders_occursIn in Hocc.
    destruct (replaceSegments_unresolved h (variables e) _ _ Hocc Habs)
      as (m & b & a & _ & _ & _ & Hr).
    revert Hs. unfold resolveVariables, bind, gets, resolveVariablesIn.
    destruct text as [|c t]; [contradiction|].
    unfold placeholders in Hr. rewrite Hr. discriminate.
Qed.

(** X5.  A node's output variable can be read back: once
    [storeOutputVariable] has stored an output under a plain name
    (given with blanks around it or not), a reference to the name
    resolves to that output and a placeholder for it to the string
    form of the output.  The name must not be [__proto__] or
    [hasOwnProperty], and the look-up of the store must work. *)
Theorem output_variable_round_trip (w0 w3 name : string) (d : NodeData)
        (out : JsVal) (e : Engine) :
  plainName name ->
  forallb_str isSpace w0 = true -> forallb_str isSpace w3 = true ->
  name <> "__proto__" -> name <> "hasOwnProperty" ->
  reachesBuiltin "hasOwnProperty" (variables e) = true ->
  outputVariableName d = Some (w0 ++ name ++ w3) ->
  exists e',
    storeOutputVariable h d out e = Returns tt e'
    /\ resolveVariableValue name e' = Returns out e'
    /\ resolveVariables h (Some ("{{" ++ name ++ "}}")) e'
       = Returns (if typeofObject out then JSON_stringify h out
                  else String_of out) e'.
Proof.
  intros Hname H0 H3 Hproto Hhas Hcall Hout.
  destruct (plainName_starts name Hname) as (c & t & Hs & Hc).
  destruct (plainName_ends name Hname) as (y & dd & He & Hd).
  assert (Htrim : trim (w0 ++ name ++ w3) = name).
  { apply (trim_around w0 w3 name c dd y t); try assumption;
      now apply nameChar_not_space. }
  set (e' := set_logs
               (stamped h (logs e)
                        ("Stored output to variable '" ++ name ++ "'"))
               (set_variables (assign name out (variables e)) e)).
  assert (Hstore : storeOutputVariable h d out e = Returns tt e').
  { unfold storeOutputVariable. rewrite Hout.
    destruct (w0 ++ name ++ w3) as [|a rest] eqn:E.
    - rewrite Hs in E. destruct w0; discriminate.
    - rewrite Htrim. rewrite Hs. rewrite <- Hs. reflexivity. }
  assert (Hcall' : reachesBuiltin "hasOwnProperty" (variables e') = true).
  { cbn [e' variables set_logs set_variables].
    unfold reachesBuiltin, prop_has in *.
    unfold assign. apply String.eqb_neq in Hproto. rewrite Hproto.
    cbn [andb own proto].
    rewrite prop_get_set_other by (apply not_eq_sym; exact Hhas).
    exact Hcall. }
  assert (Hget : prop_get name (own (variables e')) = Some out).
  { cbn [e' variables set_logs set_variables]. now apply assign_get. }
  exists e'. split; [exact Hstore | split].
  - unfold resolveVariableValue, bind, gets, resolveVariableValueIn.
    replace (trim name) with name.
    + rewrite (stripBraces_bare name Hname).
      unfold hasOwnProperty, prop_has. now rewrite Hcall', Hget.
    + symmetry.
      apply (trim_around EmptyString EmptyString name c dd y t) in Hs;
        try assumption; try reflexivity; try now apply nameChar_not_space.
      now rewrite append_nil_r in Hs.
  - pose proof (replace_one EmptyString EmptyString name
                  EmptyString EmptyString out e' eq_refl eq_refl eq_refl
                  eq_refl Hname Hcall' Hget) as Hrep.
    cbn [append] in Hrep. rewrite append_nil_r in Hrep. exact Hrep.
Qed.
End Substitution.

End SubstitutionFacts.

Lemma placeholder_is_replaced_witness :
  resolveVariables Scenario.sampleHost (Some "sum of {{ a }} and more")
                   Scenario.engine_ba
  = Returns "sum of 2 and more" Scenario.engine_ba.
Proof.
  apply (SubstitutionFacts.placeholder_is_replaced Scenario.sampleHost
           "sum of " " " "a" " " " and more" (JNum 2) Scenario.engine_ba);
    try (vm_compute; reflexivity).
  split; [discriminate | reflexivity].
Defined.

Lemma resolves_iff_known_witness :
  (forall n, occursIn n "{{a}}-{{b}}" ->
             prop_has n (own (variables Scenario.engine_ba)) = true)
  <-> exists s,
      resolveVariables Scenario.sampleHost (Some "{{a}}-{{b}}")
                       Scenario.engine_ba
      = Returns s Scenario.engine_ba.
Proof.
  apply (SubstitutionFacts.resolves_iff_known Scenario.sampleHost
           "{{a}}-{{b}}" Scenario.engine_ba).
  vm_compute. reflexivity.
Defined.

Lemma output_variable_round_trip_witness :
  exists e',
    storeOutputVariable Scenario.sampleHost
      (Scenario.mkData "Store" None (Some " total ") None None)
      (JNum 7) Scenario.engine_ba
    = Returns tt e'
    /\ resolveVariableValue "total" e' = Returns (JNum 7) e'
    /\ resolveVariables Scenario.sampleHost (Some "{{total}}") e'
       = Returns "7" e'.
Proof.
  apply (SubstitutionFacts.output_variable_round_trip Scenario.sampleHost
           " " " " "total"
           (Scenario.mkData "Store" None (Some " total ") None None)
           (JNum 7) Scenario.engine_ba);
    try (vm_compute; reflexivity); try discriminate.
  split; [discriminate | vm_compute; reflexivity].
Defined.

(** ** What a run leaves alone *)

Module InvariantFacts.
Import EngineFacts TraversalFacts.

Section Keeps.
Variable R : Engine -> Engine -> Prop.
Hypothesis R_refl : forall e, R e e.
Hypothesis R_trans : forall a b c, R a b -> R b c -> R a c.

Lemma keeps_ret {A : Type} (a : A) : keeps R (ret a).
Proof. intros e. apply R_refl. Qed.

Lemma keeps_throw {A : Type} (msg : string) : keeps R (@throw A msg).
Proof. intros e. apply R_refl. Qed.

Lemma keeps_gets {A : Type} (f : Engine -> A) : keeps R (gets f).
Proof. intros e. apply R_refl. Qed.

Lemma keeps_liftResult {A : Type} (r : Result A) : keeps R (liftResult r).
Proof. destruct r; [apply keeps_ret | apply keeps_throw]. Qed.

Lemma keeps_bind {A B : Type} (m : M A) (k : A -> M B) :
  keeps R m -> (forall a, keeps R (k a)) -> keeps R (bind m k).
Proof.
  intros Hm Hk e. unfold bind. specialize (Hm e).
  destruct (m e) as [a e1|msg e1|]; [|assumption|exact I].
  specialize (Hk a e1).
  destruct (k a e1); try exact I; eapply R_trans; eassumption.
Qed.

Lemma keeps_tryCatch {A : Type} (m : M A) (hd : string -> M A) :
  keeps R m -> (forall msg, keeps R (hd msg)) -> keeps R (tryCatch m hd).
Proof.
  intros Hm Hh e. unfold tryCatch. specialize (Hm e).
  destruct (m e) as [a e1|msg e1|]; [assumption| |exact I].
  specialize (Hh msg e1).
  destruct (hd msg e1); try exact I; eapply R_trans; eassumption.
Qed.

Lemma keeps_forEach {A : Type} (xs : list A) (f : A -> M unit) :
  (forall x, In x xs -> keeps R (f x)) -> keeps R (forEach xs f).
Proof.
  induction xs as [|x xs IH]; intros Hf; simpl.
  - apply keeps_ret.
  - apply keeps_bind; [apply Hf; now left | intros _; apply IH].
    intros y Hy. apply Hf. now right.
Qed.

Lemma keeps_mapM {A B : Type} (f : A -> M B) (xs : list A) :
  (forall x, keeps R (f x)) -> keeps R (mapM f xs).
Proof.
  intros Hf. induction xs as [|x xs IH]; simpl.
  - apply keeps_ret.
  - apply keeps_bind; [apply Hf | intros y].
    apply keeps_bind; [apply IH | intros ys; apply keeps_ret].
Qed.

Variable h : Host.
Variable edges : list Edge.
Hypothesis R_log : forall message, keeps R (log h message).
Hypothesis R_status :
  forall i st out err, keeps R (updateNodeStatus i st out err).

(** One step of a proof that a call keeps [R]. *)
Ltac keeps_step :=
  match goal with
  | |- keeps _ (log _ _) => apply R_log
  | |- keeps _ (updateNodeStatus _ _ _ _) => apply R_status
  | |- keeps _ (bind _ _) => apply keeps_bind; [|intros ?]
  | |- keeps _ (ret _) => apply keeps_ret
  | |- keeps _ (throw _) => apply keeps_throw
  | |- keeps _ (gets _) => apply keeps_gets
  | |- keeps _ (liftResult _) => apply keeps_liftResult
  | |- keeps _ (tryCatch _ _) => apply keeps_tryCatch; [|intros ?]
  | |- keeps _ (mapM _ _) => apply keeps_mapM; intros ?
  | |- keeps _ (if ?b then _ else _) => destruct b
  | |- keeps _ (match ?x with _ => _ end) => destruct x
  end.

Lemma resolveNodeData_keeps (d : NodeData) : keeps R (resolveNodeData h d).
Proof.
  unfold resolveNodeData, resolveVariables, resolveInputs, resolveInput,
    resolveInputImage, resolveVariableValue.
  repeat keeps_step.
Qed.

Lemma dispatch_keeps (t : NodeType) (d : NodeData) (inputData : JsVal) :
  keeps R (dispatch h t d inputData).
Proof. unfold dispatch. destruct t; repeat keeps_step. Qed.

Lemma enterNode_keeps (node : Node) : keeps R (enterNode h node).
Proof. unfold enterNode. repeat keeps_step. Qed.

Lemma onError_keeps (node : Node) (msg : string) :
  keeps R (onError h node msg).
Proof. unfold onError. repeat keeps_step. Qed.

(** The whole execution of a node keeps [R] once the storing of its
    outputs does. *)
Lemma executeNode_keeps :
  (forall d out, keeps R (storeOutputVariable h d out)) ->
  (forall d out, keeps R (storeOutputMappings h d out)) ->
  forall fuel node inputData, keeps R (executeNode h edges fuel node inputData).
Proof.
  intros Hvar Hmap. induction fuel as [|fuel IH]; intros node inputData.
  - intros e. exact I.
  - cbn [executeNode]. apply keeps_bind; [apply enterNode_keeps | intros _].
    apply keeps_tryCatch; [|intros msg; apply onError_keeps].
    apply keeps_bind.
    + unfold processNode.
      repeat first [ apply resolveNodeData_keeps | apply dispatch_keeps
                   | apply Hvar | apply Hmap | keeps_step ].
    + intros out. apply keeps_forEach. intros ed _.
      unfold visitEdge. apply keeps_bind; [apply keeps_gets|].
      intros [next|]; [apply IH | apply keeps_ret].
Qed.
End Keeps.

Section Marks.
Variable h : Host.
Variable edges : list Edge.

Lemma config_markNode (i : string) (st : Status) (out : JsVal)
      (err : option string) (n : Node) :
  config (markNode i st out err n) = config n.
Proof. unfold markNode. destruct (id n =? i); reflexivity. Qed.

Lemma sameConfig_refl (e : Engine) : sameConfig e e.
Proof. reflexivity. Qed.

Lemma sameConfig_trans (a b c : Engine) :
  sameConfig a b -> sameConfig b c -> sameConfig a c.
Proof. unfold sameConfig. congruence. Qed.

Lemma logGrows_refl (e : Engine) : logGrows e e.
Proof. exists []. now rewrite app_nil_r. Qed.

Lemma logGrows_trans (a b c : Engine) :
  logGrows a b -> logGrows b c -> logGrows a c.
Proof.
  intros [m1 H1] [m2 H2]. exists (m1 ++ m2)%list.
  now rewrite H2, H1, app_assoc.
Qed.

Lemma steady_refl (e : Engine) : steady e e.
Proof. split; [apply sameConfig_refl | apply logGrows_refl]. Qed.

Lemma steady_trans (a b c : Engine) : steady a b -> steady b c -> steady a c.
Proof.
  intros [H1 H2] [H3 H4].
  split; [eapply sameConfig_trans | eapply logGrows_trans]; eassumption.
Qed.

Lemma steady_log (message : string) : keeps steady (log h message).
Proof.
  intros e. split; [reflexivity|]. eexists. reflexivity.
Qed.

Lemma steady_status (i : string) (st : Status) (out : JsVal)
      (err : option string) :
  keeps steady (updateNodeStatus i st out err).
Proof.
  intros e. split; [|exists []; cbn; now rewrite app_nil_r].
  unfold sameConfig. cbn. rewrite map_map. apply map_ext.
  intros n. apply config_markNode.
Qed.

Lemma steady_setVariable (k : string) (v : JsVal) :
  keeps steady (setVariable k v).
Proof.
  intros e. split; [reflexivity | exists []; cbn; now rewrite app_nil_r].
Qed.

Lemma steady_storeOutputVariable (d : NodeData) (out : JsVal) :
  keeps steady (storeOutputVariable h d out).
Proof.
  unfold storeOutputVariable.
  destruct (outputVariableName d) as [[|c t]|];
    try apply (keeps_ret _ steady_refl).
  destruct (trim (String c t)); try apply (keeps_ret _ steady_refl).
  apply (keeps_bind _ steady_trans);
    [apply steady_setVariable | intros _; apply steady_log].
Qed.

Lemma steady_applyMapping (out : JsVal) (m : OutputMapping) :
  keeps steady (applyMapping h out m).
Proof.
  unfold applyMapping.
  destruct (field m); try apply (keeps_ret _ steady_refl).
  destruct (variable m); try apply (keeps_ret _ steady_refl).
  apply (keeps_bind _ steady_trans);
    [apply (keeps_liftResult _ steady_refl) | intros [|]].
  - apply (keeps_bind _ steady_trans);
      [apply steady_setVariable | intros _; apply steady_log].
  - apply steady_log.
Qed.

Lemma steady_storeOutputMappings (d : NodeData) (out : JsVal) :
  keeps steady (storeOutputMappings h d out).
Proof.
  unfold storeOutputMappings.
  destruct (outputMappings d) as [[|m ms]|];
    try apply (keeps_ret _ steady_refl).
  destruct (isObject out); [|apply steady_log].
  apply (keeps_forEach _ steady_refl steady_trans).
  intros x _. apply steady_applyMapping.
Qed.

Lemma steady_executeNode (fuel : nat) (node : Node) (inputData : JsVal) :
  keeps steady (executeNode h edges fuel node inputData).
Proof.
  apply (executeNode_keeps steady steady_refl steady_trans h edges
           steady_log steady_status steady_storeOutputVariable
           steady_storeOutputMappings).
Qed.

Lemma config_resetNode (n : Node) : config (resetNode n) = config n.
Proof. reflexivity. Qed.

Lemma steady_run (fuel : nat) : keeps steady (run h edges fuel).
Proof.
  unfold run.
  apply (keeps_bind _ steady_trans); [apply steady_log | intros _].
  apply (keeps_bind _ steady_trans);
    [apply (keeps_gets _ steady_refl) | intros [start|]];
    [|apply steady_log].
  apply (keeps_bind _ steady_trans);
    [intros e; split;
       [reflexivity | exists []; cbn; now rewrite app_nil_r]
    | intros _].
  apply (keeps_bind _ steady_trans).
  { intros e. split; [|exists []; cbn; now rewrite app_nil_r].
    unfold sameConfig. cbn. rewrite map_map. apply map_ext.
    intros n. apply config_resetNode. }
  intros _.
  apply (keeps_bind _ steady_trans); [apply steady_executeNode | intros _].
  apply (keeps_bind _ steady_trans); [apply steady_log | intros _].
  apply (keeps_bind _ steady_trans);
    [apply (keeps_gets _ steady_refl) | intros vars; apply steady_log].
Qed.

(** X6.  A run changes nothing of the graph but the marks: when
    [run] or [executeNode] returns, the nodes are the same, in the
    same order, with the same identifier, type, position and
    configuration; only [status], [outputValue] and [errorMessage]
    may differ. *)
Theorem run_keeps_configuration (fuel : nat) (e e' : Engine) :
  (run h edges fuel e = Returns tt e' ->
   map config (nodes e') = map config (nodes e)
   /\ map id (nodes e') = map id (nodes e))
  /\ (forall node inputData,
        executeNode h edges fuel node inputData e = Returns tt e' ->
        map config (nodes e') = map config (nodes e)
        /\ map id (nodes e') = map id (nodes e)).
Proof.
  assert (Hid : forall a b : Engine,
             map config (nodes b) = map config (nodes a) ->
             map id (nodes b) = map id (nodes a)).
  { intros a b H.
    assert (Hc : forall l, map id l = map id (map config l)).
    { intros l. rewrite map_map. apply map_ext. reflexivity. }
    now rewrite (Hc (nodes b)), (Hc (nodes a)), H. }
  split.
  - intros Hrun. pose proof (steady_run fuel e) as H.
    rewrite Hrun in H. destruct H as [H _]. split; [exact H | now apply Hid].
  - intros node inputData Hrun.
    pose proof (steady_executeNode fuel node inputData e) as H.
    rewrite Hrun in H. destruct H as [H _]. split; [exact H | now apply Hid].
Qed.

(** X7.  The log only grows: when [run] or [executeNode] returns,
    the lines logged before are still there, in front of the new
    ones, and a run adds at least its opening line. *)
Theorem run_appends_to_log (fuel : nat) (e e' : Engine) :
  (run h edges fuel e = Returns tt e' ->
   exists more,
     logs e'
     = List.app (logs e)
         (("[" ++ toLocaleTimeString h (List.length (logs e))
           ++ "] Starting workflow execution...") :: more))
  /\ (forall node inputData,
        executeNode h edges fuel node inputData e = Returns tt e' ->
        exists more, logs e' = (logs e ++ more)%list).
Proof.
  split.
  - intros Hrun.
    set (e0 := set_logs (stamped h (logs e) "Starting workflow execution...")
                        e).
    assert (Hrest : exists m : M unit,
               keeps steady m /\ run h edges fuel e = m e0).
    { eexists. split; [|unfold run, bind at 1; reflexivity].
      apply (keeps_bind _ steady_trans);
        [apply (keeps_gets _ steady_refl) | intros [start|]];
        [|apply steady_log].
      apply (keeps_bind _ steady_trans);
        [intros x; split;
           [reflexivity | exists []; cbn; now rewrite app_nil_r]
        | intros _].
      apply (keeps_bind _ steady_trans).
      { intros x. split; [|exists []; cbn; now rewrite app_nil_r].
        unfold sameConfig. cbn. rewrite map_map. apply map_ext.
        intros n. apply config_resetNode. }
      intros _.
      apply (keeps_bind _ steady_trans);
        [apply steady_executeNode | intros _].
      apply (keeps_bind _ steady_trans); [apply steady_log | intros _].
      apply (keeps_bind _ steady_trans);
        [apply (keeps_gets _ steady_refl) | intros vars; apply steady_log]. }
    destruct Hrest as (m & Hm & Heq). specialize (Hm e0).
    rewrite <- Heq, Hrun in Hm. destruct Hm as [_ [more Hmore]].
    exists more. rewrite Hmore. unfold e0. cbn [logs set_logs].
    unfold stamped. now rewrite <- app_assoc.
  - intros node inputData Hrun.
    pose proof (steady_executeNode fuel node inputData e) as H.
    rewrite Hrun in H. now destruct H as [_ H].
Qed.
End Marks.

End InvariantFacts.

(** ** What a run leaves behind *)

Module OutcomeFacts.
Import EngineFacts TraversalFacts StoreFacts InvariantFacts.

Section Outcome.
Variable h : Host.
Variable edges : list Edge.

Lemma frame_returns {A : Type} (R : Engine -> Engine -> Prop) (m : M A)
      (e e' : Engine) (a : A) :
  frame R m -> m e = Returns a e' -> R e e'.
Proof. intros Hm H. specialize (Hm e). now rewrite H in Hm. Qed.

Lemma frame_throws {A : Type} (R : Engine -> Engine -> Prop) (m : M A)
      (e e' : Engine) (msg : string) :
  frame R m -> m e = Throws msg e' -> R e e'.
Proof. intros Hm H. specialize (Hm e). now rewrite H in Hm. Qed.

(** The storing steps of [processNode] keep the nodes. *)
Lemma stores_sameNodes (d : NodeData) (out : JsVal) :
  frame sameNodes
        (storeOutputVariable h d out ;; storeOutputMappings h d out).
Proof.
  apply (frame_bind _ sameNodes_trans).
  - apply storeOutputVariable_sameNodes.
  - intros _. apply storeOutputMappings_sameNodes.
Qed.

(** What [processNode] does to the nodes: nothing when it raises,
    and the mark of success when it returns. *)
Lemma processNode_nodes (node : Node) (inputData : JsVal) (e : Engine) :
  match processNode h node inputData e with
  | Returns out e1 =>
      nodes e1 = map (markNode (id node) Success out None) (nodes e)
  | Throws _ e1 => nodes e1 = nodes e
  | Diverges => False
  end.
Proof.
  unfold processNode.
  pose proof (resolve_dispatch_sameGraph h node inputData e) as Hrd.
  unfold bind in Hrd. unfold bind at 1.
  destruct (resolveNodeData h (data node) e) as [d e0|m0 e0|];
    [|exact (proj1 Hrd)|exact Hrd].
  unfold bind at 1.
  destruct (dispatch h (type node) d inputData e0) as [out e2|m2 e2|];
    [|exact (proj1 Hrd)|exact Hrd].
  destruct Hrd as [Hn _].
  pose proof (storeOutputVariable_sameNodes h (data node) out e2) as Hv.
  unfold bind at 1.
  destruct (storeOutputVariable h (data node) out e2) as [[] e3|m3 e3|];
    [|unfold sameNodes in Hv; congruence|exact Hv].
  pose proof (storeOutputMappings_sameNodes h (data node) out e3) as Hm.
  unfold bind at 1.
  destruct (storeOutputMappings h (data node) out e3) as [[] e4|m4 e4|];
    [|unfold sameNodes in *; congruence|exact Hm].
  unfold sameNodes in *. cbn. congruence.
Qed.

Lemma markNode_after_running (i : string) (st : Status) (out : JsVal)
      (err : option string) (n : Node) :
  markNode i st out err (markNode i Running JUndefined None n)
  = markNode i st out err n.
Proof.
  unfold markNode. destruct (id n =? i) eqn:E; simpl; rewrite E;
    [destruct out|]; reflexivity.
Qed.

Lemma forEach_invariant {A : Type} (I : Engine -> Prop) (xs : list A)
      (f : A -> M unit) :
  (forall x e e', In x xs -> I e -> f x e = Returns tt e' -> I e') ->
  forall e e', I e -> forEach xs f e = Returns tt e' -> I e'.
Proof.
  induction xs as [|x xs IH]; intros Hf e e' Hi Hrun; simpl in Hrun.
  - inversion Hrun. now subst.
  - unfold bind in Hrun.
    destruct (f x e) as [[] e1|msg e1|] eqn:E; try discriminate.
    apply (IH (fun y a b Hy => Hf y a b (or_intror Hy)) e1 e');
      [|exact Hrun].
    eapply Hf; [now left | exact Hi | exact E].
Qed.

(** The invariant pattern of the traversal: a property of engines
    that holds again after the own processing of a node, whether it
    failed or went through, holds when the execution returns. *)
Lemma executeNode_invariant (I : Engine -> Prop) (Q : Node -> Prop) :
  (forall node inputData e msg e1,
     Q node -> I e ->
     processNode h node inputData (entered h node e) = Throws msg e1 ->
     I (failed h node msg e1)) ->
  (forall node inputData e out e1,
     Q node -> I e ->
     processNode h node inputData (entered h node e) = Returns out e1 ->
     I e1) ->
  (forall e next t,
     I e -> find (fun n => id n =? t) (nodes e) = Some next -> Q next) ->
  forall fuel node inputData e e',
    Q node -> I e ->
    executeNode h edges fuel node inputData e = Returns tt e' -> I e'.
Proof.
  intros Hfail Hok Hnext.
  induction fuel as [|fuel IH]; intros node inputData e e' Hq Hi Hrun;
    [discriminate|].
  destruct (processNode h node inputData (entered h node e))
    as [out e1|msg e1|] eqn:E.
  - rewrite (executeNode_success h edges fuel node inputData e e1 out E)
      in Hrun.
    apply (forEach_invariant I (outgoingEdges edges node)
             (visitEdge (executeNode h edges fuel) out)) with (e := e1);
      [|eapply Hok; eassumption|exact Hrun].
    intros ed a b _ Ha Hvisit.
    unfold visitEdge, bind, gets in Hvisit.
    destruct (find (fun n => id n =? target ed) (nodes a)) as [next|] eqn:Ef.
    + eapply IH; [eapply Hnext; eassumption | exact Ha | exact Hvisit].
    + inversion Hvisit. now subst.
  - rewrite (executeNode_failure h edges fuel node inputData e e1 msg E)
      in Hrun.
    inversion Hrun. subst. eapply Hfail; eassumption.
  - rewrite executeNode_unfold in Hrun. unfold tryCatch, bind in Hrun.
    rewrite E in Hrun. discriminate.
Qed.

Lemma settled_mark_success (i : string) (out : JsVal) (n : Node) :
  settled n -> settled (markNode i Success out None n).
Proof.
  unfold markNode. destruct (id n =? i); [|easy].
  intros _. unfold settled. reflexivity.
Qed.

Lemma settled_mark_error (i msg : string) (n : Node) :
  settled n -> settled (markNode i Error JUndefined (Some msg) n).
Proof.
  unfold markNode. destruct (id n =? i); [|easy].
  intros _. unfold settled. cbn. discriminate.
Qed.

(** X8.  No node is left running.  After a run that found its
    trigger and returned, every node is either as the reset left it
    (idle, output [null], no error message), or done (success, no
    error message), or failed (error, with an error message). *)
Theorem run_settles_every_node (fuel : nat) (e e' : Engine) (start : Node) :
  find isWebhook (nodes e) = Some start ->
  run h edges fuel e = Returns tt e' ->
  forall n, In n (nodes e') ->
    match status (data n) with
    | Some Idle => outputValue (data n) = JNull /\ errorMessage (data n) = None
    | Some Success => errorMessage (data n) = None
    | Some Error => errorMessage (data n) <> None
    | _ => False
    end.
Proof.
  intros Hstart Hrun.
  assert (Hexec : forall f node inputData a b,
             Forall settled (nodes a) ->
             executeNode h edges f node inputData a = Returns tt b ->
             Forall settled (nodes b)).
  { intros f node inputData a b Ha Hx.
    apply (executeNode_invariant (fun x => Forall settled (nodes x))
             (fun _ => True)) with (fuel := f) (node := node)
             (inputData := inputData) (e := a); try assumption; try exact I.
    - intros nd inp x msg x1 _ Hx0 Hp.
      pose proof (processNode_nodes nd inp (entered h nd x)) as Hn.
      rewrite Hp in Hn. cbn [failed nodes set_logs set_nodes].
      rewrite Hn. cbn [entered nodes set_logs set_nodes].
      rewrite map_map. apply Forall_map.
      eapply Forall_impl; [|exact Hx0]. intros n Hs.
      rewrite markNode_after_running. now apply settled_mark_error.
    - intros nd inp x out x1 _ Hx0 Hp.
      pose proof (processNode_nodes nd inp (entered h nd x)) as Hn.
      rewrite Hp in Hn. rewrite Hn.
      cbn [entered nodes set_logs set_nodes].
      rewrite map_map. apply Forall_map.
      eapply Forall_impl; [|exact Hx0]. intros n Hs.
      rewrite markNode_after_running. now apply settled_mark_success.
    - intros; exact I. }
  assert (Hreset : Forall settled (map resetNode (nodes e))).
  { apply Forall_map, Forall_forall. intros n _.
    unfold settled. cbn. split; reflexivity. }
  revert Hrun. unfold run, bind, log, modify, gets.
  cbn [nodes set_logs]. rewrite Hstart.
  match goal with
  | |- context [executeNode h edges fuel start ?i ?s] =>
      destruct (executeNode h edges fuel start i s) as [[] e2|msg e2|] eqn:E;
        try discriminate;
      apply Hexec in E; [|exact Hreset]
  end.
  intros Hrun. inversion Hrun. subst e'. cbn [nodes set_logs].
  intros n Hin. rewrite Forall_forall in E. exact (E n Hin).
Qed.

Lemma keys_assign (k x : string) (v : JsVal) (st : Store) :
  In x (Object_keys (own (assign k v st))) ->
  x = k \/ In x (Object_keys (own st)).
Proof.
  unfold assign.
  destruct ((k =? "__proto__") && reachesBuiltin "__proto__" st).
  - destruct v; auto.
  - cbn [own].
    destruct (keys_set k v (own st)) as [[_ ->]|[_ (f & b & -> & ->)]];
      [auto|].
    intros Hin. apply in_app_or in Hin as [Hin|[<-|Hin]]; auto.
    + right. apply in_or_app. now left.
    + right. apply in_or_app. now right.
Qed.

Lemma addsOnly_refl (D : list string) (e : Engine) : addsOnly D e e.
Proof. intros k Hk. now right. Qed.

Lemma addsOnly_trans (D : list string) (a b c : Engine) :
  addsOnly D a b -> addsOnly D b c -> addsOnly D a c.
Proof.
  intros H1 H2 k Hk. destruct (H2 k Hk) as [Hd|Hb]; [now left|].
  exact (H1 k Hb).
Qed.

Lemma addsOnly_setVariable (D : list string) (k : string) (v : JsVal) :
  In k D -> keeps (addsOnly D) (setVariable k v).
Proof.
  intros Hk e x Hx. cbn in Hx. apply keys_assign in Hx as [->|Hx]; auto.
Qed.

Lemma addsOnly_log (D : list string) (message : string) :
  keeps (addsOnly D) (log h message).
Proof. intros e k Hk. now right. Qed.

Lemma addsOnly_status (D : list string) (i : string) (st : Status)
      (out : JsVal) (err : option string) :
  keeps (addsOnly D) (updateNodeStatus i st out err).
Proof. intros e k Hk. now right. Qed.

Lemma trim_nonempty_In (c : ascii) (t : string) (d : NodeData) :
  outputVariableName d = Some (String c t) ->
  forall node, data node = d -> In (trim (String c t)) (declared node).
Proof.
  intros Hd node <-. unfold declared. rewrite Hd. now left.
Qed.

(** The own processing of a node writes variables under the names
    the node declares, and under no other. *)
Lemma processNode_addsOnly (node : Node) (inputData : JsVal) :
  keeps (addsOnly (declared node)) (processNode h node inputData).
Proof.
  set (D := declared node).
  assert (Hstore : forall out,
             keeps (addsOnly D) (storeOutputVariable h (data node) out)).
  { intros out. unfold storeOutputVariable.
    destruct (outputVariableName (data node)) as [[|c t]|] eqn:Eo;
      try apply (keeps_ret _ (addsOnly_refl D)).
    pose proof (trim_nonempty_In c t (data node) Eo node eq_refl) as Hin.
    destruct (trim (String c t)) eqn:Et;
      try apply (keeps_ret _ (addsOnly_refl D)).
    apply (keeps_bind _ (addsOnly_trans D));
      [now apply addsOnly_setVariable | intros _; apply addsOnly_log]. }
  assert (Hmaps : forall out,
             keeps (addsOnly D) (storeOutputMappings h (data node) out)).
  { intros out. unfold storeOutputMappings.
    destruct (outputMappings (data node)) as [[|m ms]|] eqn:Em;
      try apply (keeps_ret _ (addsOnly_refl D)).
    destruct (isObject out); [|apply addsOnly_log].
    apply (keeps_forEach _ (addsOnly_refl D) (addsOnly_trans D)).
    intros x Hx. unfold applyMapping.
    destruct (field x); try apply (keeps_ret _ (addsOnly_refl D)).
    destruct (variable x) as [|vc vt] eqn:Ev;
      try apply (keeps_ret _ (addsOnly_refl D)).
    apply (keeps_bind _ (addsOnly_trans D));
      [apply (keeps_liftResult _ (addsOnly_refl D)) | intros [|]];
      [|apply addsOnly_log].
    apply (keeps_bind _ (addsOnly_trans D)); [|intros _; apply addsOnly_log].
    apply addsOnly_setVariable. unfold D, declared. rewrite Em.
    apply in_or_app. right. apply in_map_iff. exists x.
    split; [now rewrite Ev | exact Hx]. }
  unfold processNode.
  apply (keeps_bind _ (addsOnly_trans D)).
  { apply (resolveNodeData_keeps _ (addsOnly_refl D) (addsOnly_trans D) h
             (addsOnly_log D)). }
  intros d. apply (keeps_bind _ (addsOnly_trans D)).
  { apply (dispatch_keeps _ (addsOnly_refl D) (addsOnly_trans D) h
             (addsOnly_log D)). }
  intros out.
  apply (keeps_bind _ (addsOnly_trans D)); [apply Hstore | intros _].
  apply (keeps_bind _ (addsOnly_trans D)); [apply Hmaps | intros _].
  apply (keeps_bind _ (addsOnly_trans D)); [apply addsOnly_status | intros _].
  apply (keeps_bind _ (addsOnly_trans D)); [apply addsOnly_log | intros _].
  apply (keeps_ret _ (addsOnly_refl D)).
Qed.

Lemma declared_markNode (i : string) (st : Status) (out : JsVal)
      (err : option string) (n : Node) :
  declared (markNode i st out err n) = declared n.
Proof. unfold markNode. destruct (id n =? i); reflexivity. Qed.

(** The variables of a finished run bear declared names. *)
Lemma run_names (fuel : nat) (e e' : Engine) (start : Node) :
  find isWebhook (nodes e) = Some start ->
  run h edges fuel e = Returns tt e' ->
  namedWithin (declaredBy (nodes e)) e'.
Proof.
  intros Hstart Hrun.
  set (L := declaredBy (nodes e)).
  set (J := fun x : Engine =>
              (forall n, In n (nodes x) -> incl (declared n) L)
              /\ namedWithin L x).
  assert (Hexec : forall f node inputData a b,
             incl (declared node) L -> J a ->
             executeNode h edges f node inputData a = Returns tt b -> J b).
  { intros f node inputData a b Hq Ha Hx.
    apply (executeNode_invariant J (fun nd => incl (declared nd) L))
      with (fuel := f) (node := node) (inputData := inputData) (e := a);
      try assumption.
    - intros nd inp x msg x1 Hnd [Hx1 Hx2] Hp.
      pose proof (processNode_nodes nd inp (entered h nd x)) as Hn.
      pose proof (processNode_addsOnly nd inp (entered h nd x)) as Hk.
      rewrite Hp in Hn, Hk. split.
      + cbn [failed nodes set_logs set_nodes]. rewrite Hn.
        cbn [entered nodes set_logs set_nodes].
        intros n Hin. apply in_map_iff in Hin as (n0 & <- & Hin).
        apply in_map_iff in Hin as (n1 & <- & Hin).
        rewrite !declared_markNode. now apply Hx1.
      + intros k Hk'. cbn [failed variables set_logs set_nodes] in Hk'.
        destruct (Hk k Hk') as [Hd|Hold]; [now apply Hnd | now apply Hx2].
    - intros nd inp x out x1 Hnd [Hx1 Hx2] Hp.
      pose proof (processNode_nodes nd inp (entered h nd x)) as Hn.
      pose proof (processNode_addsOnly nd inp (entered h nd x)) as Hk.
      rewrite Hp in Hn, Hk. split.
      + rewrite Hn. cbn [entered nodes set_logs set_nodes].
        intros n Hin. apply in_map_iff in Hin as (n0 & <- & Hin).
        apply in_map_iff in Hin as (n1 & <- & Hin).
        rewrite !declared_markNode. now apply Hx1.
      + intros k Hk'.
        destruct (Hk k Hk') as [Hd|Hold]; [now apply Hnd | now apply Hx2].
    - intros x next t [Hx1 _] Hf. apply find_some in Hf as [Hin _].
      now apply Hx1. }
  assert (Hin_start : In start (nodes e))
    by (apply find_some in Hstart; tauto).
  assert (Hdecl : forall n, In n (nodes e) -> incl (declared n) L).
  { intros n Hn k Hk. unfold L, declaredBy. apply in_flat_map. eauto. }
  unfold L in *. clear L.
  revert Hrun. unfold run, bind, log, modify, gets.
  cbn [nodes set_logs]. rewrite Hstart.
  match goal with
  | |- context [executeNode h edges fuel start ?i ?s] =>
      destruct (executeNode h edges fuel start i s) as [[] e2|msg e2|] eqn:E;
        try discriminate;
      apply Hexec in E
  end.
  - intros Hrun. inversion Hrun. subst e'. exact (proj2 E).
  - now apply Hdecl.
  - unfold J. split.
    + cbn [nodes set_logs set_nodes set_variables].
      intros n Hin. apply in_map_iff in Hin as (n0 & <- & Hin).
      change (declared (resetNode n0)) with (declared n0). now apply Hdecl.
    + intros k [].
Qed.

(** X9.  Variables come from declared outputs only.  After a run
    that found its trigger and returned, every variable of the store
    bears the trimmed output variable name of some node of the graph,
    or the trimmed variable of one of its output mappings. *)
Theorem run_writes_declared_names (fuel : nat) (e e' : Engine)
        (start : Node) :
  find isWebhook (nodes e) = Some start ->
  run h edges fuel e = Returns tt e' ->
  forall k, In k (Object_keys (own (variables e'))) ->
    exists n, In n (nodes e)
      /\ ((exists name, outputVariableName (data n) = Some name
                         /\ k = trim name)
          \/ (exists ms m, outputMappings (data n) = Some ms /\ In m ms
                            /\ k = trim (variable m))).
Proof.
  intros Hstart Hrun.
  pose proof (run_names fuel e e' start Hstart Hrun) as Hfinal.
  intros k Hk. apply Hfinal in Hk. unfold declaredBy in Hk.
  apply in_flat_map in Hk as (n & Hn & Hk). exists n. split; [exact Hn|].
  unfold declared in Hk. apply in_app_or in Hk as [Hk|Hk].
  - left. destruct (outputVariableName (data n)) as [name|]; [|contradiction].
    destruct Hk as [<-|[]]. now exists name.
  - right. destruct (outputMappings (data n)) as [ms|]; [|contradiction].
    apply in_map_iff in Hk as (m & <- & Hm). now exists ms, m.
Qed.
End Outcome.

End OutcomeFacts.

Lemma run_settles_every_node_witness :
  exists e',
    run (SampleHost.host Scenario.failingAi) Scenario.forkEdges 2
        (create Scenario.forkNodes) = Returns tt e'
    /\ forall n, In n (nodes e') ->
         match status (data n) with
         | Some Idle =>
             outputValue (data n) = JNull /\ errorMessage (data n) = None
         | Some Success => errorMessage (data n) = None
         | Some Error => errorMessage (data n) <> None
         | _ => False
         end.
Proof.
  eexists. split; [vm_compute; reflexivity|].
  apply (OutcomeFacts.run_settles_every_node
           (SampleHost.host Scenario.failingAi) Scenario.forkEdges 2
           (create Scenario.forkNodes) _ Scenario.trigger);
    vm_compute; reflexivity.
Defined.

Lemma run_writes_declared_names_witness :
  exists e',
    run (SampleHost.host Scenario.failingAi) Scenario.forkEdges 2
        (create Scenario.forkNodes) = Returns tt e'
    /\ forall k, In k (Object_keys (own (variables e'))) ->
         exists n, In n (nodes (create Scenario.forkNodes))
           /\ ((exists name, outputVariableName (data n) = Some name
                              /\ k = trim name)
               \/ (exists ms m, outputMappings (data n) = Some ms /\ In m ms
                                 /\ k = trim (variable m))).
Proof.
  eexists. split; [vm_compute; reflexivity|].
  apply (OutcomeFacts.run_writes_declared_names
           (SampleHost.host Scenario.failingAi) Scenario.forkEdges 2
           (create Scenario.forkNodes) _ Scenario.trigger);
    vm_compute; reflexivity.
Defined.

(** ** The context handed to the model *)

Module ContextFacts.
Import ReferenceFacts.

Lemma prefix_append (p a x : string) :
  String.length p <= String.length a ->
  String.prefix p (a ++ x) = String.prefix p a.
Proof.
  revert a. induction p as [|c p IH]; intros a Hl.
  - destruct a; simpl; [destruct x|]; reflexivity.
  - destruct a as [|d a]; simpl in Hl; [lia|].
    simpl. destruct (ascii_dec c d); [apply IH; lia | reflexivity].
Qed.

(** A prefix shorter than the cut survives the cut. *)
Lemma startsWith_truncated (p s x : string) (n : nat) :
  String.length p <= n -> n <= String.length s ->
  startsWith p (substring0 n s ++ x) = startsWith p s.
Proof.
  intros Hp Hn. unfold startsWith.
  destruct (substring0_split n s Hn) as [d [Hs Hl]].
  rewrite prefix_append by lia.
  rewrite Hs at 2. rewrite prefix_append by lia. reflexivity.
Qed.

Lemma substring0_exact (n : nat) (a b : string) :
  String.length a = n -> substring0 n (a ++ b) = a.
Proof. intros <-. apply substring0_append. Qed.

Lemma five_le_limit : 5 <= 50000.
Proof. apply Nat.leb_le. vm_compute. reflexivity. Qed.

Lemma marker_le_limit : 52 <= 50000.
Proof. apply Nat.leb_le. vm_compute. reflexivity. Qed.

Section Context.
Variable h : Host.

(** X10.  On strings the context sanitizer is bounded and
    idempotent: its result never has more than 50,000 characters and
    the fifteen of the truncation marker, and sanitizing a sanitized
    string changes nothing. *)
Theorem getSafeContext_bounded_idempotent (s : string) :
  String.length (getSafeContext h (JStr s)) <= 50000 + 15
  /\ getSafeContext h (JStr (getSafeContext h (JStr s)))
     = getSafeContext h (JStr s).
Proof.
  pose proof five_le_limit as H5. pose proof marker_le_limit as H52.
  unfold getSafeContext.
  destruct (startsWith "data:" s) eqn:Hd.
  - split.
    + change (String.length
                "[Image Data URL - Content Omitted from Text Context]")
        with 52. lia.
    + change (startsWith "data:"
                "[Image Data URL - Content Omitted from Text Context]")
        with false. cbv iota.
      change (String.length
                "[Image Data URL - Content Omitted from Text Context]")
        with 52.
      destruct (Nat.ltb_spec 50000 52); [lia | reflexivity].
  - destruct (Nat.ltb_spec 50000 (String.length s)) as [Hlong|Hshort].
    + destruct (substring0_split 50000 s) as [d [Hs Hl]]; [lia|].
      assert (Hlen : String.length (substring0 50000 s ++ "... [Truncated]")
                     = 50000 + 15).
      { rewrite length_append, Hl. reflexivity. }
      split; [lia|].
      rewrite (startsWith_truncated "data:" s _ 50000 H5
                 (Nat.lt_le_incl _ _ Hlong)), Hd.
      rewrite Hlen.
      destruct (Nat.ltb_spec 50000 (50000 + 15)); [|lia].
      now rewrite substring0_exact.
    + split; [lia|]. rewrite Hd.
      destruct (Nat.ltb_spec 50000 (String.length s)); [lia | reflexivity].
Qed.
End Context.

Lemma JsVal_nested_ind (P : JsVal -> Prop) :
  P JUndefined -> P JNull -> (forall b, P (JBool b)) ->
  (forall n, P (JNum n)) -> (forall s, P (JStr s)) ->
  (forall items, Forall P items -> P (JArr items)) ->
  (forall props, Forall (fun kv => P (snd kv)) props -> P (JObj props)) ->
  forall v, P v.
Proof.
  intros Hu Hn Hb Hz Hs Ha Ho.
  fix IH 1. intros [| |b|n|s|items|props].
  - exact Hu.
  - exact Hn.
  - apply Hb.
  - apply Hz.
  - apply Hs.
  - apply Ha. induction items as [|x items IHl]; constructor;
      [apply IH | exact IHl].
  - apply Ho. induction props as [|[k x] props IHl]; constructor;
      [apply IH | exact IHl].
Qed.

Lemma small_le_limit : 500 <= 5000 /\ 5 <= 5000 /\ 12 <= 500.
Proof. repeat split; apply Nat.leb_le; vm_compute; reflexivity. Qed.

(** The replacer, whatever its two limits are. *)
Lemma redact_limits (small big : nat) (s : string) :
  12 <= small -> small <= big -> 5 <= big ->
  let r := fun val : string =>
             if startsWith "data:" val && (small <? String.length val)%nat
             then "[Image Data]"
             else if (big <? String.length val)%nat
                  then substring0 big val ++ "... [Truncated]"
                  else val in
  (String.length (r s) <= big + 15
   /\ (startsWith "data:" (r s) = true -> String.length (r s) <= small))
  /\ r (r s) = r s.
Proof.
  intros H12 H500 H5. cbv zeta beta.
  destruct (startsWith "data:" s) eqn:Hd; cbn [andb].
  - destruct (Nat.ltb_spec small (String.length s)) as [Hbig|Hsmall].
    + change (startsWith "data:" "[Image Data]") with false.
      cbn [andb]. change (String.length "[Image Data]") with 12.
      destruct (Nat.ltb_spec big 12); [lia|].
      change (String.length "[Image Data]") with 12.
      repeat split; [lia | intros; lia].
    + destruct (Nat.ltb_spec big (String.length s)); [lia|].
      rewrite Hd. cbn [andb].
      destruct (Nat.ltb_spec small (String.length s)); [lia|].
      destruct (Nat.ltb_spec big (String.length s)); [lia|].
      repeat split; [lia | intros; lia].
  - destruct (Nat.ltb_spec big (String.length s)) as [Hlong|Hshort].
    + destruct (substring0_split big s) as [d [Hs Hl]]; [lia|].
      rewrite (startsWith_truncated "data:" s _ big H5
                 (Nat.lt_le_incl _ _ Hlong)), Hd. cbn [andb].
      rewrite length_append, Hl.
      change (String.length "... [Truncated]") with 15.
      destruct (Nat.ltb_spec big (big + 15)); [|lia].
      repeat split; [lia | congruence | now rewrite substring0_exact].
    + rewrite Hd. cbn [andb].
      destruct (Nat.ltb_spec big (String.length s)); [lia|].
      repeat split; [lia | congruence].
Qed.

Lemma redactString_redacted (s : string) : redacted (redactString s).
Proof.
  destruct small_le_limit as (H500 & H5 & H12).
  exact (proj1 (redact_limits 500 5000 s H12 H500 H5)).
Qed.

Lemma redactString_idempotent (s : string) :
  redactString (redactString s) = redactString s.
Proof.
  destruct small_le_limit as (H500 & H5 & H12).
  exact (proj2 (redact_limits 500 5000 s H12 H500 H5)).
Qed.

(** X11.  In the context made of an object or an array, every string
    has been through the replacer: none has more than 5,000 characters
    and the marker, none is a data URL of more than 500 characters;
    and the rewriting is idempotent. *)
Theorem replaceStrings_redacts (v : JsVal) :
  Forall redacted (stringsOf (replaceStrings v))
  /\ replaceStrings (replaceStrings v) = replaceStrings v.
Proof.
  induction v as [| | | |s|items IH|props IH] using JsVal_nested_ind;
    try (split; [constructor | reflexivity]).
  - split.
    + constructor; [apply redactString_redacted | constructor].
    + simpl. now rewrite redactString_idempotent.
  - split.
    + cbn [replaceStrings stringsOf].
      induction IH as [|x items [Hx _] _ IHl]; [constructor|].
      cbn [map flat_map]. apply Forall_app. split; assumption.
    + cbn [replaceStrings]. f_equal. rewrite map_map.
      induction IH as [|x items [_ Hx] _ IHl]; [reflexivity|].
      cbn [map]. now rewrite Hx, IHl.
  - split.
    + cbn [replaceStrings stringsOf].
      induction IH as [|[k x] props [Hx _] _ IHl]; [constructor|].
      cbn [map flat_map]. apply Forall_app. split; assumption.
    + cbn [replaceStrings]. f_equal. rewrite map_map.
      induction IH as [|[k x] props [_ Hx] _ IHl]; [reflexivity|].
      cbn [map snd] in *. now rewrite Hx, IHl.
Qed.

End ContextFacts.

(** ** Nodes that cannot fail, and the trigger's form *)

Module ProcessFacts.
Import EngineFacts TraversalFacts StoreFacts OutcomeFacts.

Section Process.
Variable h : Host.






End Process.

(** The form of the trigger. *)
Lemma NoDup_keys_set {V : Type} (k : string) (v : V) (m : list (string * V)) :
  NoDup (Object_keys m) -> NoDup (Object_keys (prop_set k v m)).
Proof.
  intros Hnd.
  destruct (keys_set k v m) as [[_ ->]|[Hh (f & b & Hm & ->)]]; [exact Hnd|].
  rewrite Hm in Hnd. apply (NoDup_Add (Add_app k f b)). split; [exact Hnd|].
  rewrite <- Hm. intros Hin. apply prop_has_In in Hin. congruence.
Qed.

Lemma formData_fold (k : string) (fields : list WebhookFormField)
      (acc : Store) :
  k <> "__proto__" -> k <> EmptyString ->
  prop_get k
    (own (fold_left
            (fun obj f =>
               match key f with
               | EmptyString => obj
               | k0 => assign k0 (JStr (field_value f)) obj
               end)
            fields acc))
  = match lastValue k fields with
    | Some v => Some (JStr v)
    | None => prop_get k (own acc)
    end.
Proof.
  intros Hk Hne. revert acc.
  induction fields as [|f fields IH]; intros acc; [reflexivity|].
  cbn [fold_left lastValue]. rewrite IH.
  destruct (lastValue k fields); [reflexivity|].
  destruct (key f) as [|c t] eqn:Hkey.
  - destruct (String.eqb_spec EmptyString k); [congruence | reflexivity].
  - destruct (String.eqb_spec (String c t) k) as [Heq|Hneq].
    + rewrite Heq. now apply assign_get.
    + apply assign_get_other. congruence.
Qed.

Lemma formData_keys (fields : list WebhookFormField) (acc : Store) :
  proto acc = ObjectPrototype ->
  NoDup (Object_keys (own acc)) ->
  (forall x, In x (Object_keys (own acc)) ->
             x <> EmptyString /\ x <> "__proto__") ->
  let obj := fold_left
               (fun obj f =>
                  match key f with
                  | EmptyString => obj
                  | k0 => assign k0 (JStr (field_value f)) obj
                  end)
               fields acc in
  NoDup (Object_keys (own obj))
  /\ forall x, In x (Object_keys (own obj)) ->
               x <> EmptyString /\ x <> "__proto__".
Proof.
  revert acc. induction fields as [|f fields IH]; intros acc Hpr Hnd Hkeys;
    [now split|].
  cbn [fold_left]. destruct (key f) as [|c t] eqn:Hkey; [now apply IH|].
  assert (Hreach : reachesBuiltin "__proto__" acc = true).
  { unfold reachesBuiltin. rewrite Hpr.
    destruct (prop_has "__proto__" (own acc)) eqn:Hh; [|reflexivity].
    apply prop_has_In, Hkeys in Hh. now destruct Hh. }
  unfold assign. rewrite Hreach, Bool.andb_true_r.
  destruct (String.eqb_spec (String c t) "__proto__") as [Heq|Hneq];
    [now apply IH|].
  apply IH; cbn [own proto].
  - exact Hpr.
  - now apply NoDup_keys_set.
  - intros x Hx.
    destruct (keys_set (String c t) (JStr (field_value f)) (own acc))
      as [[_ Hsame]|[_ (fr & bk & Hold & Hnew)]].
    + rewrite Hsame in Hx. now apply Hkeys.
    + rewrite Hnew in Hx. apply in_app_or in Hx as [Hx|[<-|Hx]].
      * apply Hkeys. rewrite Hold. apply in_or_app. now left.
      * split; [discriminate | exact Hneq].
      * apply Hkeys. rewrite Hold. apply in_or_app. now right.
Qed.

(** X13.  The object a form-data trigger builds has one property for
    each key among the fields, each key once, and under a key the
    value of the last field that carries it.  Fields with an empty key
    are left out, and so is a field called [__proto__], which reaches
    the prototype accessor and, with a string, changes nothing. *)
Theorem formDataObj_lookup (fields : list WebhookFormField) :
  (forall k, k <> EmptyString -> k <> "__proto__" ->
     prop_get k (ownProps (formDataObj fields))
     = option_map JStr (lastValue k fields))
  /\ prop_get EmptyString (ownProps (formDataObj fields)) = None
  /\ prop_get "__proto__" (ownProps (formDataObj fields)) = None
  /\ NoDup (Object_keys (ownProps (formDataObj fields))).
Proof.
  unfold formDataObj. cbn [ownProps].
  destruct (formData_keys fields emptyObject eq_refl (NoDup_nil _))
    as [Hnd Hkeys]; [intros x []|].
  repeat apply conj.
  - intros k Hne Hk. rewrite formData_fold by assumption.
    destruct (lastValue k fields); reflexivity.
  - match goal with
    | |- prop_get ?k ?m = None =>
        destruct (prop_get k m) eqn:Hg; [|reflexivity];
        assert (Hh : prop_has k m = true) by (unfold prop_has; now rewrite Hg)
    end.
    apply prop_has_In, Hkeys in Hh. now destruct Hh.
  - match goal with
    | |- prop_get ?k ?m = None =>
        destruct (prop_get k m) eqn:Hg; [|reflexivity];
        assert (Hh : prop_has k m = true) by (unfold prop_has; now rewrite Hg)
    end.
    apply prop_has_In, Hkeys in Hh. now destruct Hh.
  - exact Hnd.
Qed.

End ProcessFacts.

Lemma run_keeps_configuration_witness :
  exists e',
    run (SampleHost.host Scenario.failingAi) Scenario.forkEdges 2
        (create Scenario.forkNodes) = Returns tt e'
    /\ map config (nodes e') = map config Scenario.forkNodes
    /\ map id (nodes e') = map id Scenario.forkNodes.
Proof.
  eexists. split; [vm_compute; reflexivity|].
  apply (proj1 (InvariantFacts.run_keeps_configuration
                  (SampleHost.host Scenario.failingAi) Scenario.forkEdges 2
                  (create Scenario.forkNodes) _)).
  vm_compute; reflexivity.
Defined.

Lemma run_appends_to_log_witness :
  exists e',
    run (SampleHost.host Scenario.failingAi) Scenario.forkEdges 2
        (create Scenario.forkNodes) = Returns tt e'
    /\ exists more,
         logs e' = "[12:00:00 PM] Starting workflow execution..." :: more.
Proof.
  eexists. split; [vm_compute; reflexivity|].
  apply (proj1 (InvariantFacts.run_appends_to_log
                  (SampleHost.host Scenario.failingAi) Scenario.forkEdges 2
                  (create Scenario.forkNodes) _)).
  vm_compute; reflexivity.
Defined.


(** ** The Gemini service *)

Module GeminiFacts.
Import EngineFacts StoreFacts ReferenceFacts GeminiService.

(** *** Data URLs *)

Lemma position_absent (c : ascii) (a b : string) :
  forallb_str (fun d => negb (Ascii.eqb d c)) a = true ->
  position c (a ++ String c b) = Some (String.length a).
Proof.
  induction a as [|d a IH]; cbn [append position forallb_str String.length].
  - now rewrite Ascii.eqb_refl.
  - intros H. apply andb_prop in H as [Hd Ha].
    apply Bool.negb_true_iff in Hd. rewrite Hd, (IH Ha). reflexivity.
Qed.

Lemma split_absent (c : ascii) (a : string) :
  forallb_str (fun d => negb (Ascii.eqb d c)) a = true ->
  split c a = [a].
Proof.
  induction a as [|d a IH]; cbn [split forallb_str]; [reflexivity|].
  intros H. apply andb_prop in H as [Hd Ha].
  apply Bool.negb_true_iff in Hd. now rewrite Hd, (IH Ha).
Qed.

Lemma split_first (c : ascii) (a b : string) :
  forallb_str (fun d => negb (Ascii.eqb d c)) a = true ->
  split c (a ++ String c b) = a :: split c b.
Proof.
  induction a as [|d a IH]; cbn [append split forallb_str].
  - now rewrite Ascii.eqb_refl.
  - intros H. apply andb_prop in H as [Hd Ha].
    apply Bool.negb_true_iff in Hd. now rewrite Hd, (IH Ha).
Qed.

Lemma forallb_str_weaken (p q : ascii -> bool) (s : string) :
  (forall c, p c = true -> q c = true) ->
  forallb_str p s = true -> forallb_str q s = true.
Proof.
  intros Hpq. induction s as [|c s IH]; cbn [forallb_str]; [reflexivity|].
  intros H. apply andb_prop in H as [Hc Hs].
  now rewrite (Hpq c Hc), (IH Hs).
Qed.

Lemma prefix_own (p x : string) : String.prefix p (p ++ x) = true.
Proof.
  induction p as [|c p IH]; cbn [append String.prefix].
  - destruct x; reflexivity.
  - destruct (ascii_dec c c); [exact IH | congruence].
Qed.

(** X14.  A data URL made of a MIME type and Base64 data, as the
    service builds it from the inline data of a response, is taken
    apart into the same MIME type and the same data; handed to a node
    as an input, it reaches the request as that inline data. *)
Theorem dataUrl_round_trip (mime data : string) :
  forallb_str (fun c => negb (Ascii.eqb c ":") && negb (Ascii.eqb c ";")
                        && negb (Ascii.eqb c ",")) mime = true ->
  forallb_str (fun c => negb (Ascii.eqb c ",")) data = true ->
  let url := "data:" ++ mime ++ ";base64," ++ data in
  extractMimeType url = mime
  /\ extractBase64Data url = Some data
  /\ forall nodeData i,
       inputs nodeData = Some [i] -> value i = JStr url ->
       inputParts nodeData
       = Ok [InlinePart {| inline_data := Some data;
                           inline_mimeType := mime |}].
Proof.
  intros Hmime Hdata url.
  assert (Hsemi : forallb_str (fun d => negb (Ascii.eqb d ";")) mime = true).
  { revert Hmime. apply forallb_str_weaken. intros c H.
    apply andb_prop in H as [H _]. now apply andb_prop in H as [_ H]. }
  assert (Hcomma : forallb_str (fun d => negb (Ascii.eqb d ",")) mime = true).
  { revert Hmime. apply forallb_str_weaken. intros c H.
    now apply andb_prop in H as [_ H]. }
  assert (Hm : extractMimeType url = mime).
  { unfold extractMimeType, indexOf, url.
    change (position ":" ("data:" ++ mime ++ ";base64," ++ data))
      with (Some 4).
    assert (Hp : position ";" ("data:" ++ mime ++ ";base64," ++ data)
                 = Some (5 + String.length mime)).
    { change (";base64," ++ data) with (String ";" ("base64," ++ data)).
      cbn [append position Ascii.eqb Bool.eqb].
      now rewrite (position_absent ";" mime _ Hsemi). }
    rewrite Hp. unfold substring.
    set (len := String.length ("data:" ++ mime ++ ";base64," ++ data)).
    assert (Hlen : len = 5 + String.length mime + (8 + String.length data)).
    { unfold len. rewrite !length_append. reflexivity. }
    replace (Z.to_nat (Z.min (Z.max (Z.of_nat 4 + 1) 0) (Z.of_nat len)))
      with 5 by lia.
    replace (Z.to_nat (Z.min (Z.max (Z.of_nat (5 + String.length mime)) 0)
                             (Z.of_nat len)))
      with (5 + String.length mime) by lia.
    replace (Nat.min 5 (5 + String.length mime)) with 5 by lia.
    replace (Nat.max 5 (5 + String.length mime) - 5)
      with (String.length mime) by lia.
    cbn [append dropStr]. apply substring0_append. }
  assert (Hd : extractBase64Data url = Some data).
  { unfold extractBase64Data, url.
    replace ("data:" ++ mime ++ ";base64," ++ data)
      with (("data:" ++ mime ++ ";base64") ++ String "," data)
      by (rewrite !append_assoc; reflexivity).
    rewrite split_first.
    - now rewrite (split_absent "," data Hdata).
    - rewrite !forallb_append, Hcomma. reflexivity. }
  repeat split; [exact Hm | exact Hd|].
  intros nodeData i Hin Hv. unfold inputParts. rewrite Hin.
  cbn [flat_map]. rewrite Hv.
  change (startsWith "data:" url) with
    (String.prefix "data:" ("data:" ++ (mime ++ ";base64," ++ data))).
  assert (Hpre : String.prefix "data:" ("data:" ++ (mime ++ ";base64," ++ data))
                 = true).
  { apply prefix_own. }
  rewrite Hpre. unfold inlinePart. fold url. now rewrite Hm, Hd.
Qed.

Lemma JsVal_eq_null (v : JsVal) :
  (v = JNull \/ v = JUndefined) \/ (v <> JNull /\ v <> JUndefined).
Proof.
  destruct v; try (right; split; discriminate);
    left; [now right | now left].
Qed.

(** *** Schemas *)

Lemma normalizeSchema_typed (v : JsVal) :
  hasType v = true -> normalizeSchema v = Ok v.
Proof.
  intros H. destruct v as [| | | | |items|props]; try discriminate H;
    cbn [normalizeSchema]; rewrite ?H; reflexivity.
Qed.

Lemma fold_left_pointwise {A B : Type} (f g : A -> B -> A) (l : list B)
      (a : A) :
  (forall x y, f x y = g x y) -> fold_left f l a = fold_left g l a.
Proof.
  intros Hfg. revert a. induction l as [|y l IH]; intros a; [reflexivity|].
  cbn [fold_left]. now rewrite Hfg, IH.
Qed.

(** [normalizeSchema], with the body of its loop by name. *)
Lemma normalizeSchema_eq (schema : JsVal) :
  schema <> JNull -> schema <> JUndefined ->
  normalizeSchema schema
  = if hasType schema then Ok schema
    else match schema with
         | JObj [] => Ok schema
         | JObj props =>
             match fold_left loopStep props (Ok (emptyObject, true)) with
             | Err e => Err e
             | Ok (properties, validSimplified) =>
                 if validSimplified
                 then Ok (JObj [("type", JStr "OBJECT");
                                ("properties", JObj (own properties))])
                 else Ok schema
             end
         | _ => Ok schema
         end.
Proof.
  intros Hn Hu.
  destruct schema as [| | | | |items|[|p props]]; try reflexivity;
    try congruence.
  cbn [normalizeSchema].
  rewrite (fold_left_pointwise _ loopStep); [reflexivity|].
  intros [[properties valid]|e] [key val]; unfold loopStep; cbn [fst snd];
    [|reflexivity].
  destruct val; try reflexivity; cbn [simplified propertySchema];
    (destruct (hasType _) eqn:Ht;
     [now rewrite (normalizeSchema_typed _ Ht) | reflexivity]).
Qed.

(** The loop goes through when every accepted value has a normal
    form. *)
Lemma loop_defined (props : list (string * JsVal)) :
  Forall (fun kv => simplified (snd kv) = true ->
                    exists r, propertySchema (snd kv) = Ok r) props ->
  forall st, exists st', fold_left loopStep props (Ok st) = Ok st'.
Proof.
  induction 1 as [|[k v] props Hv _ IH]; intros st; [now exists st|].
  cbn [fold_left]. unfold loopStep at 2. cbn [fst snd] in *.
  destruct (simplified v); [|apply IH].
  destruct (Hv eq_refl) as [r ->]. apply IH.
Qed.

(** Only [null] and [undefined] make [normalizeSchema] raise. *)
Lemma normalizeSchema_defined (v : JsVal) :
  v <> JNull -> v <> JUndefined -> exists r, normalizeSchema v = Ok r.
Proof.
  induction v as [| | | | |items IH|props IH]
    using ContextFacts.JsVal_nested_ind;
    intros Hn Hu; try congruence;
    rewrite normalizeSchema_eq by assumption.
  - destruct (hasType _); eexists; reflexivity.
  - destruct (hasType _); eexists; reflexivity.
  - destruct (hasType _); eexists; reflexivity.
  - destruct (hasType _); eexists; reflexivity.
  - destruct (hasType _); [eexists; reflexivity|].
    destruct props as [|p props]; [eexists; reflexivity|].
    destruct (loop_defined (p :: props)) with (st := (emptyObject, true))
      as [[properties valid] ->].
    + eapply Forall_impl; [|exact IH]. intros [k x] Hx Hs. cbn [snd] in *.
      destruct x; try discriminate Hs;
        [eexists; reflexivity | apply Hx; discriminate..].
    + destruct valid; eexists; reflexivity.
Qed.

Lemma propertySchema_defined (v : JsVal) :
  simplified v = true -> exists r, propertySchema v = Ok r.
Proof.
  destruct v; try discriminate; intros _;
    [eexists; reflexivity | apply normalizeSchema_defined; discriminate..].
Qed.

(** A schema comes back as it is or with a type. *)
Lemma normalizeSchema_cases (v r : JsVal) :
  normalizeSchema v = Ok r -> r = v \/ hasType r = true.
Proof.
  destruct (JsVal_eq_null v) as [[-> | ->]|[Hn Hu]]; try discriminate.
  rewrite normalizeSchema_eq by assumption.
  destruct (hasType v) eqn:Ht; [intros H; inversion H; now left|].
  destruct v as [| | | | |items|[|p props]];
    try (intros H; inversion H; now left).
  destruct (fold_left loopStep (p :: props) (Ok (emptyObject, true)))
    as [[properties [|]]|e]; intros H; inversion H;
    [right; reflexivity | now left].
Qed.

(** X16.  [normalizeSchema] raises on [null] and on [undefined], the
    [TypeError] of reading their [type], and on nothing else.  On
    every other value it is idempotent: normalizing the result again
    gives the result.  A schema with a [type] at its root is left
    alone, and what comes back is the schema as it was or an object
    with a [type]. *)
Theorem normalizeSchema_idempotent (v : JsVal) :
  normalizeSchema JNull
  = Err "Cannot read properties of null (reading 'type')"
  /\ normalizeSchema JUndefined
     = Err "Cannot read properties of undefined (reading 'type')"
  /\ (v <> JNull -> v <> JUndefined ->
      exists r,
        normalizeSchema v = Ok r
        /\ normalizeSchema r = Ok r
        /\ (hasType v = true -> r = v)
        /\ (r = v \/ hasType r = true)).
Proof.
  split; [reflexivity|]. split; [reflexivity|].
  intros Hn Hu. destruct (normalizeSchema_defined v Hn Hu) as [r Hr].
  exists r. split; [exact Hr|].
  pose proof (normalizeSchema_cases v r Hr) as Hc.
  repeat split.
  - destruct Hc as [->|Ht]; [exact Hr | now apply normalizeSchema_typed].
  - intros Ht. rewrite (normalizeSchema_typed v Ht) in Hr. now inversion Hr.
  - exact Hc.
Qed.

(** The loop on accepted values only. *)
Lemma loop_valid (props : list (string * JsVal)) (acc : Store)
      (valid : bool) :
  exists properties,
    fold_left loopStep props (Ok (acc, valid))
    = Ok (properties, valid && forallb simplified (map snd props)).
Proof.
  revert acc valid. induction props as [|[k v] props IH]; intros acc valid.
  - exists acc. cbn. now rewrite Bool.andb_true_r.
  - cbn [fold_left map forallb]. unfold loopStep at 2. cbn [fst snd].
    destruct (simplified v) eqn:Hs.
    + destruct (propertySchema_defined v Hs) as [r ->]. cbn [andb].
      apply IH.
    + destruct (IH acc false) as [properties ->].
      exists properties. cbn [andb]. now rewrite Bool.andb_false_r.
Qed.

Lemma prop_get_absent {V : Type} (k : string) (m : list (string * V)) :
  ~ In k (Object_keys m) -> prop_get k m = None.
Proof.
  intros Hk. destruct (prop_get k m) eqn:Hg; [|reflexivity].
  exfalso. apply Hk, prop_has_In. unfold prop_has. now rewrite Hg.
Qed.

Lemma loop_lookup (props : list (string * JsVal)) (acc properties : Store)
      (valid valid' : bool) (k : string) :
  NoDup (Object_keys props) ->
  forallb simplified (map snd props) = true ->
  k <> "__proto__" ->
  fold_left loopStep props (Ok (acc, valid)) = Ok (properties, valid') ->
  match prop_get k props with
  | Some v => exists r, propertySchema v = Ok r
                        /\ prop_get k (own properties) = Some r
  | None => prop_get k (own properties) = prop_get k (own acc)
  end.
Proof.
  intros Hnd Hs Hk. revert acc valid Hnd Hs.
  induction props as [|[k0 v0] props IH]; intros acc valid Hnd Hs Hfold.
  - cbn in Hfold. inversion Hfold. reflexivity.
  - cbn [map forallb snd] in Hs. apply andb_prop in Hs as [Hv0 Hs].
    unfold Object_keys in Hnd. cbn [map fst] in Hnd.
    apply NoDup_cons_iff in Hnd as [Hk0 Hnd].
    cbn [fold_left] in Hfold. unfold loopStep at 2 in Hfold.
    cbn [fst snd] in Hfold. rewrite Hv0 in Hfold.
    destruct (propertySchema_defined v0 Hv0) as [r0 Hr0].
    rewrite Hr0 in Hfold.
    specialize (IH _ _ Hnd Hs Hfold). cbn [prop_get].
    destruct (String.eqb_spec k0 k) as [->|Hne].
    + rewrite (prop_get_absent k props Hk0) in IH.
      exists r0. split; [exact Hr0|]. rewrite IH. now apply assign_get.
    + destruct (prop_get k props); [exact IH|].
      rewrite IH. apply assign_get_other. congruence.
Qed.

Lemma loop_proto (props : list (string * JsVal)) (acc properties : Store)
      (valid valid' : bool) :
  NoDup (Object_keys props) ->
  proto acc = ObjectPrototype \/ ~ In "__proto__" (Object_keys props) ->
  prop_get "__proto__" (own acc) = None ->
  fold_left loopStep props (Ok (acc, valid)) = Ok (properties, valid') ->
  prop_get "__proto__" (own properties) = None.
Proof.
  revert acc valid.
  induction props as [|[k0 v0] props IH];
    intros acc valid Hnd Hpr Hown Hfold.
  - cbn in Hfold. inversion Hfold. now subst.
  - unfold Object_keys in Hnd, Hpr. cbn [map fst] in Hnd, Hpr.
    apply NoDup_cons_iff in Hnd as [Hk0 Hnd].
    cbn [fold_left] in Hfold. unfold loopStep at 2 in Hfold.
    cbn [fst snd] in Hfold.
    destruct (simplified v0) eqn:Hv0.
    + destruct (propertySchema_defined v0 Hv0) as [r0 Hr0].
      rewrite Hr0 in Hfold.
      destruct (String.eqb_spec k0 "__proto__") as [->|Hne].
      * assert (Hreach : reachesBuiltin "__proto__" acc = true).
        { destruct Hpr as [Hpr|Hpr]; [|exfalso; apply Hpr; now left].
          unfold reachesBuiltin, prop_has. now rewrite Hown, Hpr. }
        eapply IH; [exact Hnd | now right | | exact Hfold].
        unfold assign. rewrite Hreach.
        cbn [String.eqb Ascii.eqb Bool.eqb andb].
        destruct r0; exact Hown.
      * eapply IH; [exact Hnd | | | exact Hfold].
        -- destruct Hpr as [Hpr|Hpr].
           ++ left. unfold assign. apply String.eqb_neq in Hne.
              now rewrite Hne.
           ++ right. intros Hin. apply Hpr. now right.
        -- rewrite assign_get_other by congruence. exact Hown.
    + eapply IH; [exact Hnd | | exact Hown | exact Hfold].
      destruct Hpr as [Hpr|Hpr]; [now left|].
      right. intros Hin. apply Hpr. now right.
Qed.

(** X15.  The simplified form of a schema.  An object without a
    [type] whose values are all strings, objects or arrays becomes
    [{ type: 'OBJECT', properties }], where each key holds: for a
    type word in any case, that type in upper case; for any other
    string, the type [STRING]; for an object or an array, its own
    normal form.  A key [__proto__] is lost.  With any other value
    among them (a number, a boolean, [null]), the schema is sent as it
    was written. *)
Theorem normalizeSchema_simplified (props : list (string * JsVal)) :
  props <> [] ->
  NoDup (Object_keys props) ->
  hasType (JObj props) = false ->
  (forallb simplified (map snd props) = true ->
   exists properties,
     normalizeSchema (JObj props)
     = Ok (JObj [("type", JStr "OBJECT"); ("properties", JObj properties)])
     /\ (forall k, k <> "__proto__" ->
           match prop_get k props with
           | Some v => exists r, propertySchema v = Ok r
                                 /\ prop_get k properties = Some r
           | None => prop_get k properties = None
           end)
     /\ prop_get "__proto__" properties = None)
  /\ (forallb simplified (map snd props) = false ->
      normalizeSchema (JObj props) = Ok (JObj props)).
Proof.
  intros Hne Hnd Ht.
  rewrite normalizeSchema_eq by discriminate. rewrite Ht.
  destruct props as [|p props]; [congruence|].
  destruct (loop_valid (p :: props) emptyObject true)
    as [properties Hfold].
  split; intros Hs; rewrite Hs in Hfold; cbn [andb] in Hfold;
    rewrite Hfold; [|reflexivity].
  exists (own properties). split; [reflexivity|]. split.
  - intros k Hk.
    exact (loop_lookup (p :: props) emptyObject properties true true k
             Hnd Hs Hk Hfold).
  - exact (loop_proto (p :: props) emptyObject properties true true Hnd
             (or_introl eq_refl) eq_refl Hfold).
Qed.

(** *** The call *)

Section Call.
Variable apiKey : option string.
Variable generateContent : Request -> Response.
Variable jsonParse : string -> option JsVal.

Lemma orElse_nonempty (s d : string) :
  d <> EmptyString -> orElse (Some s) d <> EmptyString.
Proof. intros Hd. destruct s; [exact Hd | discriminate]. Qed.

Lemma inputParts_message (nodeData : NodeData) (msg : string) :
  inputParts nodeData = Err msg ->
  msg = invalidImage
  \/ msg = "nodeData.inputImage.substring is not a function".
Proof.
  unfold inputParts. destruct (inputs nodeData); [discriminate|].
  destruct (truthyVal (inputImage nodeData)); [|discriminate].
  destruct (inputImage nodeData) as [| | | |s| |];
    try (intros H; inversion H; now right).
  destruct (startsWith "data:" s); [discriminate|].
  intros H; inversion H; now left.
Qed.

Lemma schemaOf_message (nodeData : NodeData) (msg : string) :
  schemaOf jsonParse nodeData = Err msg -> msg = invalidSchema.
Proof.
  unfold schemaOf. destruct (jsonSchema nodeData) as [[|c t]|];
    try discriminate.
  destruct (trim (String c t)); [discriminate|].
  destruct (jsonParse (String c t)) as [parsed|];
    [destruct (normalizeSchema parsed)|]; try discriminate;
    intros H; now inversion H.
Qed.

Lemma buildRequest_message (nodeData : NodeData) (inputContext msg : string) :
  buildRequest jsonParse nodeData inputContext = Err msg ->
  In msg [invalidImage; "nodeData.inputImage.substring is not a function";
          invalidSchema].
Proof.
  unfold buildRequest.
  destruct (inputParts nodeData) as [images|m] eqn:Hi.
  - destruct (schemaOf jsonParse nodeData) as [schema|m] eqn:Hs;
      [discriminate|].
    intros H. inversion H. subst m.
    rewrite (schemaOf_message _ _ Hs). cbn. auto.
  - intros H. inversion H. subst m.
    destruct (inputParts_message _ _ Hi) as [-> | ->]; cbn; auto.
Qed.

Lemma apiFailure_nonempty (schema : option JsVal) (error : ApiError) :
  apiFailure schema error <> EmptyString.
Proof.
  unfold apiFailure.
  destruct (includes "token" _ || includes "exceeds" _); [discriminate|].
  destruct (includes "INVALID_ARGUMENT" _ && _); [discriminate|].
  apply orElse_nonempty. discriminate.
Qed.

(** A call that fails says why. *)
Lemma executeAiNode_message (nodeData : NodeData)
      (inputContext msg : string) :
  executeAiNode apiKey generateContent jsonParse nodeData inputContext
  = Err msg ->
  msg <> EmptyString.
Proof.
  unfold executeAiNode. destruct (truthy apiKey).
  - destruct (buildRequest jsonParse nodeData inputContext)
      as [[request schema]|m] eqn:Hb.
    + destruct (generateContent request); [discriminate|].
      intros H. inversion H. apply apiFailure_nonempty.
    + intros H. inversion H. subst m.
      apply buildRequest_message in Hb.
      cbn [In] in Hb. destruct Hb as [<-|[<-|[<-|[]]]]; discriminate.
  - intros H. inversion H. discriminate.
Qed.

(** X17.  The failures of a call.  Its message is never empty.
    Without a key in the environment it is the message about the key,
    whatever the node is.  And as long as the API itself answers, it
    is one of four: the key, the image that is not a data URL, the
    image that is not a string, the schema that is not JSON. *)
Theorem executeAiNode_failures (nodeData : NodeData)
        (inputContext msg : string) :
  executeAiNode apiKey generateContent jsonParse nodeData inputContext
  = Err msg ->
  msg <> EmptyString
  /\ (truthy apiKey = false -> msg = missingKey)
  /\ ((forall request error, generateContent request <> Failed error) ->
      In msg [missingKey; invalidImage;
              "nodeData.inputImage.substring is not a function";
              invalidSchema]).
Proof.
  intros Hcall. split; [now apply executeAiNode_message in Hcall|].
  revert Hcall. unfold executeAiNode. destruct (truthy apiKey).
  - intros Hcall. split; [discriminate|]. intros Hup.
    destruct (buildRequest jsonParse nodeData inputContext)
      as [[request schema]|m] eqn:Hb.
    + destruct (generateContent request) eqn:Hg; [discriminate|].
      now apply Hup in Hg.
    + inversion Hcall. subst m. right.
      now apply buildRequest_message in Hb.
  - intros H. inversion H. split; [reflexivity | intros _; now left].
Qed.

(** X18.  With a list of inputs, even an empty one, the legacy image
    of the node plays no part in the call: it is neither sent nor
    checked. *)
Theorem inputs_hide_legacy_image (nodeData : NodeData)
        (ins : list NodeInput) (image : JsVal) (inputContext : string) :
  inputs nodeData = Some ins ->
  executeAiNode apiKey generateContent jsonParse
                (with_inputImage image nodeData) inputContext
  = executeAiNode apiKey generateContent jsonParse nodeData inputContext.
Proof.
  intros Hin. destruct nodeData. cbn [inputs] in Hin. subst.
  reflexivity.
Qed.

(** X19.  The answer of an image node, and of any node without a
    schema, is a string that is not empty: where the model gave
    nothing, the service puts a sentence in its place. *)
Theorem answer_not_empty (nodeData : NodeData) (inputContext : string)
        (v : JsVal) :
  isImageNode nodeData = true
  \/ trim (orElse (jsonSchema nodeData) EmptyString) = EmptyString ->
  executeAiNode apiKey generateContent jsonParse nodeData inputContext
  = Ok v ->
  exists s, v = JStr s /\ s <> EmptyString.
Proof.
  intros Hcase. unfold executeAiNode.
  destruct (truthy apiKey); [|discriminate].
  unfold buildRequest. destruct (inputParts nodeData); [|discriminate].
  destruct (schemaOf jsonParse nodeData) as [schema|] eqn:Hs;
    [|discriminate].
  match goal with
  | |- context [generateContent ?r] => destruct (generateContent r)
  end; [|discriminate].
  intros H. inversion H. unfold answer.
  destruct (collect parts) as [outputText outputImage].
  destruct (isImageNode nodeData) eqn:Himg.
  - eexists. split; [reflexivity|].
    apply orElse_nonempty, orElse_nonempty. discriminate.
  - destruct Hcase as [Hcase|Hcase]; [discriminate|].
    assert (schema = None) as ->.
    { revert Hs. unfold schemaOf.
      destruct (jsonSchema nodeData) as [[|c t]|];
        try (intros Hs; now inversion Hs).
      cbn [orElse] in Hcase. rewrite Hcase.
      intros Hs; now inversion Hs. }
    eexists. split; [reflexivity|]. apply orElse_nonempty. discriminate.
Qed.

End Call.

End GeminiFacts.

(** ** The engine with the service behind it *)

Module MessageFacts.
Import EngineFacts TraversalFacts OutcomeFacts.

Section Speaks.
Variable h : Host.
Variable edges : list Edge.
Hypothesis service_speaks :
  forall nodeData inputContext msg,
    executeAiNode h nodeData inputContext = Err msg -> msg <> EmptyString.

Lemma speaks_ret {A : Type} (a : A) : speaks (ret a).
Proof. intros e. exact I. Qed.

Lemma speaks_modify (f : Engine -> Engine) : speaks (modify f).
Proof. intros e. exact I. Qed.

Lemma speaks_gets {A : Type} (f : Engine -> A) : speaks (gets f).
Proof. intros e. exact I. Qed.

Lemma speaks_throw {A : Type} (msg : string) :
  msg <> EmptyString -> speaks (@throw A msg).
Proof. intros Hm e. exact Hm. Qed.

Lemma speaks_liftResult {A : Type} (r : Result A) :
  (forall msg, r = Err msg -> msg <> EmptyString) -> speaks (liftResult r).
Proof. intros Hr e. destruct r; [exact I | now apply Hr]. Qed.

Lemma speaks_bind {A B : Type} (m : M A) (k : A -> M B) :
  speaks m -> (forall a, speaks (k a)) -> speaks (bind m k).
Proof.
  intros Hm Hk e. unfold bind. specialize (Hm e).
  destruct (m e) as [a e1|msg e1|]; [apply Hk | exact Hm | exact I].
Qed.

Lemma speaks_tryCatch {A : Type} (body : M A) (handler : string -> M A) :
  speaks body ->
  (forall msg, msg <> EmptyString -> speaks (handler msg)) ->
  speaks (tryCatch body handler).
Proof.
  intros Hb Hh e. unfold tryCatch. specialize (Hb e).
  destruct (body e) as [a e1|msg e1|]; [exact I | now apply Hh | exact I].
Qed.

Lemma speaks_forEach {A : Type} (xs : list A) (f : A -> M unit) :
  (forall x, speaks (f x)) -> speaks (forEach xs f).
Proof.
  intros Hf. induction xs as [|x xs IH]; [apply speaks_ret|].
  cbn [forEach]. apply speaks_bind; [apply Hf | intros _; exact IH].
Qed.

Lemma speaks_mapM {A B : Type} (f : A -> M B) (xs : list A) :
  (forall x, speaks (f x)) -> speaks (mapM f xs).
Proof.
  intros Hf. induction xs as [|x xs IH]; [apply speaks_ret|].
  cbn [mapM]. apply speaks_bind; [apply Hf | intros y].
  apply speaks_bind; [exact IH | intros ys; apply speaks_ret].
Qed.

Lemma speaks_log (message : string) : speaks (log h message).
Proof. apply speaks_modify. Qed.

Lemma hasOwnProperty_message (receiver : string) (obj : Store)
      (name msg : string) :
  hasOwnProperty receiver obj name = Err msg -> msg <> EmptyString.
Proof.
  unfold hasOwnProperty. destruct (reachesBuiltin _ _); [discriminate|].
  intros H. inversion H. destruct receiver; discriminate.
Qed.

Lemma notFound_message (name : string) (vars : Store) :
  notFound name vars <> EmptyString.
Proof. discriminate. Qed.

Lemma substitute_message (vars : Store) (name msg : string) :
  substitute h vars name = Err msg -> msg <> EmptyString.
Proof.
  unfold substitute.
  destruct (hasOwnProperty "this.variables" vars name) as [[|]|m] eqn:Hh;
    [discriminate| |].
  - intros H. inversion H. apply notFound_message.
  - intros H. inversion H. subst m. now apply hasOwnProperty_message in Hh.
Qed.

Lemma replaceSegments_message (vars : Store) (l : list Segment)
      (msg : string) :
  replaceSegments h vars l = Err msg -> msg <> EmptyString.
Proof.
  induction l as [|[c|name] l IH]; cbn [replaceSegments]; [discriminate| |].
  - destruct (replaceSegments h vars l); [discriminate|].
    intros H. inversion H. subst. now apply IH.
  - destruct (substitute h vars name) as [v|m] eqn:Hs.
    + destruct (replaceSegments h vars l); [discriminate|].
      intros H. inversion H. subst. now apply IH.
    + intros H. inversion H. subst. now apply substitute_message in Hs.
Qed.

Lemma resolveVariables_speaks (text : option string) :
  speaks (resolveVariables h text).
Proof.
  unfold resolveVariables. apply speaks_bind; [apply speaks_gets|].
  intros vars. apply speaks_liftResult. intros msg.
  unfold resolveVariablesIn. destruct text as [[|c t]|]; try discriminate.
  apply replaceSegments_message.
Qed.

Lemma resolveVariableValue_speaks (varName : string) :
  speaks (resolveVariableValue varName).
Proof.
  unfold resolveVariableValue. apply speaks_bind; [apply speaks_gets|].
  intros vars. apply speaks_liftResult. intros msg.
  unfold resolveVariableValueIn.
  destruct (hasOwnProperty "this.variables" vars _) as [[|]|m] eqn:Hh;
    [discriminate| |].
  - intros H. inversion H. apply notFound_message.
  - intros H. inversion H. subst m. now apply hasOwnProperty_message in Hh.
Qed.

Lemma resolveInput_speaks (i : NodeInput) : speaks (resolveInput h i).
Proof.
  unfold resolveInput. destruct (input_type i); [|apply speaks_ret].
  apply speaks_tryCatch.
  - apply speaks_bind; [|intros v; apply speaks_ret].
    destruct (value i); try (apply speaks_throw; discriminate).
    apply resolveVariableValue_speaks.
  - intros msg _. apply speaks_bind; [apply speaks_log|].
    intros _. apply speaks_ret.
Qed.

Lemma resolveNodeData_speaks (d : NodeData) : speaks (resolveNodeData h d).
Proof.
  unfold resolveNodeData.
  apply speaks_bind.
  { destruct (truthy (prompt d)); [|apply speaks_ret].
    apply speaks_bind; [apply resolveVariables_speaks|].
    intros p. apply speaks_ret. }
  intros d1. apply speaks_bind.
  { destruct (truthy (apiUrl d1)); [|apply speaks_ret].
    apply speaks_bind; [apply resolveVariables_speaks|].
    intros p. apply speaks_ret. }
  intros d2.
  assert (Hlegacy : speaks (img <- resolveInputImage d2 ;;
                            ret (with_inputImage img d2))).
  { apply speaks_bind; [|intros img; apply speaks_ret].
    unfold resolveInputImage.
    destruct (inputImageVariable d2) as [[|c t]|]; try apply speaks_ret.
    apply speaks_tryCatch; [apply resolveVariableValue_speaks|].
    intros msg Hmsg. now apply speaks_throw. }
  destruct (inputs d2) as [[|i ins]|]; try exact Hlegacy.
  apply speaks_bind; [|intros ins'; apply speaks_ret].
  unfold resolveInputs. apply speaks_mapM, resolveInput_speaks.
Qed.

Lemma dispatch_speaks (t : NodeType) (d : NodeData) (inputData : JsVal) :
  speaks (dispatch h t d inputData).
Proof.
  unfold dispatch.
  destruct t;
    repeat first
      [ apply speaks_ret
      | apply speaks_log
      | apply speaks_gets
      | apply speaks_liftResult; intros msg; apply service_speaks
      | apply speaks_bind; [|intros ?]
      | match goal with
        | |- speaks (match ?x with _ => _ end) => destruct x
        end ].
Qed.

Lemma storeOutputVariable_speaks (d : NodeData) (out : JsVal) :
  speaks (storeOutputVariable h d out).
Proof.
  intros e. destruct (IsolationFacts.storeOutputVariable_returns h d out e)
    as [e' ->]. exact I.
Qed.

Lemma applyMapping_speaks (out : JsVal) (m : OutputMapping) :
  speaks (applyMapping h out m).
Proof.
  unfold applyMapping.
  destruct (field m); [apply speaks_ret|].
  destruct (variable m); [apply speaks_ret|].
  apply speaks_bind.
  - apply speaks_liftResult. intros msg. apply hasOwnProperty_message.
  - intros [|]; [|apply speaks_log].
    apply speaks_bind; [apply speaks_modify | intros _; apply speaks_log].
Qed.

Lemma storeOutputMappings_speaks (d : NodeData) (out : JsVal) :
  speaks (storeOutputMappings h d out).
Proof.
  unfold storeOutputMappings.
  destruct (outputMappings d) as [[|m ms]|]; try apply speaks_ret.
  destruct (isObject out); [|apply speaks_log].
  apply speaks_forEach. intros x. apply applyMapping_speaks.
Qed.

Lemma processNode_speaks (node : Node) (inputData : JsVal) :
  speaks (processNode h node inputData).
Proof.
  unfold processNode.
  apply speaks_bind; [apply resolveNodeData_speaks | intros d].
  apply speaks_bind; [apply dispatch_speaks | intros out].
  apply speaks_bind; [apply storeOutputVariable_speaks | intros _].
  apply speaks_bind; [apply storeOutputMappings_speaks | intros _].
  apply speaks_bind; [apply speaks_modify | intros _].
  apply speaks_bind; [apply speaks_log | intros _].
  apply speaks_ret.
Qed.

Lemma explained_mark_success (i : string) (out : JsVal) (n : Node) :
  explained n -> explained (markNode i Success out None n).
Proof.
  unfold markNode. destruct (id n =? i); [|easy].
  intros _ H. cbn in H. discriminate.
Qed.

Lemma explained_mark_error (i msg : string) (n : Node) :
  msg <> EmptyString ->
  explained n -> explained (markNode i Error JUndefined (Some msg) n).
Proof.
  intros Hmsg. unfold markNode. destruct (id n =? i); [|easy].
  intros _ _. exists msg. split; [reflexivity | exact Hmsg].
Qed.

(** Every failed node of a finished run shows a message. *)
Lemma run_explains (fuel : nat) (e e' : Engine) (start : Node) :
  find isWebhook (nodes e) = Some start ->
  run h edges fuel e = Returns tt e' ->
  Forall explained (nodes e').
Proof.
  intros Hstart Hrun.
  assert (Hexec : forall f node inputData a b,
             Forall explained (nodes a) ->
             executeNode h edges f node inputData a = Returns tt b ->
             Forall explained (nodes b)).
  { intros f node inputData a b Ha Hx.
    apply (executeNode_invariant h edges
             (fun x => Forall explained (nodes x))
             (fun _ => True)) with (fuel := f) (node := node)
             (inputData := inputData) (e := a); try assumption; try exact I.
    - intros nd inp x msg x1 _ Hx0 Hp.
      pose proof (processNode_nodes h nd inp (entered h nd x)) as Hn.
      pose proof (processNode_speaks nd inp (entered h nd x)) as Hs.
      rewrite Hp in Hn, Hs. cbn [failed nodes set_logs set_nodes].
      rewrite Hn. cbn [entered nodes set_logs set_nodes].
      rewrite map_map. apply Forall_map.
      eapply Forall_impl; [|exact Hx0]. intros n Hex.
      rewrite markNode_after_running. now apply explained_mark_error.
    - intros nd inp x out x1 _ Hx0 Hp.
      pose proof (processNode_nodes h nd inp (entered h nd x)) as Hn.
      rewrite Hp in Hn. rewrite Hn.
      cbn [entered nodes set_logs set_nodes].
      rewrite map_map. apply Forall_map.
      eapply Forall_impl; [|exact Hx0]. intros n Hex.
      rewrite markNode_after_running. now apply explained_mark_success.
    - intros; exact I. }
  assert (Hreset : Forall explained (map resetNode (nodes e))).
  { apply Forall_map, Forall_forall. intros n _ H. cbn in H. discriminate. }
  revert Hrun. unfold run, bind, log, modify, gets.
  cbn [nodes set_logs]. rewrite Hstart.
  match goal with
  | |- context [executeNode h edges fuel start ?i ?s] =>
      destruct (executeNode h edges fuel start i s) as [[] e2|msg e2|] eqn:E;
        try discriminate;
      apply Hexec in E; [|exact Hreset]
  end.
  intros Hrun. inversion Hrun. subst e'. cbn [nodes set_logs]. exact E.
Qed.

End Speaks.

(** X20.  With the Gemini service behind the engine, every node that
    a finished run leaves in the state [error] shows an error message
    that is not empty, whatever failed: a variable, an image, a schema,
    the key, the API or a mapping. *)
Theorem failed_nodes_say_why
        (apiKey : option string)
        (generateContent : GeminiService.Request -> GeminiService.Response)
        (h : Host) (edges : list Edge) (fuel : nat) (e e' : Engine)
        (start : Node) :
  find isWebhook (nodes e) = Some start ->
  run (serviceHost apiKey generateContent h) edges fuel e = Returns tt e' ->
  forall n, In n (nodes e') -> status (data n) = Some Error ->
    exists msg, errorMessage (data n) = Some msg /\ msg <> EmptyString.
Proof.
  intros Hstart Hrun n Hin.
  assert (H : Forall explained (nodes e')).
  { apply (run_explains (serviceHost apiKey generateContent h) edges)
      with (fuel := fuel) (e := e) (start := start); try assumption.
    intros nodeData inputContext msg.
    apply GeminiFacts.executeAiNode_message. }
  rewrite Forall_forall in H. exact (H n Hin).
Qed.

End MessageFacts.

(** ** The application around the engine *)

Module AppFacts.
Import EngineFacts StoreFacts OutcomeFacts App.

Lemma Map_set_keys {V : Type} (k x : string) (v : V)
      (m : list (string * V)) :
  In x (Object_keys (Map_set k v m)) <-> x = k \/ In x (Object_keys m).
Proof.
  unfold Map_set. destruct (prop_has k m) eqn:Hh.
  - rewrite keys_replace. apply prop_has_In in Hh.
    split; [auto | intros [->|H]; assumption].
  - unfold Object_keys. rewrite map_app, in_app_iff. cbn.
    split; [intros [H|[H|[]]]; auto | intros [->|H]; auto].
Qed.

Lemma Map_set_NoDup {V : Type} (k : string) (v : V) (m : list (string * V)) :
  NoDup (Object_keys m) -> NoDup (Object_keys (Map_set k v m)).
Proof.
  intros Hnd. unfold Map_set. destruct (prop_has k m) eqn:Hh.
  - now rewrite keys_replace.
  - unfold Object_keys. rewrite map_app. cbn.
    apply (NoDup_Add (a := k) (l := map fst m)).
    + rewrite <- (app_nil_r (map fst m)) at 1. apply Add_app.
    + split; [exact Hnd|]. intros Hin.
      apply prop_has_In in Hin. congruence.
Qed.

(** What one step of the loops keeps of a map of variables. *)
Lemma addMapping_keys (n : Node) (m : OutputMapping)
      (vars : list (string * VariableType)) (x : string) :
  In x (Object_keys (addMapping n vars m))
  <-> In x (Object_keys vars) \/ (x = variable m /\ notBlank x = true).
Proof.
  unfold addMapping. destruct (notBlank (variable m)) eqn:Hb.
  - assert (Hset : forall t,
               In x (Object_keys (Map_set (variable m) t vars))
               <-> In x (Object_keys vars)
                   \/ (x = variable m /\ notBlank x = true)).
    { intros t. rewrite Map_set_keys.
      split; [intros [->|H]; auto | intros [H|[-> _]]; auto]. }
    destruct (prop_get (variable m) vars) as [[| | |]|] eqn:Hg;
      try apply Hset.
    all: split; [auto | intros [H|[-> _]]; [exact H|]];
      apply prop_has_In; unfold prop_has; now rewrite Hg.
  - split; [auto | intros [H|[-> H]]; [exact H | congruence]].
Qed.

Lemma addMapping_NoDup (n : Node) (m : OutputMapping)
      (vars : list (string * VariableType)) :
  NoDup (Object_keys vars) -> NoDup (Object_keys (addMapping n vars m)).
Proof.
  intros Hnd. unfold addMapping. destruct (notBlank (variable m)); [|exact Hnd].
  destruct (prop_get (variable m) vars) as [[| | |]|];
    try exact Hnd; now apply Map_set_NoDup.
Qed.

Lemma addMappings_keys (n : Node) (ms : list OutputMapping)
      (vars : list (string * VariableType)) (x : string) :
  In x (Object_keys (fold_left (addMapping n) ms vars))
  <-> In x (Object_keys vars)
      \/ (notBlank x = true /\ exists m, In m ms /\ x = variable m).
Proof.
  revert vars. induction ms as [|m ms IH]; intros vars; cbn [fold_left].
  - split; [auto | intros [H|[_ (m & [] & _)]]; exact H].
  - rewrite IH, addMapping_keys. split.
    + intros [[H|[-> Hb]]|[Hb (m0 & Hm & ->)]]; auto.
      * right. split; [exact Hb|]. exists m. split; [now left | reflexivity].
      * right. split; [exact Hb|]. exists m0. split; [now right | reflexivity].
    + intros [H|[Hb (m0 & [<-|Hm] & ->)]]; auto.
      right. split; [exact Hb|]. now exists m0.
Qed.

Lemma addMappings_NoDup (n : Node) (ms : list OutputMapping)
      (vars : list (string * VariableType)) :
  NoDup (Object_keys vars) ->
  NoDup (Object_keys (fold_left (addMapping n) ms vars)).
Proof.
  revert vars. induction ms as [|m ms IH]; intros vars Hnd; [exact Hnd|].
  cbn [fold_left]. now apply IH, addMapping_NoDup.
Qed.

(** The names a node brings to the list. *)
Lemma addNode_keys (n : Node) (vars : list (string * VariableType))
      (x : string) :
  In x (Object_keys (addNode vars n))
  <-> In x (Object_keys vars)
      \/ (notBlank x = true
          /\ (outputVariableName (data n) = Some x
              \/ exists ms m, outputMappings (data n) = Some ms
                              /\ In m ms /\ x = variable m)).
Proof.
  unfold addNode.
  set (vars1 := match outputVariableName (data n) with
                | Some name =>
                    if notBlank name then Map_set name (primaryType n) vars
                    else vars
                | None => vars
                end).
  assert (H1 : In x (Object_keys vars1)
               <-> In x (Object_keys vars)
                   \/ (notBlank x = true
                       /\ outputVariableName (data n) = Some x)).
  { unfold vars1. destruct (outputVariableName (data n)) as [name|].
    - destruct (notBlank name) eqn:Hb.
      + rewrite Map_set_keys. split.
        * intros [->|H]; auto.
        * intros [H|[_ H]]; [auto | inversion H; auto].
      + split; [auto | intros [H|[Hx H]]; [exact H|]].
        inversion H. congruence.
    - split; [auto | intros [H|[_ H]]; [exact H | discriminate]]. }
  destruct (outputMappings (data n)) as [ms|].
  - rewrite addMappings_keys, H1. split.
    + intros [[H|[Hb H]]|[Hb (m & Hm & ->)]]; auto.
      right. split; [exact Hb|]. right. now exists ms, m.
    + intros [H|[Hb [H|(ms' & m & Hms & Hm & ->)]]]; auto.
      inversion Hms. subst ms'. right. split; [exact Hb|]. now exists m.
  - rewrite H1. split.
    + intros [H|[Hb H]]; auto.
    + intros [H|[Hb [H|(ms' & m & Hms & _)]]]; auto. discriminate.
Qed.

Lemma addNode_NoDup (n : Node) (vars : list (string * VariableType)) :
  NoDup (Object_keys vars) -> NoDup (Object_keys (addNode vars n)).
Proof.
  intros Hnd. unfold addNode.
  assert (H1 : NoDup (Object_keys
                        match outputVariableName (data n) with
                        | Some name =>
                            if notBlank name
                            then Map_set name (primaryType n) vars
                            else vars
                        | None => vars
                        end)).
  { destruct (outputVariableName (data n)) as [name|]; [|exact Hnd].
    destruct (notBlank name); [now apply Map_set_NoDup | exact Hnd]. }
  destruct (outputMappings (data n)); [now apply addMappings_NoDup | exact H1].
Qed.

Lemma addNodes_keys (nds : list Node) (vars : list (string * VariableType))
      (x : string) :
  In x (Object_keys (fold_left addNode nds vars))
  <-> In x (Object_keys vars)
      \/ (notBlank x = true
          /\ exists n, In n nds
               /\ (outputVariableName (data n) = Some x
                   \/ exists ms m, outputMappings (data n) = Some ms
                                   /\ In m ms /\ x = variable m)).
Proof.
  revert vars. induction nds as [|n nds IH]; intros vars; cbn [fold_left].
  - split; [auto | intros [H|[_ (n & [] & _)]]; exact H].
  - rewrite IH, addNode_keys. split.
    + intros [[H|[Hb H]]|[Hb (n0 & Hn & H)]]; auto.
      * right. split; [exact Hb|]. exists n. split; [now left | exact H].
      * right. split; [exact Hb|]. exists n0. split; [now right | exact H].
    + intros [H|[Hb (n0 & [<-|Hn] & H)]]; auto.
      right. split; [exact Hb|]. now exists n0.
Qed.

Lemma addNodes_NoDup (nds : list Node) (vars : list (string * VariableType)) :
  NoDup (Object_keys vars) ->
  NoDup (Object_keys (fold_left addNode nds vars)).
Proof.
  revert vars. induction nds as [|n nds IH]; intros vars Hnd; [exact Hnd|].
  cbn [fold_left]. now apply IH, addNode_NoDup.
Qed.

Lemma names_are_keys (nds : list Node) :
  map var_name (availableVariables nds)
  = Object_keys (fold_left addNode nds []).
Proof.
  unfold availableVariables, Object_keys. rewrite map_map. reflexivity.
Qed.

(** X21.  The list of variables offered in the sidebar names each
    variable once, and a name is on it exactly when it is not blank
    and some node has it as its output variable or as the variable of
    one of its mappings. *)
Theorem availableVariables_names (nds : list Node) :
  NoDup (map var_name (availableVariables nds))
  /\ forall x,
       In x (map var_name (availableVariables nds))
       <-> notBlank x = true
           /\ exists n, In n nds
                /\ (outputVariableName (data n) = Some x
                    \/ exists ms m, outputMappings (data n) = Some ms
                                    /\ In m ms /\ x = variable m).
Proof.
  rewrite names_are_keys. split.
  - apply addNodes_NoDup. constructor.
  - intros x. rewrite addNodes_keys. split.
    + intros [[]|H]. exact H.
    + intros H. now right.
Qed.

Lemma trim_notBlank (name : string) :
  trim name <> EmptyString -> notBlank name = true.
Proof.
  intros H. unfold notBlank. destruct name as [|c t]; [now elim H|].
  apply Bool.negb_true_iff. now apply String.eqb_neq.
Qed.

(** X22.  Every variable a run writes is on the list of the sidebar,
    up to the blanks around its name: after a run that found its
    trigger and returned, each variable of the store with a name that
    is not empty is the trimmed name of an entry of the list made from
    the same nodes. *)
Theorem written_variables_are_listed (h : Host) (edges : list Edge)
        (fuel : nat) (e e' : Engine) (start : Node) :
  find isWebhook (nodes e) = Some start ->
  run h edges fuel e = Returns tt e' ->
  forall k, In k (Object_keys (own (variables e'))) -> k <> EmptyString ->
    exists d, In d (availableVariables (nodes e)) /\ trim (var_name d) = k.
Proof.
  intros Hstart Hrun k Hk Hne.
  apply (run_names h edges fuel e e' start Hstart Hrun) in Hk.
  unfold declaredBy in Hk. apply in_flat_map in Hk as (n & Hn & Hk).
  assert (Hlisted : exists x, trim x = k
             /\ In x (map var_name (availableVariables (nodes e)))).
  { unfold declared in Hk. apply in_app_or in Hk as [Hk|Hk].
    - destruct (outputVariableName (data n)) as [name|] eqn:Ho;
        [|contradiction].
      destruct Hk as [Hk|[]]. exists name. split; [exact Hk|].
      rewrite names_are_keys. apply addNodes_keys. right.
      split; [apply trim_notBlank; congruence|].
      exists n. split; [exact Hn | now left].
    - destruct (outputMappings (data n)) as [ms|] eqn:Hm; [|contradiction].
      apply in_map_iff in Hk as (m & Hk & Hin).
      exists (variable m). split; [exact Hk|].
      rewrite names_are_keys. apply addNodes_keys. right.
      split; [apply trim_notBlank; congruence|].
      exists n. split; [exact Hn|]. right. now exists ms, m. }
  destruct Hlisted as (x & Hx & Hin).
  apply in_map_iff in Hin as (d & Hd & Hin).
  exists d. split; [exact Hin | now rewrite Hd].
Qed.

(** X23.  Deleting a node takes its edges with it.  Afterwards no
    node bears the identifier and no edge starts or ends there; the
    nodes and edges that stay are those of before, in their order;
    and when every edge joined two nodes of the graph before, every
    edge still does. *)
Theorem handleNodeDelete_closed (i : string) (nds : list Node)
        (eds : list Edge) (selected : option string) :
  let '(nds', eds', selected') := handleNodeDelete i (nds, eds, selected) in
  ~ In i (map id nds')
  /\ (forall e, In e eds' -> source e <> i /\ target e <> i)
  /\ (forall n, In n nds' <-> In n nds /\ id n <> i)
  /\ (forall e, In e eds' <-> In e eds /\ source e <> i /\ target e <> i)
  /\ (closed nds eds -> closed nds' eds')
  /\ selected' = None.
Proof.
  cbn [handleNodeDelete].
  assert (Hn : forall n,
             In n (filter (fun n => negb (id n =? i)) nds)
             <-> In n nds /\ id n <> i).
  { intros n. rewrite filter_In, Bool.negb_true_iff, String.eqb_neq.
    reflexivity. }
  assert (He : forall e,
             In e (filter (fun e => negb (source e =? i)
                                    && negb (target e =? i)) eds)
             <-> In e eds /\ source e <> i /\ target e <> i).
  { intros e. rewrite filter_In, Bool.andb_true_iff,
      !Bool.negb_true_iff, !String.eqb_neq. reflexivity. }
  repeat apply conj.
  - intros Hin. apply in_map_iff in Hin as (n & Hid & Hin).
    apply Hn in Hin as [_ Hne]. contradiction.
  - intros e Hin. now apply He in Hin.
  - exact Hn.
  - exact He.
  - intros Hclosed e Hin. apply He in Hin as (Hin & Hs & Ht).
    destruct (Hclosed e Hin) as [Hsrc Htgt].
    apply in_map_iff in Hsrc as (a & Ha & Hina).
    apply in_map_iff in Htgt as (b & Hb & Hinb).
    split; apply in_map_iff.
    + exists a. split; [exact Ha|]. apply Hn. split; [exact Hina | congruence].
    + exists b. split; [exact Hb|]. apply Hn. split; [exact Hinb | congruence].
  - reflexivity.
Qed.

End AppFacts.

Lemma dataUrl_round_trip_witness :
  GeminiService.extractMimeType "data:image/png;base64,aGVsbG8=" = "image/png"
  /\ GeminiService.extractBase64Data "data:image/png;base64,aGVsbG8="
     = Some "aGVsbG8="
  /\ GeminiService.inputParts
       (with_inputs (Some [ServiceScenario.pngInput])
                    ServiceScenario.summarize)
     = Ok [GeminiService.InlinePart
             {| GeminiService.inline_data := Some "aGVsbG8=";
                GeminiService.inline_mimeType := "image/png" |}].
Proof.
  destruct (GeminiFacts.dataUrl_round_trip "image/png" "aGVsbG8=")
    as (Hm & Hd & Hin); try (vm_compute; reflexivity).
  split; [exact Hm|]. split; [exact Hd|].
  apply (Hin _ ServiceScenario.pngInput); vm_compute; reflexivity.
Defined.

Lemma normalizeSchema_simplified_witness :
  exists properties,
    GeminiService.normalizeSchema (JObj ServiceScenario.simpleSchema)
    = Ok (JObj [("type", JStr "OBJECT"); ("properties", JObj properties)])
    /\ prop_get "age" properties = Some (GeminiService.typed "INTEGER")
    /\ prop_get "note" properties = Some (GeminiService.typed "STRING").
Proof.
  assert (Hnd : NoDup (Object_keys ServiceScenario.simpleSchema)).
  { repeat (constructor;
            [cbn; intros H;
             repeat (destruct H as [H|H]; try discriminate H); exact H|]).
    constructor. }
  destruct (proj1 (GeminiFacts.normalizeSchema_simplified
                     ServiceScenario.simpleSchema
                     ltac:(discriminate) Hnd ltac:(vm_compute; reflexivity))
                  ltac:(vm_compute; reflexivity))
    as (properties & Heq & Hlook & _).
  exists properties. split; [exact Heq|].
  pose proof (Hlook "age" ltac:(discriminate)) as Hage.
  pose proof (Hlook "note" ltac:(discriminate)) as Hnote.
  cbn in Hage, Hnote.
  destruct Hage as (r1 & E1 & G1). destruct Hnote as (r2 & E2 & G2).
  inversion E1. inversion E2. subst r1 r2.
  split; [exact G1 | exact G2].
Defined.

Lemma executeAiNode_failures_witness :
  GeminiService.executeAiNode None (ServiceScenario.answering "ok")
    SampleHost.parse ServiceScenario.summarize "Workflow triggered."
  = Err GeminiService.missingKey
  /\ GeminiService.missingKey <> EmptyString.
Proof.
  split; [vm_compute; reflexivity|].
  apply (GeminiFacts.executeAiNode_failures
           None (ServiceScenario.answering "ok") SampleHost.parse
           ServiceScenario.summarize "Workflow triggered.").
  vm_compute; reflexivity.
Defined.

Lemma inputs_hide_legacy_image_witness :
  GeminiService.executeAiNode (Some "key") (ServiceScenario.answering "ok")
    SampleHost.parse
    (with_inputImage (JStr "not a data URL")
       (with_inputs (Some []) ServiceScenario.summarize))
    "Workflow triggered."
  = GeminiService.executeAiNode (Some "key")
      (ServiceScenario.answering "ok") SampleHost.parse
      (with_inputs (Some []) ServiceScenario.summarize)
      "Workflow triggered.".
Proof.
  apply (GeminiFacts.inputs_hide_legacy_image
           (Some "key") (ServiceScenario.answering "ok") SampleHost.parse
           (with_inputs (Some []) ServiceScenario.summarize) []).
  vm_compute; reflexivity.
Defined.

Lemma answer_not_empty_witness :
  exists s,
    GeminiService.executeAiNode (Some "key")
      (fun _ => GeminiService.Answered None) SampleHost.parse
      ServiceScenario.summarize "Workflow triggered."
    = Ok (JStr s)
    /\ s <> EmptyString.
Proof.
  destruct (GeminiFacts.answer_not_empty
              (Some "key") (fun _ => GeminiService.Answered None)
              SampleHost.parse ServiceScenario.summarize
              "Workflow triggered." (JStr "No text generated."))
    as (s & Hs & Hne); try (vm_compute; reflexivity).
  - right. vm_compute; reflexivity.
  - exists s. split; [|exact Hne].
    rewrite <- Hs. vm_compute; reflexivity.
Defined.

Lemma failed_nodes_say_why_witness :
  exists e',
    run (serviceHost None ServiceScenario.unreachable
                     (SampleHost.host Scenario.stubAi))
        Scenario.forkEdges 2 (create Scenario.forkNodes) = Returns tt e'
    /\ Scenario.statusOf "A" e' = Some Error
    /\ forall n, In n (nodes e') -> status (data n) = Some Error ->
         exists msg, errorMessage (data n) = Some msg /\ msg <> EmptyString.
Proof.
  eexists. split; [vm_compute; reflexivity|].
  split; [vm_compute; reflexivity|].
  apply (MessageFacts.failed_nodes_say_why
           None ServiceScenario.unreachable
           (SampleHost.host Scenario.stubAi)
           Scenario.forkEdges 2 (create Scenario.forkNodes) _
           Scenario.trigger);
    vm_compute; reflexivity.
Defined.

Lemma written_variables_are_listed_witness :
  exists e',
    run (SampleHost.host Scenario.failingAi) Scenario.forkEdges 2
        (create Scenario.forkNodes) = Returns tt e'
    /\ forall k, In k (Object_keys (own (variables e'))) ->
         k <> EmptyString ->
         exists d, In d (App.availableVariables Scenario.forkNodes)
                   /\ trim (App.var_name d) = k.
Proof.
  eexists. split; [vm_compute; reflexivity|].
  apply (AppFacts.written_variables_are_listed
           (SampleHost.host Scenario.failingAi) Scenario.forkEdges 2
           (create Scenario.forkNodes) _ Scenario.trigger);
    vm_compute; reflexivity.
Defined.
